(** * GlowBit LED driver library: colour codec, pixel buffer, remapping,
      frame-rate limiter and flush, embedded from [glowbit.py].

    Conventions of the embedding.

    - Python integers are [Z]. The functions decorated with
      [@micropython.viper] run as ordinary Python functions where the
      decorator is the pass-through wrapper of the source, and as 32-bit
      native code on the microcontroller port; the theorems below carry the
      range hypotheses (8-bit channels, 24-bit colours, 8-bit brightness)
      under which no intermediate value leaves 32 bits, so both readings
      agree.  [//] and [%] are floor division and modulus, that is [Z.div]
      and [Z.modulo]; a zero divisor raises [ZeroDivisionError].
    - [self.ar] is an [array.array("I", ...)]: a fixed-length sequence of
      unsigned 32-bit cells, modelled as [list Z] with index and value
      checks written out ([IndexError], [OverflowError]).
    - Exceptions are the [Raise] branch of [result]; it does not carry the
      state reached when the exception was raised.
    - A statement that the compiler refuses is kept where it stands: the
      function whose body it is raises [SyntaxError] when it is called, and
      the other functions of the module are read as they are written.
    - The clock and the LED transport are the environment: a [world]
      numbers the externally visible actions of a run (clock reads and
      transport calls) and the function [clock : nat -> Z] gives the time,
      in milliseconds, at which the n-th action happens.  [ticks_ms] is an
      integer millisecond counter, as [time.ticks_ms] is; the float returned
      by the Linux shim and the wrap-around of the counter are not
      modelled. *)

From Stdlib Require Import ZArith QArith List Lia Bool String Ascii.
From stdpp Require Import base tactics option list list_numbers.

Local Open Scope Z_scope.

(** ** Exceptions *)

Inductive exn : Type :=
| IndexError
| OverflowError
| ZeroDivisionError
| TypeError
| SyntaxError
| NameError (name : string).

Inductive result (A : Type) : Type :=
| Ok (a : A)
| Raise (e : exn).

Arguments Ok {A} a.
Arguments Raise {A} e.

Definition bind {A B : Type} (m : result A) (k : A -> result B) : result B :=
  match m with
  | Ok a => k a
  | Raise e => Raise e
  end.

Notation "'do' x <- m ; k" := (bind m (fun x => k))
  (at level 10, x name, m at level 100, k at level 200).

(** [a // b] and [a % b]. *)
Definition py_floordiv (a b : Z) : result Z :=
  if b =? 0 then Raise ZeroDivisionError else Ok (a / b).

Definition py_mod (a b : Z) : result Z :=
  if b =? 0 then Raise ZeroDivisionError else Ok (a mod b).

(** ** Colour codec: class [colourFunctions] *)

Module colourFunctions.

Definition wheel (pos : Z) : Z :=
  let pos := pos mod 255 in
  if pos <? 85 then
    Z.lor (Z.shiftl (255 - pos * 3) 16) (Z.shiftl (pos * 3) 8)
  else if pos <? 170 then
    let pos := pos - 85 in
    Z.lor (Z.shiftl (255 - pos * 3) 8) (pos * 3)
  else
    let pos := pos - 170 in
    Z.lor (Z.shiftl (pos * 3) 16) (255 - pos * 3).

Definition rgb2GBColour (r g b : Z) : Z :=
  Z.lor (Z.lor (Z.shiftl r 16) (Z.shiftl g 8)) b.

(** The brackets of a statement, as the compiler reads them: [opened] is
    the stack of the closing brackets still awaited.  A closing bracket
    that meets an empty stack or another kind on top is a syntax error, and
    so is the end of the text with a bracket still open. *)
Definition closing_bracket (c : ascii) : option ascii :=
  if Ascii.eqb c "("%char then Some ")"%char
  else if Ascii.eqb c "["%char then Some "]"%char
  else if Ascii.eqb c "{"%char then Some "}"%char
  else None.

Definition is_closing_bracket (c : ascii) : bool :=
  Ascii.eqb c ")"%char || Ascii.eqb c "]"%char || Ascii.eqb c "}"%char.

Fixpoint match_brackets (opened : list ascii) (s : string) : result unit :=
  match s with
  | EmptyString =>
      match opened with
      | [] => Ok tt
      | _ :: _ => Raise SyntaxError
      end
  | String c rest =>
      match closing_bracket c with
      | Some c' => match_brackets (c' :: opened) rest
      | None =>
          if is_closing_bracket c then
            match opened with
            | c' :: opened' =>
                if Ascii.eqb c c' then match_brackets opened' rest
                else Raise SyntaxError
            | [] => Raise SyntaxError
            end
          else match_brackets opened rest
      end
  end.

(** The three expressions that the return statement of [glowbitColour2RGB]
    lists between its commas: [(colour&0xFF0000) >> 16],
    [(colour&0xFF00)>> 8] and [(colour&0xFF)]. *)
Definition channels (colour : Z) : Z * Z * Z :=
  (Z.shiftr (Z.land colour 0xFF0000) 16,
   Z.shiftr (Z.land colour 0xFF00) 8,
   Z.land colour 0xFF).

(** The return statement of [glowbitColour2RGB], the only statement of its
    body, character for character. *)
Definition glowbitColour2RGB_return : string :=
  "return ( (colour&0xFF0000) >> 16) , (colour&0xFF00)>> 8, (colour&0xFF) )".

(** [glowbitColour2RGB] returns the tuple of its three expressions if its
    statement is one the compiler accepts, and raises what the compiler
    raises if not. *)
Definition glowbitColour2RGB (colour : Z) : result (Z * Z * Z) :=
  do _ <- match_brackets [] glowbitColour2RGB_return ;
  Ok (channels colour).

End colourFunctions.

Import colourFunctions.

(** The three channels of a packed colour, by name. *)
Definition red (colour : Z) : Z := fst (fst (channels colour)).
Definition green (colour : Z) : Z := snd (fst (channels colour)).
Definition blue (colour : Z) : Z := snd (channels colour).

(** ** The pixel buffer: [array.array("I", ...)] *)

(** Subscript resolution of a sequence of length [len]: a negative index
    counts from the end, anything else out of range raises. *)
Definition array_index (len : nat) (i : Z) : result nat :=
  if (0 <=? i) && (i <? Z.of_nat len) then Ok (Z.to_nat i)
  else if (- Z.of_nat len <=? i) && (i <? 0) then Ok (Z.to_nat (i + Z.of_nat len))
  else Raise IndexError.

Definition array_get (a : list Z) (i : Z) : result Z :=
  do n <- array_index (length a) i;
  match a !! n with
  | Some v => Ok v
  | None => Raise IndexError
  end.

(** Typecode "I": the stored value must be an unsigned 32-bit integer. *)
Definition array_set (a : list Z) (i v : Z) : result (list Z) :=
  do n <- array_index (length a) i;
  if (0 <=? v) && (v <? 2 ^ 32) then Ok (<[n := v]> a) else Raise OverflowError.

(** ** Device objects *)

(** [_SYSNAME], which selects the flush routine bound to [pixelsShow]. *)
Inductive sysname : Type := rp2 | Linux.

(** What [self.remap] is bound to at construction: one of the two built-in
    methods, or the caller's [mapFunction]. *)
Inductive remapFn : Type :=
| remap4x4_method
| remap8x8_method
| mapFunction (f : Z -> Z -> Z).

(** The attributes of a device object that the modelled methods read or
    write.  [numLEDsX], [numLEDsY], [tileCols] and [remap] are set by the
    matrix constructors only. *)
Record device : Type := mkDevice {
  SYSNAME : sysname;
  numLEDs : Z;
  numLEDsX : Z;
  numLEDsY : Z;
  tileCols : Z;
  remap : remapFn;
  ar : list Z;
  dimmer_ar : list Z;
  brightness : Z;
  rateLimit : Z;
  lastFrame_ms : Z
}.

Definition set_ar (d : device) (a : list Z) : device :=
  mkDevice (SYSNAME d) (numLEDs d) (numLEDsX d) (numLEDsY d) (tileCols d)
           (remap d) a (dimmer_ar d) (brightness d) (rateLimit d) (lastFrame_ms d).

Definition set_dimmer_ar (d : device) (a : list Z) : device :=
  mkDevice (SYSNAME d) (numLEDs d) (numLEDsX d) (numLEDsY d) (tileCols d)
           (remap d) (ar d) a (brightness d) (rateLimit d) (lastFrame_ms d).

Definition set_lastFrame_ms (d : device) (t : Z) : device :=
  mkDevice (SYSNAME d) (numLEDs d) (numLEDsX d) (numLEDsY d) (tileCols d)
           (remap d) (ar d) (dimmer_ar d) (brightness d) (rateLimit d) t.

Definition set_rateLimit (d : device) (fps : Z) : device :=
  mkDevice (SYSNAME d) (numLEDs d) (numLEDsX d) (numLEDsY d) (tileCols d)
           (remap d) (ar d) (dimmer_ar d) (brightness d) fps (lastFrame_ms d).

(** [range(a, b)]. *)
Definition range (a b : Z) : list Z := seqZ a (b - a).

(** A [for] loop whose body may raise: the first exception ends it. *)
Fixpoint for_each {S : Type} (xs : list Z) (body : Z -> S -> result S) (s : S)
  : result S :=
  match xs with
  | [] => Ok s
  | x :: xs' => do s' <- body x s; for_each xs' body s'
  end.

(** ** Buffer operations: class [glowbit] *)

Module glowbit.

Definition pixelSet (d : device) (i colour : Z) : result device :=
  do a <- array_set (ar d) i colour;
  Ok (set_ar d a).

Definition pixelAdd (d : device) (i colour : Z) : result device :=
  do v <- array_get (ar d) i;
  let tmp := v + colour in
  do a <- array_set (ar d) i tmp;
  Ok (set_ar d a).

Definition pixelsFill (d : device) (colour : Z) : result device :=
  for_each (range 0 (Z.of_nat (length (ar d))))
           (fun i d' => pixelSet d' i colour) d.

Definition getPixel (d : device) (N : Z) : result Z :=
  array_get (ar d) N.

Definition updateRateLimitFPS (d : device) (rateLimitFPS : Z) : device :=
  set_rateLimit d rateLimitFPS.

End glowbit.

(** ** Coordinate remapping *)

Module matrix4x4.

Definition remap4x4 (x y : Z) : Z :=
  let mc := x / 4 in
  let TopLeftIndex := mc * 16 in
  let LEDsBefore := 4 * y + x - 4 * mc in
  TopLeftIndex + LEDsBefore.

End matrix4x4.

Module matrix8x8.

(** [tileCols] is [self.tileCols]. *)
Definition remap8x8 (tileCols x y : Z) : Z :=
  if (y / 8) mod 2 =? 0 then
    64 * ((y / 8) * tileCols + x / 8) + (8 * (y mod 8) + x mod 8)
  else
    64 * ((y / 8) * tileCols + (tileCols - x / 8 - 1)) + (8 * (y mod 8) + x mod 8).

End matrix8x8.

(** [self.remap(x, y)]. *)
Definition call_remap (d : device) (x y : Z) : Z :=
  match remap d with
  | remap4x4_method => matrix4x4.remap4x4 x y
  | remap8x8_method => matrix8x8.remap8x8 (tileCols d) x y
  | mapFunction f => f x y
  end.

(** ** Module-level names *)

(** The names bound at the top level of the module: its imports, the
    platform shims and its classes.  Each is bound to a module, a class or
    (for [ptr32]) a one-argument function. *)
Definition module_globals : list string :=
  ["os"; "_SYSNAME"; "Pin"; "micropython"; "rp2"; "ws"; "ptr32";
   "petme128"; "time"; "array"; "gc";
   "colourFunctions"; "colourMaps"; "glowbit"; "glowbitMatrix";
   "stick"; "rainbow"; "triangle"; "matrix4x4"; "matrix8x8"]%string.

(** Loading a name that is neither a local nor an attribute: it is looked
    up among the module's globals ([remap] is no built-in either). *)
Definition load_global (name : string) : result unit :=
  if existsb (String.eqb name) module_globals then Ok tt
  else Raise (NameError name).

(** ** 2D operations: class [glowbitMatrix] *)

Module glowbitMatrix.

Definition pixelSetXY (d : device) (x y colour : Z) : result device :=
  do x <- py_mod x (numLEDsX d);
  do y <- py_mod y (numLEDsY d);
  do a <- array_set (ar d) (call_remap d x y) colour;
  Ok (set_ar d a).

Definition pixelSetXYClip (d : device) (x y colour : Z) : result device :=
  if (0 <=? x) && (0 <=? y) && (x <? numLEDsX d) && (y <? numLEDsY d) then
    do a <- array_set (ar d) (call_remap d x y) colour;
    Ok (set_ar d a)
  else Ok d.

(** The subscript is the call of a bare name [remap], not of
    [self.remap]: the name is loaded first.  None of the module's globals
    is a two-argument function, so a call that found one would raise
    [TypeError]. *)
Definition getPixelXY (d : device) (x y : Z) : result Z :=
  do _f <- load_global "remap";
  Raise TypeError.

Definition drawRectangleFill (d : device) (x0 y0 x1 y1 colour : Z)
  : result device :=
  for_each (range x0 (x1 + 1))
    (fun x d' =>
       for_each (range y0 (y1 + 1))
         (fun y d'' => pixelSetXY d'' x y colour) d')
    d.

Definition pixelAddXY (d : device) (x y colour : Z) : result device :=
  do x <- py_mod x (numLEDsX d);
  do y <- py_mod y (numLEDsY d);
  let i := call_remap d x y in
  do v <- array_get (ar d) i;
  do a <- array_set (ar d) i (v + colour);
  Ok (set_ar d a).

Definition pixelAddXYClip (d : device) (x y colour : Z) : result device :=
  if (0 <=? x) && (0 <=? y) && (x <? numLEDsX d) && (y <? numLEDsY d) then
    do v <- array_get (ar d) (call_remap d x y);
    do a <- array_set (ar d) (call_remap d x y) (colour + v);
    Ok (set_ar d a)
  else Ok d.

(** Sequencing of drawing steps that may run out of fuel or raise. *)
Definition and_then (m : option (result device))
           (k : device -> option (result device)) : option (result device) :=
  match m with
  | None => None
  | Some (Raise e) => Some (Raise e)
  | Some (Ok d) => k d
  end.

(** The [while x0 <= x1] loop of [drawLine]; one unit of [fuel] is one
    evaluation of its condition. *)
Fixpoint drawLine_loop (fuel : nat) (d : device) (steep : bool)
         (x0 y0 x1 dx dy err ystep colour : Z) : option (result device) :=
  match fuel with
  | O => None
  | S fuel' =>
      if x0 <=? x1 then
        match (if steep then pixelSetXYClip d y0 x0 colour
               else pixelSetXYClip d x0 y0 colour) with
        | Raise e => Some (Raise e)
        | Ok d1 =>
            let err := err - dy in
            let '(y0, err) :=
              if err <? 0 then (y0 + ystep, err + dx) else (y0, err) in
            drawLine_loop fuel' d1 steep (x0 + 1) y0 x1 dx dy err ystep colour
        end
      else Some (Ok d)
  end.

Definition drawLine (fuel : nat) (d : device) (x0 y0 x1 y1 colour : Z)
  : option (result device) :=
  let steep := Z.abs (y1 - y0) >? Z.abs (x1 - x0) in
  let '(x0, y0, x1, y1) :=
    if steep then (y0, x0, y1, x1) else (x0, y0, x1, y1) in
  let '(x0, y0, x1, y1) :=
    if x0 >? x1 then (x1, y1, x0, y0) else (x0, y0, x1, y1) in
  let dx := x1 - x0 in
  let dy := Z.abs (y1 - y0) in
  let err := Z.shiftr dx 1 in
  let ystep := if y0 <? y1 then 1 else -1 in
  drawLine_loop fuel d steep x0 y0 x1 dx dy err ystep colour.

Definition drawTriangle (fuel : nat) (d : device) (x0 y0 x1 y1 x2 y2 colour : Z)
  : option (result device) :=
  and_then (drawLine fuel d x0 y0 x1 y1 colour) (fun d =>
  and_then (drawLine fuel d x1 y1 x2 y2 colour) (fun d =>
  drawLine fuel d x2 y2 x0 y0 colour)).

Definition drawRectangle (fuel : nat) (d : device) (x0 y0 x1 y1 colour : Z)
  : option (result device) :=
  and_then (drawLine fuel d x0 y0 x1 y0 colour) (fun d =>
  and_then (drawLine fuel d x1 y0 x1 y1 colour) (fun d =>
  and_then (drawLine fuel d x1 y1 x0 y1 colour) (fun d =>
  drawLine fuel d x0 y1 x0 y0 colour))).

(** The [while x < y] loop of [drawCircle]. *)
Fixpoint drawCircle_loop (fuel : nat) (d : device)
         (x0 y0 x y f ddf_x ddf_y colour : Z) : option (result device) :=
  match fuel with
  | O => None
  | S fuel' =>
      if x <? y then
        let '(y, ddf_y, f) :=
          if f >=? 0 then (y - 1, ddf_y + 2, f + (ddf_y + 2)) else (y, ddf_y, f) in
        let x := x + 1 in
        let ddf_x := ddf_x + 2 in
        let f := f + ddf_x in
        match
          (do d <- pixelSetXYClip d (x0 + x) (y0 + y) colour;
           do d <- pixelSetXYClip d (x0 - x) (y0 + y) colour;
           do d <- pixelSetXYClip d (x0 + x) (y0 - y) colour;
           do d <- pixelSetXYClip d (x0 - x) (y0 - y) colour;
           do d <- pixelSetXYClip d (x0 + y) (y0 + x) colour;
           do d <- pixelSetXYClip d (x0 - y) (y0 + x) colour;
           do d <- pixelSetXYClip d (x0 + y) (y0 - x) colour;
           pixelSetXYClip d (x0 - y) (y0 - x) colour)
        with
        | Raise e => Some (Raise e)
        | Ok d1 => drawCircle_loop fuel' d1 x0 y0 x y f ddf_x ddf_y colour
        end
      else Some (Ok d)
  end.

Definition drawCircle (fuel : nat) (d : device) (x0 y0 r colour : Z)
  : option (result device) :=
  let f := 1 - r in
  let ddf_x := 1 in
  let ddf_y := -2 * r in
  let x := 0 in
  let y := r in
  match
    (do d <- pixelSetXYClip d x0 (y0 + r) colour;
     do d <- pixelSetXYClip d x0 (y0 - r) colour;
     do d <- pixelSetXYClip d (x0 + r) y0 colour;
     pixelSetXYClip d (x0 - r) y0 colour)
  with
  | Raise e => Some (Raise e)
  | Ok d1 => drawCircle_loop fuel d1 x0 y0 x y f ddf_x ddf_y colour
  end.

End glowbitMatrix.

(** ** The environment: clock and LED transport *)

(** Calls into the strip library ([setPixelColor], [show]) and into the
    state machine's FIFO ([put]). *)
Inductive call : Type :=
| setPixelColor (i w : Z)
| show
| put (w shift : Z).

(** [actions] counts the clock reads and transport calls made so far;
    [log] lists the transport calls in order, each with its time. *)
Record world : Type := mkWorld {
  actions : nat;
  log : list (Z * call)
}.

Section Environment.

(** Time of the n-th action. *)
Variable clock : nat -> Z.

(** [self.ticks_ms()]. *)
Definition ticks_ms (w : world) : Z * world :=
  (clock (actions w), mkWorld (S (actions w)) (log w)).

Definition transport (c : call) (w : world) : world :=
  mkWorld (S (actions w)) (log w ++ [(clock (actions w), c)]).

(** *** Rate limiter: [glowbit.__syncWait]

    One unit of [fuel] is one evaluation of the loop condition; [None]
    means the loop was still waiting when the fuel ran out. *)
Fixpoint syncWait (fuel : nat) (d : device) (w : world)
  : option (result (device * world)) :=
  match fuel with
  | O => None
  | S fuel' =>
      let '(now, w1) := ticks_ms w in
      match py_floordiv 1000 (rateLimit d) with
      | Raise e => Some (Raise e)
      | Ok interval =>
          if now <? lastFrame_ms d + interval then syncWait fuel' d w1
          else
            let '(now', w2) := ticks_ms w1 in
            Some (Ok (set_lastFrame_ms d now', w2))
      end
  end.

(** *** Flush: [glowbit.__pixelsShowRPi] *)

(** The word sent for the buffer entry [c]. *)
Definition frameRPi (br c : Z) : Z :=
  let r := Z.shiftr (Z.land (Z.shiftr c 16) 0xFF * br) 8 in
  let g := Z.shiftr (Z.land (Z.shiftr c 8) 0xFF * br) 8 in
  let b := Z.shiftr (Z.land c 0xFF * br) 8 in
  Z.lor (Z.lor (Z.shiftl r 16) (Z.shiftl g 8)) b.

(** [for i,c in enumerate(self.ar)], from index [i] on. *)
Fixpoint showLoopRPi (br i : Z) (cs : list Z) (w : world) : world :=
  match cs with
  | [] => w
  | c :: cs' =>
      showLoopRPi br (i + 1) cs' (transport (setPixelColor i (frameRPi br c)) w)
  end.

Definition pixelsShowRPi (fuel : nat) (d : device) (w : world)
  : option (result (device * world)) :=
  match syncWait fuel d w with
  | None => None
  | Some (Raise e) => Some (Raise e)
  | Some (Ok (d1, w1)) =>
      let br := brightness d1 in
      let w2 := showLoopRPi br 0 (ar d1) w1 in
      Some (Ok (d1, transport show w2))
  end.

(** *** Flush: [glowbit.__pixelsShowPico] *)

Definition framePico (br c : Z) : Z :=
  let r := Z.shiftr (Z.land (Z.shiftr c 16) 0xFF * br) 8 in
  let g := Z.shiftr (Z.land (Z.shiftr c 8) 0xFF * br) 8 in
  let b := Z.shiftr (Z.land c 0xFF * br) 8 in
  Z.lor (Z.lor (Z.shiftl g 16) (Z.shiftl r 8)) b.

(** The loop writes each word into [dimmer_ar] and reads it back for
    [put].  ([gc.collect()], between the wait and the loop, touches neither
    the device nor the transport and is left out.) *)
Fixpoint showLoopPico (br i : Z) (cs : list Z) (dim : list Z) (w : world)
  : result (list Z * world) :=
  match cs with
  | [] => Ok (dim, w)
  | c :: cs' =>
      do dim1 <- array_set dim i (framePico br c);
      do v <- array_get dim1 i;
      showLoopPico br (i + 1) cs' dim1 (transport (put v 8) w)
  end.

Definition pixelsShowPico (fuel : nat) (d : device) (w : world)
  : option (result (device * world)) :=
  match syncWait fuel d w with
  | None => None
  | Some (Raise e) => Some (Raise e)
  | Some (Ok (d1, w1)) =>
      let br := brightness d1 in
      match showLoopPico br 0 (ar d1) (dimmer_ar d1) w1 with
      | Raise e => Some (Raise e)
      | Ok (dim, w2) => Some (Ok (set_dimmer_ar d1 dim, w2))
      end
  end.

(** [self.pixelsShow], as the constructors bind it. *)
Definition pixelsShow (fuel : nat) (d : device) (w : world)
  : option (result (device * world)) :=
  match SYSNAME d with
  | rp2 => pixelsShowPico fuel d w
  | Linux => pixelsShowRPi fuel d w
  end.

End Environment.

(** ** Graph overlay configuration: [glowbitMatrix.graph1D] *)

Module graph1D.

(** The [colourMap] argument: a name or a callable. *)
Inductive colourMapArg : Type :=
| byName (name : string)
| callable (f : Z -> Z -> Z -> Z).

(** What [self.colourMap] ends up bound to. *)
Inductive colourMapFn : Type :=
| colourMapSolid
| colourMapRainbow
| custom (f : Z -> Z -> Z -> Z).

(** [m] is the quotient [length / (maxValue - minValue)], a float in the
    source, kept here as the exact rational.  [colourMap] is [None] when
    the constructor never assigns the attribute. *)
Record t : Type := mk {
  minValue : Z;
  maxValue : Z;
  originX : Z;
  originY : Z;
  length : Z;
  orientation : Z;
  inc : Z;
  m : Q;
  update : bool;
  colour : Z;
  colourMap : option colourMapFn
}.

Definition quote : string := String "034"%char EmptyString.

(** The three lines printed for an unrecognised direction; [print]
    separates its arguments by one space. *)
Definition diagnostic (direction : string) : list string :=
  [("Invalid direction " ++ quote ++ " " ++ direction ++ " " ++ quote ++ ".")%string;
   "Valid options: Up, Down, Left, Right"%string;
   "Defaulting to Up"%string].

(** [__init__]: the object and the lines printed. *)
Definition init (originX originY length : Z) (direction : string)
           (minValue maxValue colour : Z) (colourMap : colourMapArg)
           (update : bool) : result (t * list string) :=
  let orientation := -1 in
  let inc := 0 in
  let '(orientation, inc) :=
    if String.eqb direction "Up" then (1, -1) else (orientation, inc) in
  let '(orientation, inc) :=
    if String.eqb direction "Down" then (1, 1) else (orientation, inc) in
  let '(orientation, inc) :=
    if String.eqb direction "Left" then (0, -1) else (orientation, inc) in
  let '(orientation, inc) :=
    if String.eqb direction "Right" then (0, 1) else (orientation, inc) in
  let '(orientation, inc, printed) :=
    if (orientation =? -1) || (inc =? 0)
    then (1, 1, diagnostic direction)
    else (orientation, inc, []) in
  if maxValue - minValue =? 0 then Raise ZeroDivisionError
  else
    let m := Qdiv (inject_Z length) (inject_Z (maxValue - minValue)) in
    let cm :=
      match colourMap with
      | callable f => Some (custom f)
      | byName name =>
          if String.eqb name "Solid" then Some colourMapSolid
          else if String.eqb name "Rainbow" then Some colourMapRainbow
          else None
      end in
    Ok (mk minValue maxValue originX originY length orientation inc m
           update colour cm, printed).

End graph1D.

(** ** Rolling data series: [glowbitMatrix.graph2D] *)

Module graph2D.

(** [m] and [offset] are floats in the source, kept as exact rationals;
    [data] is the series, newest value first. *)
Record t : Type := mk {
  minValue : Z;
  maxValue : Z;
  originX : Z;
  originY : Z;
  width : Z;
  height : Z;
  colour : Z;
  bgColour : Z;
  update : bool;
  m : Q;
  offset : Q;
  bars : bool;
  data : list Z;
  colourMap : option graph1D.colourMapFn
}.

Definition set_data (g : t) (l : list Z) : t :=
  mk (minValue g) (maxValue g) (originX g) (originY g) (width g) (height g)
     (colour g) (bgColour g) (update g) (m g) (offset g) (bars g) l (colourMap g).

(** [__init__]; the [filled] argument is accepted and ignored. *)
Definition init (minValue maxValue originX originY width height colour bgColour : Z)
           (colourMap : graph1D.colourMapArg) (update filled bars : bool)
  : result t :=
  if maxValue - minValue =? 0 then Raise ZeroDivisionError
  else
    let m := Qdiv (inject_Z (1 - height)) (inject_Z (maxValue - minValue)) in
    let offset := Qminus (inject_Z originY) (Qmult m (inject_Z minValue)) in
    let cm :=
      match colourMap with
      | graph1D.callable f => Some (graph1D.custom f)
      | graph1D.byName name =>
          if String.eqb name "Solid" then Some graph1D.colourMapSolid
          else if String.eqb name "Rainbow" then Some graph1D.colourMapRainbow
          else None
      end in
    Ok (mk minValue maxValue originX originY width height colour bgColour
           update m offset bars [] cm).

(** [self.data.insert(0, value)], then [self.data.pop()] when the series
    has grown past [width]. *)
Definition addData (g : t) (value : Z) : t :=
  let data := value :: data g in
  if Z.of_nat (List.length data) >? width g
  then set_data g (removelast data)
  else set_data g data.

End graph2D.

(** ** Strips: classes [stick], [rainbow] and [triangle] *)

Module stick.

Definition fillSlice (d : device) (i j colour : Z) : result device :=
  let j := if j =? -1 then numLEDs d else j in
  for_each (range i (j + 1)) (fun k d' => glowbit.pixelSet d' k colour) d.

End stick.

Module rainbow.

Definition pixelSetAngle (d : device) (angle colour : Z) : result device :=
  glowbit.pixelSet d (angle / 15) colour.

(** The loop of [drawRainbow]: [colPhase] advances by 17 per LED. *)
Fixpoint drawRainbow_loop (indices : list Z) (colPhase : Z) (d : device)
  : result device :=
  match indices with
  | [] => Ok d
  | i :: indices' =>
      do d' <- glowbit.pixelSet d i (wheel (colPhase mod 255));
      drawRainbow_loop indices' (colPhase + 17) d'
  end.

Definition drawRainbow (clock : nat -> Z) (fuel : nat) (d : device)
           (offset : Z) (w : world) : option (result (device * world)) :=
  match drawRainbow_loop (range 0 (numLEDs d)) offset d with
  | Raise e => Some (Raise e)
  | Ok d' => pixelsShow clock fuel d' w
  end.

End rainbow.

Module triangle.

(** [LEDsPerTri] is [self.LEDsPerTri]. *)
Definition fillTri (LEDsPerTri : Z) (d : device) (tri colour : Z) : result device :=
  let addr := LEDsPerTri * tri in
  for_each (range addr (addr + LEDsPerTri))
           (fun i d' => do a <- array_set (ar d') i colour; Ok (set_ar d' a)) d.

End triangle.

(** ** Blanking: [glowbit.blankDisplay] *)

Definition blankDisplay (clock : nat -> Z) (fuel : nat) (d : device) (w : world)
  : option (result (device * world)) :=
  match for_each (range 0 (Z.of_nat (length (ar d))))
          (fun i d' => do a <- array_set (ar d') i 0; Ok (set_ar d' a)) d with
  | Raise e => Some (Raise e)
  | Ok d' => pixelsShow clock fuel d' w
  end.

(** ** Vocabulary of the statements *)

(** Largest channel-wise distance between two packed colours. *)
Definition channel_gap (c1 c2 : Z) : Z :=
  Z.max (Z.abs (red c1 - red c2))
        (Z.max (Z.abs (green c1 - green c2)) (Z.abs (blue c1 - blue c2))).

(** The geometry a [matrix4x4] constructor gives a device of [tiles] tiles
    with the built-in remapping. *)
Definition is_matrix4x4 (tiles : Z) (d : device) : Prop :=
  0 < tiles
  /\ numLEDs d = tiles * 16
  /\ numLEDsX d = tiles * 4
  /\ numLEDsY d = 4
  /\ remap d = remap4x4_method
  /\ Z.of_nat (length (ar d)) = numLEDs d.

(** The geometry a [matrix8x8] constructor gives a device of
    [tileRows] x [tileCols] tiles with the built-in remapping. *)
Definition is_matrix8x8 (tileRows tileCols' : Z) (d : device) : Prop :=
  0 < tileRows /\ 0 < tileCols'
  /\ tileCols d = tileCols'
  /\ numLEDs d = tileRows * tileCols' * 64
  /\ numLEDsX d = tileCols' * 8
  /\ numLEDsY d = tileRows * 8
  /\ remap d = remap8x8_method
  /\ Z.of_nat (length (ar d)) = numLEDs d.

(** A canvas whose remapping sends every coordinate of the declared domain
    to a cell of the buffer: what the built-in geometries provide and what a
    custom [mapFunction] has to provide. *)
Definition canvas_ok (d : device) : Prop :=
  0 < numLEDsX d /\ 0 < numLEDsY d
  /\ forall x y, 0 <= x < numLEDsX d -> 0 <= y < numLEDsY d ->
       0 <= call_remap d x y < Z.of_nat (length (ar d)).

(** The buffer cell of the canvas coordinate [(x, y)]. *)
Definition cell (d : device) (x y : Z) : nat := Z.to_nat (call_remap d x y).

(** The cell a wrapping write at [(x, y)] lands on. *)
Definition wrapped_cell (d : device) (x y : Z) : nat :=
  cell d (x mod numLEDsX d) (y mod numLEDsY d).

(** The buffer [a] after [colour] has been stored in the cells [cs]. *)
Definition fill_cells (colour : Z) (cs : list nat) (a : list Z) : list Z :=
  foldl (fun a' n => <[n := colour]> a') a cs.

(** The cells a filled rectangle writes, in the order of the two loops. *)
Definition rect_cells (d : device) (x0 y0 x1 y1 : Z) : list nat :=
  flat_map (fun x => map (wrapped_cell d x) (range y0 (y1 + 1)))
           (range x0 (x1 + 1)).

(** *** Vocabulary for the drawing primitives *)

(** The test of the clipped setters. *)
Definition on_canvas (d : device) (x y : Z) : bool :=
  (0 <=? x) && (0 <=? y) && (x <? numLEDsX d) && (y <? numLEDsY d).

(** The cells of those points of [pts] that lie on the canvas. *)
Definition clip_cells (d : device) (pts : list (Z * Z)) : list nat :=
  flat_map (fun p => if on_canvas d (fst p) (snd p) then [cell d (fst p) (snd p)] else [])
           pts.

(** The device [d] after [colour] has been stored in the cells [cs]. *)
Definition painted (d : device) (colour : Z) (cs : list nat) : device :=
  set_ar d (fill_cells colour cs (ar d)).

(** The coordinates handed to the clipped setter by [n] rounds of the loop
    of [drawLine], started in the given state. *)
Fixpoint line_points (n : nat) (steep : bool) (x0 y0 dx dy err ystep : Z)
  : list (Z * Z) :=
  match n with
  | O => []
  | S n' =>
      (if steep then (y0, x0) else (x0, y0))
      :: (let err := err - dy in
          let '(y0, err) :=
            if err <? 0 then (y0 + ystep, err + dx) else (y0, err) in
          line_points n' steep (x0 + 1) y0 dx dy err ystep)
  end.

(** The coordinates [drawLine] hands to the clipped setter, in order. *)
Definition drawLine_points (x0 y0 x1 y1 : Z) : list (Z * Z) :=
  let steep := Z.abs (y1 - y0) >? Z.abs (x1 - x0) in
  let '(x0, y0, x1, y1) :=
    if steep then (y0, x0, y1, x1) else (x0, y0, x1, y1) in
  let '(x0, y0, x1, y1) :=
    if x0 >? x1 then (x1, y1, x0, y0) else (x0, y0, x1, y1) in
  let dx := x1 - x0 in
  let dy := Z.abs (y1 - y0) in
  let err := Z.shiftr dx 1 in
  let ystep := if y0 <? y1 then 1 else -1 in
  line_points (Z.to_nat (x1 - x0 + 1)) steep x0 y0 dx dy err ystep.

(** The coordinates handed to the clipped setter by at most [n] rounds of
    the loop of [drawCircle], started in the given state. *)
Fixpoint circle_points (n : nat) (x0 y0 x y f ddf_x ddf_y : Z) : list (Z * Z) :=
  match n with
  | O => []
  | S n' =>
      if x <? y then
        let '(y, ddf_y, f) :=
          if f >=? 0 then (y - 1, ddf_y + 2, f + (ddf_y + 2)) else (y, ddf_y, f) in
        let x := x + 1 in
        let ddf_x := ddf_x + 2 in
        let f := f + ddf_x in
        [(x0 + x, y0 + y); (x0 - x, y0 + y); (x0 + x, y0 - y); (x0 - x, y0 - y);
         (x0 + y, y0 + x); (x0 - y, y0 + x); (x0 + y, y0 - x); (x0 - y, y0 - x)]
        ++ circle_points n' x0 y0 x y f ddf_x ddf_y
      else []
  end.

(** The coordinates [drawCircle] hands to the clipped setter, in order. *)
Definition drawCircle_points (n : nat) (x0 y0 r : Z) : list (Z * Z) :=
  [(x0, y0 + r); (x0, y0 - r); (x0 + r, y0); (x0 - r, y0)]
  ++ circle_points n x0 y0 0 r (1 - r) 1 (-2 * r).

(** What brightness [br] makes of a channel value at flush time. *)
Definition scaled (br channel : Z) : Z := channel * br / 256.

(** The earliest time at which the rate limiter lets the next frame go. *)
Definition deadline (d : device) : Z := lastFrame_ms d + 1000 / rateLimit d.

(** The n-th clock read from now on is the first one to reach the
    deadline. *)
Definition first_due (clock : nat -> Z) (d : device) (w : world) (n : nat) : Prop :=
  (forall k, (k < n)%nat -> clock (actions w + k)%nat < deadline d)
  /\ deadline d <= clock (actions w + n)%nat.

(** Time does not run backwards. *)
Definition monotone (clock : nat -> Z) : Prop :=
  forall i j, (i <= j)%nat -> clock i <= clock j.

(** The transport calls of a run, without their times. *)
Definition calls (w : world) : list call := snd <$> log w.

(** The words a flush sends for the buffer entry [c]: the scaled channels
    packed red-green-blue for the strip library, green-red-blue for the
    state machine. *)
Definition dimmedRGB (br c : Z) : Z :=
  rgb2GBColour (scaled br (red c)) (scaled br (green c)) (scaled br (blue c)).

Definition dimmedGRB (br c : Z) : Z :=
  rgb2GBColour (scaled br (green c)) (scaled br (red c)) (scaled br (blue c)).

(** The times at which a frame was handed over ([strip.show()]). *)
Definition show_times (w : world) : list Z :=
  flat_map (fun e => match snd e with show => [fst e] | _ => [] end) (log w).

(** Ten action times for two flushes of a two-LED strip: the first frame is
    stamped at 1000 and shown at 1099, the second is stamped and shown at
    1100. *)
Definition slow_then_fast (n : nat) : Z :=
  if (n <? 2)%nat then 1000
  else if (n <? 4)%nat then 1050
  else if (n <? 5)%nat then 1099
  else 1100.

(** A clock that advances by 100 ms from one action to the next. *)
Definition every_100ms (n : nat) : Z := 100 * Z.of_nat n.

(** ** Sample devices *)

(** A stick of two LEDs holding pure blue and pure green, at full
    brightness and 10 frames per second (a stick has no canvas: the matrix
    fields are unused). *)
Definition stick2 : device :=
  mkDevice Linux 2 0 0 0 remap4x4_method [0x0000FF; 0x00FF00] [0; 0] 255 10 0.

(** One 4x4 tile whose sixteen cells hold sixteen different colours. *)
Definition matrix4x4_one : device :=
  mkDevice rp2 16 4 4 0 remap4x4_method (seqZ 100 16) (seqZ 0 16) 20 30 0.

(** A chain of no 4x4 tile at all: the canvas has width 0. *)
Definition matrix4x4_none : device :=
  mkDevice rp2 0 0 4 0 remap4x4_method [] [] 20 30 0.

(** Two 8x8 tiles side by side, blank. *)
Definition matrix8x8_1x2 : device :=
  mkDevice rp2 128 16 8 2 remap8x8_method (replicate 128 0) (replicate 128 0) 20 30 0.

(** * Properties *)

(** ** Bit-level facts about packing *)

Section Packing.

Lemma lor_disjoint_add (hi lo n : Z) :
  0 <= n -> 0 <= lo < 2 ^ n ->
  Z.lor (Z.shiftl hi n) lo = hi * 2 ^ n + lo.
Proof.
  intros Hn Hlo.
  rewrite Z.shiftl_mul_pow2 by lia.
  assert (Hdisj : Z.land (hi * 2 ^ n) lo = 0).
  { apply Z.bits_inj'. intros k Hk.
    rewrite Z.land_spec, Z.bits_0.
    destruct (Z.lt_ge_cases k n) as [Hlt | Hge].
    - rewrite Z.mul_pow2_bits_low by lia. reflexivity.
    - destruct (Z.eq_dec lo 0) as [-> | Hne];
        [rewrite Z.bits_0; apply andb_false_r |].
      rewrite (Z.bits_above_log2 lo k); [apply andb_false_r | lia |].
      apply Z.lt_le_trans with n; [| lia].
      apply Z.log2_lt_pow2; lia. }
  rewrite <- Z.lxor_lor by exact Hdisj.
  symmetry. apply Z.add_nocarry_lxor. exact Hdisj.
Qed.

(** Packing three in-range channels is the positional sum. *)
Lemma rgb2GBColour_sum (r g b : Z) :
  0 <= g < 256 -> 0 <= b < 256 ->
  rgb2GBColour r g b = r * 65536 + g * 256 + b.
Proof.
  intros Hg Hb. unfold rgb2GBColour.
  assert (Hin : Z.lor (Z.shiftl r 16) (Z.shiftl g 8) = Z.shiftl (Z.lor (Z.shiftl r 8) g) 8).
  { rewrite Z.shiftl_lor, Z.shiftl_shiftl by lia. reflexivity. }
  rewrite Hin.
  rewrite (lor_disjoint_add _ b 8) by lia.
  rewrite (lor_disjoint_add r g 8) by lia.
  change (2 ^ 8) with 256. lia.
Qed.

(** The mask-and-shift of the source reads a byte of the number. *)
Lemma channel_div_mod (c k : Z) :
  0 <= k ->
  Z.shiftr (Z.land c (Z.shiftl 255 k)) k = (c / 2 ^ k) mod 256.
Proof.
  intros Hk.
  rewrite Z.shiftr_land, Z.shiftr_shiftl_l, Z.sub_diag, Z.shiftl_0_r by lia.
  change 255 with (Z.ones 8).
  rewrite Z.land_ones, Z.shiftr_div_pow2 by lia. reflexivity.
Qed.

Lemma red_div_mod c : red c = (c / 65536) mod 256.
Proof. exact (channel_div_mod c 16 ltac:(lia)). Qed.

Lemma green_div_mod c : green c = (c / 256) mod 256.
Proof. exact (channel_div_mod c 8 ltac:(lia)). Qed.

Lemma blue_div_mod c : blue c = c mod 256.
Proof.
  unfold blue, channels; simpl snd.
  change 255 with (Z.ones 8). rewrite Z.land_ones by lia. reflexivity.
Qed.

Lemma channels_by_name c :
  channels c = (red c, green c, blue c).
Proof. reflexivity. Qed.

End Packing.

(** ** Colour codec *)

Lemma unpack_pack (r g b : Z) :
  0 <= r < 256 -> 0 <= g < 256 -> 0 <= b < 256 ->
  channels (rgb2GBColour r g b) = (r, g, b).
Proof.
  intros Hr Hg Hb.
  rewrite channels_by_name, red_div_mod, green_div_mod, blue_div_mod.
  rewrite rgb2GBColour_sum by lia.
  repeat f_equal; Z.div_mod_to_equations; lia.
Qed.

(** The return statement closes a bracket it never opened: the fifth
    closing bracket, the last character of the line, meets an empty
    stack. *)
Lemma glowbitColour2RGB_return_unmatched :
  match_brackets [] glowbitColour2RGB_return = Raise SyntaxError.
Proof. reflexivity. Qed.

(** A statement with its brackets in order passes, here the return
    statement of rgb2GBColour. *)
Example rgb2GBColour_return_matched :
  match_brackets [] "return ( (r<<16) | (g<<8) | b )" = Ok tt.
Proof. reflexivity. Qed.

(** C4: the round trip glowbitColour2RGB (rgb2GBColour r g b) = (r, g, b)
    does not take place.  For the triple (18, 52, 86) the three expressions
    of the return statement are the three channels packed, as the claim
    has it, but the statement closes one bracket more than it opens: the
    compiler refuses it, and glowbitColour2RGB returns no triple for any
    colour. *)
Theorem rgb_roundtrip_raises :
  glowbitColour2RGB (rgb2GBColour 18 52 86) = Raise SyntaxError
  /\ channels (rgb2GBColour 18 52 86) = (18, 52, 86)
  /\ forall colour rgb, glowbitColour2RGB colour <> Ok rgb.
Proof.
  split; [| split].
  - unfold glowbitColour2RGB.
    rewrite glowbitColour2RGB_return_unmatched. reflexivity.
  - apply unpack_pack; lia.
  - intros colour rgb. unfold glowbitColour2RGB.
    rewrite glowbitColour2RGB_return_unmatched. discriminate.
Qed.

Lemma wheel_mod (pos : Z) : wheel pos = wheel (pos mod 255).
Proof. unfold wheel. rewrite Z.mod_mod by lia. reflexivity. Qed.

Lemma wheel_succ_mod (pos : Z) : wheel (pos + 1) = wheel (pos mod 255 + 1).
Proof.
  rewrite (wheel_mod (pos + 1)), (wheel_mod (pos mod 255 + 1)).
  f_equal. rewrite Z.add_mod_idemp_l by lia. reflexivity.
Qed.

(** One position of the wheel moves no channel by more than 3, the slope of
    the three ramps; checked on a full period. *)
Lemma wheel_period_gap :
  forallb (fun p => channel_gap (wheel p) (wheel (p + 1)) <=? 3) (seqZ 0 255) = true.
Proof. vm_compute. reflexivity. Qed.

Lemma wheel_step_gap (pos : Z) : channel_gap (wheel pos) (wheel (pos + 1)) <= 3.
Proof.
  rewrite (wheel_mod pos), wheel_succ_mod.
  assert (Hp : 0 <= pos mod 255 < 255) by (apply Z.mod_pos_bound; lia).
  pose proof wheel_period_gap as Hall.
  rewrite forallb_forall in Hall.
  apply Z.leb_le, Hall.
  apply list_elem_of_In, elem_of_seqZ. lia.
Qed.

(** C7: wheel 0 = wheel 255, and the ramps join at 85 and 170 without a
    jump: from 84 to 85 and from 169 to 170 no channel moves by more than
    the step of 3 that every other position makes. *)
Theorem wheel_continuity :
  wheel 0 = wheel 255
  /\ channel_gap (wheel 84) (wheel 85) <= 3
  /\ channel_gap (wheel 169) (wheel 170) <= 3
  /\ (forall pos, channel_gap (wheel pos) (wheel (pos + 1)) <= 3).
Proof.
  split; [reflexivity |].
  split; [exact (wheel_step_gap 84) |].
  split; [exact (wheel_step_gap 169) |].
  exact wheel_step_gap.
Qed.

(** The values on both sides of the two joints and of the wrap. *)
Example wheel_joints :
  channels (wheel 84) = (3, 252, 0)
  /\ channels (wheel 85) = (0, 255, 0)
  /\ channels (wheel 169) = (0, 3, 252)
  /\ channels (wheel 170) = (0, 0, 255)
  /\ channels (wheel 254) = (252, 0, 3)
  /\ channels (wheel 255) = (255, 0, 0).
Proof. repeat split. Qed.

(** ** Pixel buffer *)

Lemma array_index_in_range (len : nat) (i : Z) :
  0 <= i < Z.of_nat len -> array_index len i = Ok (Z.to_nat i).
Proof.
  intros H. unfold array_index.
  destruct (Z.leb_spec 0 i), (Z.ltb_spec i (Z.of_nat len)); simpl; try lia.
  reflexivity.
Qed.

Lemma array_set_in_range (a : list Z) (i v : Z) :
  0 <= i < Z.of_nat (length a) -> 0 <= v < 2 ^ 32 ->
  array_set a i v = Ok (<[Z.to_nat i := v]> a).
Proof.
  intros Hi Hv. unfold array_set.
  rewrite array_index_in_range by exact Hi. simpl.
  destruct (Z.leb_spec 0 v), (Z.ltb_spec v (2 ^ 32)); simpl; try lia.
  reflexivity.
Qed.

Lemma array_get_in_range (a : list Z) (i v : Z) :
  0 <= i < Z.of_nat (length a) -> a !! Z.to_nat i = Some v ->
  array_get a i = Ok v.
Proof.
  intros Hi Hv. unfold array_get.
  rewrite array_index_in_range by exact Hi. simpl.
  rewrite Hv. reflexivity.
Qed.

(** A carry out of the byte at bit [k]: when the two bytes sum to 256 and
    nothing is carried in from below, the byte of the sum is 0 and
    everything above it is one more than the sum of the parts above. *)
Lemma byte_carry (k u v : Z) :
  0 <= k ->
  (u / 2 ^ k) mod 256 + (v / 2 ^ k) mod 256 = 256 ->
  u mod 2 ^ k + v mod 2 ^ k < 2 ^ k ->
  ((u + v) / 2 ^ k) mod 256 = 0
  /\ (u + v) / 2 ^ (k + 8) = u / 2 ^ (k + 8) + v / 2 ^ (k + 8) + 1.
Proof.
  intros Hk Hsum Hlow.
  assert (Hp : 0 < 2 ^ k) by (apply Z.pow_pos_nonneg; lia).
  rewrite Z.pow_add_r by lia. change (2 ^ 8) with 256.
  rewrite <- !Z.div_div by lia.
  assert (Hdiv : (u + v) / 2 ^ k = u / 2 ^ k + v / 2 ^ k).
  { pose proof (Z.div_mod u (2 ^ k) ltac:(lia)) as Hu.
    pose proof (Z.div_mod v (2 ^ k) ltac:(lia)) as Hv.
    pose proof (Z.mod_pos_bound u (2 ^ k) Hp) as Bu.
    pose proof (Z.mod_pos_bound v (2 ^ k) Hp) as Bv.
    symmetry. apply (Z.div_unique_pos _ _ _ (u mod 2 ^ k + v mod 2 ^ k)); lia. }
  rewrite Hdiv.
  generalize dependent (u / 2 ^ k). generalize dependent (v / 2 ^ k).
  intros q1 q2 Hsum _. Z.div_mod_to_equations. lia.
Qed.

(** C6: for an in-range index, pixelAdd stores the plain integer sum of the
    old cell and the colour; channels do not saturate: a blue sum of 256
    leaves blue at 0 and adds one at green's bit position, and a green sum
    of 256 (with no carry from blue) leaves green at 0 and adds one at
    red's bit position. *)
Theorem pixelAdd_raw_sum (d : device) (i colour v : Z) :
  0 <= i < Z.of_nat (length (ar d)) ->
  ar d !! Z.to_nat i = Some v ->
  0 <= v + colour < 2 ^ 32 ->
  glowbit.pixelAdd d i colour = Ok (set_ar d (<[Z.to_nat i := v + colour]> (ar d)))
  /\ (blue v + blue colour = 256 ->
      blue (v + colour) = 0
      /\ Z.shiftr (v + colour) 8 = Z.shiftr v 8 + Z.shiftr colour 8 + 1)
  /\ (green v + green colour = 256 -> blue v + blue colour < 256 ->
      green (v + colour) = 0
      /\ Z.shiftr (v + colour) 16 = Z.shiftr v 16 + Z.shiftr colour 16 + 1).
Proof.
  intros Hi Hv Hsum. split; [| split].
  - unfold glowbit.pixelAdd.
    rewrite (array_get_in_range _ _ _ Hi Hv). simpl.
    rewrite (array_set_in_range _ _ _ Hi Hsum). reflexivity.
  - rewrite !blue_div_mod, !Z.shiftr_div_pow2 by lia. intros Hb.
    destruct (byte_carry 0 v colour) as [H0 H1]; try lia.
    + change (2 ^ 0) with 1. rewrite !Z.div_1_r. exact Hb.
    + change (2 ^ 0) with 1. rewrite !Z.mod_1_r. lia.
    + change (2 ^ 0) with 1 in H0. rewrite Z.div_1_r in H0.
      split; [exact H0 | exact H1].
  - rewrite !green_div_mod, !blue_div_mod, !Z.shiftr_div_pow2 by lia.
    intros Hg Hb.
    destruct (byte_carry 8 v colour) as [H0 H1]; try lia.
    + exact Hg.
    + exact Hb.
    + split; [exact H0 | exact H1].
Qed.

Lemma pixelAdd_raw_sum_witness :
  glowbit.pixelAdd stick2 0 1 = Ok (set_ar stick2 (<[0%nat := 0xFF + 1]> (ar stick2)))
  /\ (blue 0xFF + blue 1 = 256 ->
      blue (0xFF + 1) = 0
      /\ Z.shiftr (0xFF + 1) 8 = Z.shiftr 0xFF 8 + Z.shiftr 1 8 + 1)
  /\ (green 0xFF + green 1 = 256 -> blue 0xFF + blue 1 < 256 ->
      green (0xFF + 1) = 0
      /\ Z.shiftr (0xFF + 1) 16 = Z.shiftr 0xFF 16 + Z.shiftr 1 16 + 1).
Proof.
  apply (pixelAdd_raw_sum stick2 0 1 0xFF).
  - simpl. lia.
  - reflexivity.
  - lia.
Defined.

(** ** Coordinate remapping *)

Import matrix4x4 matrix8x8.

(** The shape of every address: 64 times the tile's place in the chain,
    plus the row-major offset inside the tile. *)
Lemma remap8x8_shape (tileCols x y : Z) :
  remap8x8 tileCols x y =
    64 * ((y / 8) * tileCols
          + (if Z.even (y / 8) then x / 8 else tileCols - x / 8 - 1))
    + (8 * (y mod 8) + x mod 8).
Proof.
  unfold remap8x8.
  rewrite (Zmod_even (y / 8)).
  destruct (Z.even (y / 8)); reflexivity.
Qed.

Lemma tile_coordinates (t l : Z) :
  0 <= l < 8 -> (8 * t + l) / 8 = t /\ (8 * t + l) mod 8 = l.
Proof. intros Hl. Z.div_mod_to_equations. lia. Qed.

(** C2: with tileRows = 1 and tileCols = 2, remap(0,0) = 0, remap(7,0) = 7
    and remap(8,0) = 64.  In general the tile in tile-row tr and tile-column
    tc owns 64 consecutive addresses, reached row-major ([8*ly + lx], which
    is [8*(y mod 8) + x mod 8]); the blocks of an even tile-row follow the
    tile-columns from left to right, those of an odd tile-row from right to
    left. *)
Theorem remap8x8_layout :
  (remap8x8 2 0 0 = 0 /\ remap8x8 2 7 0 = 7 /\ remap8x8 2 8 0 = 64)
  /\ (forall tileCols tr tc lx ly,
        0 <= lx < 8 -> 0 <= ly < 8 ->
        remap8x8 tileCols (8 * tc + lx) (8 * tr + ly)
        = remap8x8 tileCols (8 * tc) (8 * tr) + (8 * ly + lx))
  /\ (forall tileCols x y,
        remap8x8 tileCols x y mod 64 = 8 * (y mod 8) + x mod 8)
  /\ (forall tileCols tr tc,
        Z.even tr = true ->
        remap8x8 tileCols (8 * tc) (8 * tr) = 64 * (tr * tileCols + tc))
  /\ (forall tileCols tr tc,
        Z.even tr = false ->
        remap8x8 tileCols (8 * tc) (8 * tr) = 64 * (tr * tileCols + (tileCols - 1 - tc))).
Proof.
  split; [repeat split |].
  split; [| split; [| split]].
  - intros tileCols tr tc lx ly Hlx Hly.
    rewrite !remap8x8_shape.
    destruct (tile_coordinates tc lx Hlx) as [-> ->].
    destruct (tile_coordinates tr ly Hly) as [-> ->].
    destruct (tile_coordinates tc 0 ltac:(lia)) as [Hd Hm].
    destruct (tile_coordinates tr 0 ltac:(lia)) as [Hd' Hm'].
    rewrite Z.add_0_r in Hd, Hm, Hd', Hm'.
    rewrite Hd, Hm, Hd', Hm'. lia.
  - intros tileCols x y. rewrite remap8x8_shape.
    pose proof (Z.mod_pos_bound x 8 ltac:(lia)).
    pose proof (Z.mod_pos_bound y 8 ltac:(lia)).
    match goal with
    | |- (64 * ?k + ?o) mod 64 = _ =>
        replace (64 * k + o) with (o + k * 64) by lia
    end.
    rewrite Z.mod_add by lia. apply Z.mod_small. lia.
  - intros tileCols tr tc Hev. rewrite remap8x8_shape.
    destruct (tile_coordinates tc 0 ltac:(lia)) as [Hd Hm].
    destruct (tile_coordinates tr 0 ltac:(lia)) as [Hd' Hm'].
    rewrite Z.add_0_r in Hd, Hm, Hd', Hm'.
    rewrite Hd, Hm, Hd', Hm', Hev. lia.
  - intros tileCols tr tc Hev. rewrite remap8x8_shape.
    destruct (tile_coordinates tc 0 ltac:(lia)) as [Hd Hm].
    destruct (tile_coordinates tr 0 ltac:(lia)) as [Hd' Hm'].
    rewrite Z.add_0_r in Hd, Hm, Hd', Hm'.
    rewrite Hd, Hm, Hd', Hm', Hev. lia.
Qed.

Lemma remap8x8_layout_witness :
  remap8x8 2 (8 * 1 + 3) (8 * 1 + 2) = remap8x8 2 (8 * 1) (8 * 1) + (8 * 2 + 3)
  /\ remap8x8 2 (8 * 1) (8 * 0) = 64 * (0 * 2 + 1)
  /\ remap8x8 2 (8 * 0) (8 * 1) = 64 * (1 * 2 + (2 - 1 - 0)).
Proof.
  destruct remap8x8_layout as (_ & Hblock & _ & Heven & Hodd).
  split; [apply Hblock; lia |].
  split; [apply Heven; reflexivity | apply Hodd; reflexivity].
Defined.

(** ** 2D setters *)

Import glowbitMatrix.

Lemma is_matrix4x4_canvas_ok (tiles : Z) (d : device) :
  is_matrix4x4 tiles d -> canvas_ok d.
Proof.
  intros (Ht & Hn & HX & HY & Hr & Hlen).
  unfold canvas_ok. rewrite HX, HY, Hlen, Hn.
  split; [lia |]. split; [lia |].
  intros x y Hx Hy. unfold call_remap. rewrite Hr. unfold remap4x4.
  Z.div_mod_to_equations. lia.
Qed.

Lemma is_matrix8x8_canvas_ok (tileRows tileCols' : Z) (d : device) :
  is_matrix8x8 tileRows tileCols' d -> canvas_ok d.
Proof.
  intros (Htr & Htc & Hc & Hn & HX & HY & Hr & Hlen).
  unfold canvas_ok. rewrite HX, HY, Hlen, Hn.
  split; [lia |]. split; [lia |].
  intros x y Hx Hy. unfold call_remap. rewrite Hr, Hc, remap8x8_shape.
  assert (Hxq : 0 <= x / 8 < tileCols') by (Z.div_mod_to_equations; lia).
  assert (Hyq : 0 <= y / 8 < tileRows) by (Z.div_mod_to_equations; lia).
  pose proof (Z.mod_pos_bound x 8 ltac:(lia)).
  pose proof (Z.mod_pos_bound y 8 ltac:(lia)).
  assert (Hk : 0 <= (if Z.even (y / 8) then x / 8 else tileCols' - x / 8 - 1) < tileCols')
    by (destruct (Z.even (y / 8)); lia).
  revert Hk. generalize (if Z.even (y / 8) then x / 8 else tileCols' - x / 8 - 1).
  intros k Hk. nia.
Qed.

Lemma canvas_ok_set_ar (d : device) (a : list Z) :
  canvas_ok d -> length a = length (ar d) -> canvas_ok (set_ar d a).
Proof.
  intros (HX & HY & Hin) Hlen. unfold canvas_ok. simpl.
  rewrite Hlen. split; [exact HX |]. split; [exact HY |]. exact Hin.
Qed.

Lemma wrapped_cell_in_buffer (d : device) (x y : Z) :
  canvas_ok d ->
  0 <= call_remap d (x mod numLEDsX d) (y mod numLEDsY d) < Z.of_nat (length (ar d)).
Proof.
  intros (HX & HY & Hin).
  apply Hin; apply Z.mod_pos_bound; assumption.
Qed.

Lemma pixelSetXY_wraps (d : device) (x y colour : Z) :
  canvas_ok d -> 0 <= colour < 2 ^ 32 ->
  pixelSetXY d x y colour = Ok (set_ar d (<[wrapped_cell d x y := colour]> (ar d))).
Proof.
  intros Hok Hc. pose proof (wrapped_cell_in_buffer d x y Hok) as Hin.
  destruct Hok as (HX & HY & _).
  unfold pixelSetXY, py_mod.
  destruct (Z.eqb_spec (numLEDsX d) 0); [lia |].
  destruct (Z.eqb_spec (numLEDsY d) 0); [lia |]. simpl.
  rewrite array_set_in_range by assumption. reflexivity.
Qed.

Lemma pixelSetXYClip_outside (d : device) (x y colour : Z) :
  ~ (0 <= x < numLEDsX d /\ 0 <= y < numLEDsY d) ->
  pixelSetXYClip d x y colour = Ok d.
Proof.
  intros Hout. unfold pixelSetXYClip.
  destruct (Z.leb_spec 0 x), (Z.leb_spec 0 y),
    (Z.ltb_spec x (numLEDsX d)), (Z.ltb_spec y (numLEDsY d));
    simpl; try reflexivity.
  exfalso. apply Hout. lia.
Qed.

(** C5: at any coordinate outside the canvas the clipped setter changes
    nothing; at any integer coordinate, negative ones included, the
    wrapping setter stores the colour in the cell of (x mod numLEDsX,
    y mod numLEDsY), which lies on the canvas and in the buffer. *)
Theorem setters_clip_and_wrap :
  (forall d x y colour,
      ~ (0 <= x < numLEDsX d /\ 0 <= y < numLEDsY d) ->
      pixelSetXYClip d x y colour = Ok d)
  /\ (forall d x y colour,
        canvas_ok d -> 0 <= colour < 2 ^ 32 ->
        0 <= x mod numLEDsX d < numLEDsX d
        /\ 0 <= y mod numLEDsY d < numLEDsY d
        /\ (cell d (x mod numLEDsX d) (y mod numLEDsY d) < length (ar d))%nat
        /\ pixelSetXY d x y colour
           = Ok (set_ar d (<[cell d (x mod numLEDsX d) (y mod numLEDsY d) := colour]> (ar d)))).
Proof.
  split; [exact pixelSetXYClip_outside |].
  intros d x y colour Hok Hc.
  pose proof (wrapped_cell_in_buffer d x y Hok) as Hin.
  pose proof (pixelSetXY_wraps d x y colour Hok Hc) as Hset.
  destruct Hok as (HX & HY & _).
  split; [apply Z.mod_pos_bound; exact HX |].
  split; [apply Z.mod_pos_bound; exact HY |].
  split; [unfold cell; lia | exact Hset].
Qed.

Lemma matrix8x8_1x2_geometry : is_matrix8x8 1 2 matrix8x8_1x2.
Proof. unfold is_matrix8x8. repeat split; try reflexivity; lia. Qed.

Lemma matrix4x4_one_geometry : is_matrix4x4 1 matrix4x4_one.
Proof. unfold is_matrix4x4. repeat split; try reflexivity; lia. Qed.

Lemma setters_clip_and_wrap_witness :
  pixelSetXYClip matrix8x8_1x2 16 0 0xFF0000 = Ok matrix8x8_1x2
  /\ pixelSetXY matrix8x8_1x2 (-1) 9 0xFF0000
     = Ok (set_ar matrix8x8_1x2 (<[79%nat := 0xFF0000]> (ar matrix8x8_1x2))).
Proof.
  destruct setters_clip_and_wrap as [Hclip Hwrap].
  split.
  - apply Hclip. simpl. lia.
  - destruct (Hwrap matrix8x8_1x2 (-1) 9 0xFF0000) as (_ & _ & _ & Hset).
    + exact (is_matrix8x8_canvas_ok 1 2 _ matrix8x8_1x2_geometry).
    + lia.
    + exact Hset.
Defined.

(** ** Filled rectangles *)

Lemma set_ar_same (d : device) : set_ar d (ar d) = d.
Proof. destruct d. reflexivity. Qed.

Lemma ar_set_ar (d : device) (a : list Z) : ar (set_ar d a) = a.
Proof. reflexivity. Qed.

Lemma fill_cells_app (colour : Z) (cs cs' : list nat) (a : list Z) :
  fill_cells colour (cs ++ cs') a = fill_cells colour cs' (fill_cells colour cs a).
Proof. unfold fill_cells. apply foldl_app. Qed.

Lemma fill_cells_length (colour : Z) (cs : list nat) (a : list Z) :
  length (fill_cells colour cs a) = length a.
Proof.
  revert a. induction cs as [| c cs IH]; intros a; simpl; [reflexivity |].
  rewrite IH. apply length_insert.
Qed.

Lemma fill_cells_untouched (colour : Z) (cs : list nat) (a : list Z) (i : nat) :
  ~ In i cs -> fill_cells colour cs a !! i = a !! i.
Proof.
  revert a. induction cs as [| c cs IH]; intros a Hnot; simpl; [reflexivity |].
  rewrite IH by (intros Hin; apply Hnot; right; exact Hin).
  apply list_lookup_insert_ne. intros ->. apply Hnot. left. reflexivity.
Qed.

Lemma fill_cells_written (colour : Z) (cs : list nat) (a : list Z) (i : nat) :
  In i cs -> (i < length a)%nat -> fill_cells colour cs a !! i = Some colour.
Proof.
  revert a. induction cs as [| c cs IH]; intros a Hin Hlen; [destruct Hin |].
  simpl. destruct (in_dec Nat.eq_dec i cs) as [Hlater | Hlast].
  - apply IH; [exact Hlater | rewrite length_insert; exact Hlen].
  - rewrite fill_cells_untouched by exact Hlast.
    destruct Hin as [-> | Hin]; [| contradiction].
    apply list_lookup_insert_eq. exact Hlen.
Qed.

(** The inner loop: one column of wrapping writes. *)
Lemma fill_column (colour x : Z) (ys : list Z) (d : device) :
  canvas_ok d -> 0 <= colour < 2 ^ 32 ->
  for_each ys (fun y d'' => pixelSetXY d'' x y colour) d
  = Ok (set_ar d (fill_cells colour (map (wrapped_cell d x) ys) (ar d))).
Proof.
  intros Hok Hc. revert d Hok.
  induction ys as [| y ys IH]; intros d Hok; simpl.
  - rewrite set_ar_same. reflexivity.
  - rewrite pixelSetXY_wraps by assumption. simpl.
    rewrite IH; [reflexivity |].
    apply canvas_ok_set_ar; [exact Hok | apply length_insert].
Qed.

(** Both loops: the buffer after the fill is the old one with the colour
    stored in the wrapped cell of every coordinate of the rectangle. *)
Lemma drawRectangleFill_writes (d : device) (x0 y0 x1 y1 colour : Z) :
  canvas_ok d -> 0 <= colour < 2 ^ 32 ->
  drawRectangleFill d x0 y0 x1 y1 colour
  = Ok (set_ar d (fill_cells colour (rect_cells d x0 y0 x1 y1) (ar d))).
Proof.
  intros Hok Hc. unfold drawRectangleFill, rect_cells.
  generalize (range x0 (x1 + 1)) as xs. generalize (range y0 (y1 + 1)) as ys.
  intros ys xs. revert d Hok.
  induction xs as [| x xs IH]; intros d Hok; simpl.
  - rewrite set_ar_same. reflexivity.
  - rewrite fill_column by assumption. simpl.
    rewrite IH.
    + rewrite fill_cells_app. reflexivity.
    + apply canvas_ok_set_ar; [exact Hok | apply fill_cells_length].
Qed.

(** C8: on one 4x4 tile, drawRectangleFill(0,0,2,2,colour) leaves the
    colour in the nine cells with x and y in [0,2] and every other cell as
    it was (the sixteen canvas cells are the sixteen buffer cells).  The
    writes go through the wrapping setter: a rectangle of the single
    coordinate (x, y), on the canvas or off it, is pixelSetXY at (x, y); at
    (4,4) that writes cell 0, where the clipped setter writes nothing. *)
Theorem drawRectangleFill_4x4 (d : device) (colour : Z) :
  is_matrix4x4 1 d -> 0 <= colour < 2 ^ 32 ->
  (exists d',
      drawRectangleFill d 0 0 2 2 colour = Ok d'
      /\ length (ar d') = length (ar d)
      /\ forall x y, 0 <= x < 4 -> 0 <= y < 4 ->
           cell d x y = Z.to_nat (4 * y + x)
           /\ ar d' !! cell d x y
              = if (x <=? 2) && (y <=? 2) then Some colour else ar d !! cell d x y)
  /\ (forall x y, drawRectangleFill d x y x y colour = pixelSetXY d x y colour)
  /\ drawRectangleFill d 4 4 4 4 colour = Ok (set_ar d (<[0%nat := colour]> (ar d)))
  /\ pixelSetXYClip d 4 4 colour = Ok d.
Proof.
  intros Hgeo Hc.
  pose proof (is_matrix4x4_canvas_ok 1 d Hgeo) as Hok.
  destruct Hgeo as (_ & Hn & HX & HY & Hr & Hlen).
  assert (Hlen16 : length (ar d) = 16%nat) by lia.
  assert (Hcells : rect_cells d 0 0 2 2 = [0; 4; 8; 1; 5; 9; 2; 6; 10]%nat).
  { unfold rect_cells, wrapped_cell, cell, call_remap.
    rewrite HX, HY, Hr. reflexivity. }
  split; [| split; [| split]].
  - exists (set_ar d (fill_cells colour (rect_cells d 0 0 2 2) (ar d))).
    split; [apply drawRectangleFill_writes; assumption |].
    rewrite ar_set_ar. split; [apply fill_cells_length |].
    intros x y Hx Hy.
    assert (Hcell : cell d x y = Z.to_nat (4 * y + x)).
    { unfold cell, call_remap. rewrite Hr. unfold remap4x4.
      f_equal. Z.div_mod_to_equations. lia. }
    split; [exact Hcell |].
    rewrite Hcell, Hcells.
    destruct (Z.leb_spec x 2), (Z.leb_spec y 2); cbn [andb].
    + apply fill_cells_written; [simpl; lia | lia].
    + apply fill_cells_untouched. simpl. lia.
    + apply fill_cells_untouched. simpl. lia.
    + apply fill_cells_untouched. simpl. lia.
  - intros x y. unfold drawRectangleFill, range.
    replace (x + 1 - x) with 1 by lia. replace (y + 1 - y) with 1 by lia.
    change (seqZ x 1) with [x]. change (seqZ y 1) with [y]. simpl.
    destruct (pixelSetXY d x y colour); reflexivity.
  - rewrite drawRectangleFill_writes by assumption.
    unfold rect_cells, wrapped_cell, cell, call_remap.
    rewrite HX, HY, Hr. reflexivity.
  - apply pixelSetXYClip_outside. lia.
Qed.

Lemma drawRectangleFill_4x4_witness :
  exists d',
    drawRectangleFill matrix4x4_one 0 0 2 2 0x00FF00 = Ok d'
    /\ ar d' !! cell matrix4x4_one 2 2 = Some 0x00FF00
    /\ ar d' !! cell matrix4x4_one 3 2 = Some 111.
Proof.
  destruct (drawRectangleFill_4x4 matrix4x4_one 0x00FF00) as [(d' & Hrun & _ & Hcells) _].
  - exact matrix4x4_one_geometry.
  - lia.
  - exists d'. split; [exact Hrun |].
    split.
    + exact (proj2 (Hcells 2 2 ltac:(lia) ltac:(lia))).
    + exact (proj2 (Hcells 3 2 ltac:(lia) ltac:(lia))).
Defined.

(** ** Graph configuration *)

(** Whatever the other arguments, a direction that is none of the four
    names ends with orientation 1 and increment 1, the pair the constructor
    assigns for "Down". *)
Lemma graph1D_fallback_fields
  (oX oY len : Z) (direction : string) (lo hi col : Z)
  (cm : graph1D.colourMapArg) (upd : bool) (g : graph1D.t) (printed : list string) :
  direction <> "Up"%string -> direction <> "Down"%string ->
  direction <> "Left"%string -> direction <> "Right"%string ->
  graph1D.init oX oY len direction lo hi col cm upd = Ok (g, printed) ->
  graph1D.orientation g = 1 /\ graph1D.inc g = 1
  /\ printed = graph1D.diagnostic direction.
Proof.
  intros HU HD HL HR. unfold graph1D.init.
  apply String.eqb_neq in HU, HD, HL, HR. rewrite HU, HD, HL, HR. simpl.
  destruct (hi - lo =? 0); [discriminate |].
  intros Heq. injection Heq as <- <-. repeat split.
Qed.

(** C9, evaluated on the code: with the direction "Sideways" the
    constructor returns without raising and prints its three lines, the last
    of which is "Defaulting to Up"; the object has orientation 1 like "Up"
    but increment 1, where "Up" has -1: it is the object built for "Down". *)
Theorem graph1D_unknown_direction :
  exists g gUp gDown,
    graph1D.init 0 7 8 "Sideways" 0 255 0xFFFFFF (graph1D.byName "Solid") false
    = Ok (g, graph1D.diagnostic "Sideways")
    /\ last (graph1D.diagnostic "Sideways") = Some "Defaulting to Up"%string
    /\ graph1D.init 0 7 8 "Up" 0 255 0xFFFFFF (graph1D.byName "Solid") false
       = Ok (gUp, [])
    /\ graph1D.init 0 7 8 "Down" 0 255 0xFFFFFF (graph1D.byName "Solid") false
       = Ok (gDown, [])
    /\ graph1D.orientation g = graph1D.orientation gUp
    /\ graph1D.inc gUp = -1
    /\ graph1D.inc g = 1
    /\ g = gDown.
Proof.
  do 3 eexists. repeat split.
Qed.

(** ** Reading a pixel by coordinate *)

(** C10: whatever the device and the coordinate, getPixelXY raises (the
    bare name [remap] is bound nowhere) and so never returns a colour. *)
Theorem getPixelXY_raises (d : device) (x y : Z) :
  getPixelXY d x y = Raise (NameError "remap")
  /\ forall colour, getPixelXY d x y <> Ok colour.
Proof.
  split; [reflexivity |].
  intros colour. discriminate.
Qed.

(** ** Rate limiter *)

Section RateLimiter.

Variable clock : nat -> Z.

Lemma py_floordiv_nonzero (a b : Z) : b <> 0 -> py_floordiv a b = Ok (a / b).
Proof.
  intros Hb. unfold py_floordiv.
  destruct (Z.eqb_spec b 0); [contradiction | reflexivity].
Qed.

(** While the clock stays below the deadline the wait goes on. *)
Lemma syncWait_blocks (fuel : nat) (d : device) (w : world) :
  rateLimit d <> 0 ->
  (forall k, (k < fuel)%nat -> clock (actions w + k)%nat < deadline d) ->
  syncWait clock fuel d w = None.
Proof.
  intros Hr. revert w. induction fuel as [| fuel IH]; intros w Hlow; [reflexivity |].
  simpl. rewrite py_floordiv_nonzero by exact Hr.
  pose proof (Hlow 0%nat ltac:(lia)) as H0. rewrite Nat.add_0_r in H0.
  unfold deadline in H0.
  destruct (Z.ltb_spec (clock (actions w)) (lastFrame_ms d + 1000 / rateLimit d));
    [| lia].
  apply IH. cbn [actions]. intros k Hk.
  replace (S (actions w) + k)%nat with (actions w + S k)%nat by lia.
  apply Hlow. lia.
Qed.

(** At the first read that reaches the deadline the wait ends, and one
    more read gives the new stamp. *)
Lemma syncWait_returns (n fuel : nat) (d : device) (w : world) :
  rateLimit d <> 0 ->
  first_due clock d w n ->
  (n < fuel)%nat ->
  syncWait clock fuel d w
  = Some (Ok (set_lastFrame_ms d (clock (actions w + n + 1)%nat),
              mkWorld (actions w + n + 2) (log w))).
Proof.
  intros Hr. revert fuel w.
  induction n as [| n IH]; intros fuel w [Hlow Hdue] Hfuel;
    (destruct fuel as [| fuel]; [lia |]); simpl;
    rewrite py_floordiv_nonzero by exact Hr; unfold deadline in *.
  - rewrite Nat.add_0_r in *.
    destruct (Z.ltb_spec (clock (actions w)) (lastFrame_ms d + 1000 / rateLimit d));
      [lia |].
    replace (S (S (actions w))) with (actions w + 2)%nat by lia.
    replace (S (actions w)) with (actions w + 1)%nat by lia.
    reflexivity.
  - pose proof (Hlow 0%nat ltac:(lia)) as H0. rewrite Nat.add_0_r in H0.
    destruct (Z.ltb_spec (clock (actions w)) (lastFrame_ms d + 1000 / rateLimit d));
      [| lia].
    rewrite IH; [| | lia].
    + cbn [actions log].
      replace (S (actions w) + n + 1)%nat with (actions w + S n + 1)%nat by lia.
      replace (S (actions w) + n + 2)%nat with (actions w + S n + 2)%nat by lia.
      reflexivity.
    + unfold first_due, deadline. cbn [actions]. split.
      * intros k Hk.
        replace (S (actions w) + k)%nat with (actions w + S k)%nat by lia.
        apply Hlow. lia.
      * replace (S (actions w) + n)%nat with (actions w + S n)%nat by lia.
        exact Hdue.
Qed.

(** A wait that returned did so at such a first read. *)
Lemma syncWait_inv (fuel : nat) (d d' : device) (w w' : world) :
  syncWait clock fuel d w = Some (Ok (d', w')) ->
  exists n,
    (n < fuel)%nat /\ rateLimit d <> 0 /\ first_due clock d w n
    /\ d' = set_lastFrame_ms d (clock (actions w + n + 1)%nat)
    /\ w' = mkWorld (actions w + n + 2) (log w).
Proof.
  revert w. induction fuel as [| fuel IH]; intros w; simpl; [discriminate |].
  unfold py_floordiv. destruct (Z.eqb_spec (rateLimit d) 0) as [| Hr]; [discriminate |].
  destruct (Z.ltb_spec (clock (actions w)) (lastFrame_ms d + 1000 / rateLimit d))
    as [Hlt | Hge].
  - intros Hrun. destruct (IH _ Hrun) as (n & Hn & _ & [Hlow Hdue] & -> & ->).
    cbn [actions log] in *. exists (S n). split; [lia |]. split; [exact Hr |].
    split; [split |].
    + intros [| k] Hk.
      * rewrite Nat.add_0_r. exact Hlt.
      * replace (actions w + S k)%nat with (S (actions w) + k)%nat by lia.
        apply Hlow. lia.
    + replace (actions w + S n)%nat with (S (actions w) + n)%nat by lia. exact Hdue.
    + split; [do 2 f_equal; lia | f_equal; lia].
  - intros Hrun. injection Hrun as <- <-.
    exists 0%nat. split; [lia |]. split; [exact Hr |].
    split; [split |].
    + intros k Hk. lia.
    + rewrite Nat.add_0_r. exact Hge.
    + cbn [actions log]. split; [do 2 f_equal; lia | f_equal; lia].
Qed.

(** Among the first [n] reads, either none reaches the deadline or one of
    them is the first to reach it. *)
Lemma first_due_search (d : device) (w : world) (n : nat) :
  (forall k, (k < n)%nat -> clock (actions w + k)%nat < deadline d)
  \/ exists m, (m < n)%nat /\ first_due clock d w m.
Proof.
  induction n as [| n [Hall | (m & Hm & Hfirst)]].
  - left. intros k Hk. lia.
  - destruct (Z.lt_ge_cases (clock (actions w + n)%nat) (deadline d)) as [Hlt | Hge].
    + left. intros k Hk.
      destruct (Nat.eq_dec k n) as [-> | Hne]; [exact Hlt | apply Hall; lia].
    + right. exists n. split; [lia |]. split; assumption.
  - right. exists m. split; [lia | exact Hfirst].
Qed.

(** If some read reaches the deadline, some read is the first to do so. *)
Lemma first_due_exists (d : device) (w : world) (n : nat) :
  deadline d <= clock (actions w + n)%nat ->
  exists m, (m <= n)%nat /\ first_due clock d w m.
Proof.
  intros Hdue. destruct (first_due_search d w n) as [Hall | (m & Hm & Hfirst)].
  - exists n. split; [lia |]. split; assumption.
  - exists m. split; [lia | exact Hfirst].
Qed.

(** ** Flush *)

Lemma shift_mask_channel (c k : Z) :
  0 <= k -> Z.land (Z.shiftr c k) 0xFF = (c / 2 ^ k) mod 256.
Proof.
  intros Hk. change 0xFF with (Z.ones 8).
  rewrite Z.land_ones, Z.shiftr_div_pow2 by lia. reflexivity.
Qed.

Lemma channel_range (c : Z) :
  0 <= red c < 256 /\ 0 <= green c < 256 /\ 0 <= blue c < 256.
Proof.
  rewrite red_div_mod, green_div_mod, blue_div_mod.
  repeat split; apply Z.mod_pos_bound; lia.
Qed.

Lemma scaled_range (br channel : Z) :
  0 <= br <= 255 -> 0 <= channel < 256 -> 0 <= scaled br channel < 255.
Proof.
  intros Hbr Hch. unfold scaled.
  split; [apply Z.div_pos; nia | apply Z.div_lt_upper_bound; nia].
Qed.

(** The word of the strip backend: the three scaled channels, packed in
    the order red, green, blue. *)
Lemma frameRPi_scaled (br c : Z) :
  frameRPi br c
  = rgb2GBColour (scaled br (red c)) (scaled br (green c)) (scaled br (blue c)).
Proof.
  unfold frameRPi, rgb2GBColour, scaled.
  rewrite !Z.shiftr_div_pow2 by lia.
  rewrite red_div_mod, green_div_mod, blue_div_mod.
  change 0xFF with (Z.ones 8). rewrite !Z.land_ones by lia.
  rewrite <- !Z.shiftr_div_pow2 by lia. rewrite !Z.shiftr_div_pow2 by lia.
  reflexivity.
Qed.

(** The word of the state-machine backend: the same channels in the order
    green, red, blue. *)
Lemma framePico_scaled (br c : Z) :
  framePico br c
  = rgb2GBColour (scaled br (green c)) (scaled br (red c)) (scaled br (blue c)).
Proof.
  unfold framePico, rgb2GBColour, scaled.
  rewrite !Z.shiftr_div_pow2 by lia.
  rewrite red_div_mod, green_div_mod, blue_div_mod.
  change 0xFF with (Z.ones 8). rewrite !Z.land_ones by lia.
  reflexivity.
Qed.

Lemma framePico_range (br c : Z) :
  0 <= br <= 255 -> 0 <= framePico br c < 2 ^ 32.
Proof.
  intros Hbr. rewrite framePico_scaled.
  destruct (channel_range c) as (Hr & Hg & Hb).
  pose proof (scaled_range br _ Hbr Hr). pose proof (scaled_range br _ Hbr Hg).
  pose proof (scaled_range br _ Hbr Hb).
  rewrite rgb2GBColour_sum by lia. lia.
Qed.

Lemma showLoopRPi_world (br : Z) (cs : list Z) (i : Z) (w : world) :
  showLoopRPi clock br i cs w
  = mkWorld (actions w + length cs)
      (log w ++ imap (fun k c => (clock (actions w + k)%nat,
                                  setPixelColor (i + Z.of_nat k) (frameRPi br c))) cs).
Proof.
  revert i w. induction cs as [| c cs IH]; intros i w.
  - simpl. rewrite Nat.add_0_r, app_nil_r. destruct w. reflexivity.
  - cbn [showLoopRPi]. rewrite IH. unfold transport. cbn [actions log length].
    rewrite imap_cons, <- app_assoc. cbn [app].
    rewrite Nat.add_0_r, Z.add_0_r.
    f_equal; [lia |]. do 2 f_equal.
    apply imap_ext. intros k x _. cbn [compose].
    replace (S (actions w) + k)%nat with (actions w + S k)%nat by lia.
    replace (i + 1 + Z.of_nat k) with (i + Z.of_nat (S k)) by lia.
    reflexivity.
Qed.

Lemma showLoopPico_ok (br : Z) (cs : list Z) (k : nat) (dim : list Z) (w : world) :
  0 <= br <= 255 ->
  (k + length cs <= length dim)%nat ->
  exists dim',
    showLoopPico clock br (Z.of_nat k) cs dim w
    = Ok (dim',
          mkWorld (actions w + length cs)
            (log w ++ imap (fun j c => (clock (actions w + j)%nat,
                                        put (framePico br c) 8)) cs))
    /\ length dim' = length dim.
Proof.
  intros Hbr. revert k dim w. induction cs as [| c cs IH]; intros k dim w Hlen.
  - exists dim. simpl. rewrite Nat.add_0_r, app_nil_r. destruct w. split; reflexivity.
  - cbn [length] in Hlen. cbn [showLoopPico].
    rewrite array_set_in_range by (try apply framePico_range; lia).
    cbn [bind]. rewrite Nat2Z.id.
    rewrite (array_get_in_range _ _ (framePico br c));
      [| rewrite length_insert; lia
       | rewrite Nat2Z.id; apply list_lookup_insert_eq; lia].
    cbn [bind].
    replace (Z.of_nat k + 1) with (Z.of_nat (S k)) by lia.
    destruct (IH (S k) (<[k := framePico br c]> dim)
                 (transport clock (put (framePico br c) 8) w)) as (dim' & Hrun & Hlen').
    { rewrite length_insert. lia. }
    exists dim'. rewrite Hrun. rewrite length_insert in Hlen'.
    split; [| exact Hlen'].
    unfold transport. cbn [actions log length].
    rewrite imap_cons, <- app_assoc. cbn [app]. rewrite Nat.add_0_r.
    do 2 f_equal. f_equal; [lia |]. do 2 f_equal.
    apply imap_ext. intros j x _. cbn [compose].
    replace (S (actions w) + j)%nat with (actions w + S j)%nat by lia.
    reflexivity.
Qed.

End RateLimiter.

Lemma pixelsShowRPi_result (clock : nat -> Z) (d : device) (w : world) (m fuel : nat) :
  rateLimit d <> 0 -> first_due clock d w m -> (m < fuel)%nat ->
  pixelsShowRPi clock fuel d w
  = Some (Ok (set_lastFrame_ms d (clock (actions w + m + 1)%nat),
              mkWorld (actions w + m + 2 + length (ar d) + 1)
                (log w
                 ++ imap (fun k c => (clock (actions w + m + 2 + k)%nat,
                                      setPixelColor (Z.of_nat k) (dimmedRGB (brightness d) c)))
                      (ar d)
                 ++ [(clock (actions w + m + 2 + length (ar d))%nat, show)]))).
Proof.
  intros Hr Hdue Hfuel. unfold pixelsShowRPi.
  rewrite (syncWait_returns clock m fuel d w Hr Hdue Hfuel).
  cbn [ar brightness set_lastFrame_ms]. rewrite showLoopRPi_world.
  unfold transport. cbn [actions log].
  do 3 f_equal. f_equal; [lia |].
  rewrite <- app_assoc. do 2 f_equal.
  apply imap_ext. intros k c _. rewrite frameRPi_scaled. reflexivity.
Qed.

Lemma pixelsShowPico_result (clock : nat -> Z) (d : device) (w : world) (m fuel : nat) :
  rateLimit d <> 0 -> first_due clock d w m -> (m < fuel)%nat ->
  0 <= brightness d <= 255 ->
  length (dimmer_ar d) = length (ar d) ->
  exists dim,
    pixelsShowPico clock fuel d w
    = Some (Ok (set_dimmer_ar (set_lastFrame_ms d (clock (actions w + m + 1)%nat)) dim,
                mkWorld (actions w + m + 2 + length (ar d))
                  (log w
                   ++ imap (fun k c => (clock (actions w + m + 2 + k)%nat,
                                        put (dimmedGRB (brightness d) c) 8))
                        (ar d)))).
Proof.
  intros Hr Hdue Hfuel Hbr Hdim. unfold pixelsShowPico.
  rewrite (syncWait_returns clock m fuel d w Hr Hdue Hfuel).
  cbn [ar brightness dimmer_ar set_lastFrame_ms].
  destruct (showLoopPico_ok clock (brightness d) (ar d) 0 (dimmer_ar d)
              (mkWorld (actions w + m + 2) (log w)) Hbr ltac:(lia))
    as (dim & Hrun & _).
  change (Z.of_nat 0) with 0 in Hrun. rewrite Hrun.
  exists dim. cbn [actions log]. do 5 f_equal.
  apply imap_ext. intros k c _. rewrite framePico_scaled. reflexivity.
Qed.

(** C1 as the code has it: once the clock lets the flush through, every
    buffer entry is sent with each channel scaled to
    floor(channel * brightness / 256) (the shift by 8 of the source), in
    the order red-green-blue followed by show on the strip backend and
    green-red-blue on the state-machine backend; the sent word unpacks to
    exactly these scaled channels; the pixel buffer is the same after the
    flush. *)
Theorem flush_scales_by_256
  (clock : nat -> Z) (d : device) (w : world) (n fuel : nat) :
  rateLimit d <> 0 ->
  deadline d <= clock (actions w + n)%nat ->
  (n < fuel)%nat ->
  0 <= brightness d <= 255 ->
  length (dimmer_ar d) = length (ar d) ->
  (exists d' w',
      pixelsShowRPi clock fuel d w = Some (Ok (d', w'))
      /\ ar d' = ar d
      /\ calls w'
         = calls w
           ++ imap (fun i c => setPixelColor (Z.of_nat i) (dimmedRGB (brightness d) c)) (ar d)
           ++ [show])
  /\ (exists d' w',
        pixelsShowPico clock fuel d w = Some (Ok (d', w'))
        /\ ar d' = ar d
        /\ calls w'
           = calls w
             ++ imap (fun i c => put (dimmedGRB (brightness d) c) 8) (ar d))
  /\ (forall c,
        channels (dimmedRGB (brightness d) c)
        = (red c * brightness d / 256,
           green c * brightness d / 256,
           blue c * brightness d / 256)).
Proof.
  intros Hr Hdue Hfuel Hbr Hdim.
  destruct (first_due_exists clock d w n Hdue) as (m & Hm & Hfirst).
  split; [| split].
  - do 2 eexists. split; [apply (pixelsShowRPi_result clock d w m); [assumption .. | lia] |].
    split; [reflexivity |].
    unfold calls. cbn [log]. rewrite !fmap_app, fmap_imap. reflexivity.
  - destruct (pixelsShowPico_result clock d w m fuel) as (dim & Hrun);
      [assumption | assumption | lia | assumption | assumption |].
    do 2 eexists. split; [exact Hrun |].
    split; [reflexivity |].
    unfold calls. cbn [log]. rewrite !fmap_app, fmap_imap. reflexivity.
  - intros c. unfold dimmedRGB.
    destruct (channel_range c) as (Hcr & Hcg & Hcb).
    pose proof (scaled_range _ _ Hbr Hcr). pose proof (scaled_range _ _ Hbr Hcg).
    pose proof (scaled_range _ _ Hbr Hcb).
    rewrite unpack_pack by lia. reflexivity.
Qed.

Lemma flush_scales_by_256_witness :
  (exists d' w',
      pixelsShowRPi (fun _ => 1000) 1 stick2 (mkWorld 0 []) = Some (Ok (d', w'))
      /\ ar d' = ar stick2
      /\ calls w' = [setPixelColor 0 0x0000FE; setPixelColor 1 0x00FE00; show])
  /\ (exists d' w',
        pixelsShowPico (fun _ => 1000) 1 stick2 (mkWorld 0 []) = Some (Ok (d', w'))
        /\ ar d' = ar stick2
        /\ calls w' = [put 0x0000FE 8; put 0xFE0000 8]).
Proof.
  destruct (flush_scales_by_256 (fun _ => 1000) stick2 (mkWorld 0 []) 0 1)
    as (Hrpi & Hpico & _).
  - discriminate.
  - vm_compute. discriminate.
  - lia.
  - vm_compute. split; discriminate.
  - reflexivity.
  - split; [exact Hrpi | exact Hpico].
Defined.

(** C1 as stated fails: at full brightness 255 the strip backend sends the
    blue channel 255 of the first entry of [stick2] as 254, where
    floor(255 * 255 / 255) is 255. *)
Lemma flush_scales_by_255_counterexample :
  pixelsShowRPi (fun _ => 1000) 1 stick2 (mkWorld 0 [])
  = Some (Ok (set_lastFrame_ms stick2 1000,
              mkWorld 5 [(1000, setPixelColor 0 0x0000FE);
                         (1000, setPixelColor 1 0x00FE00);
                         (1000, show)]))
  /\ ar stick2 !! 0%nat = Some 0x0000FF
  /\ brightness stick2 = 255
  /\ blue 0x0000FE = 254
  /\ blue 0x0000FF * brightness stick2 / 255 = 255.
Proof. repeat split. Qed.

(** Hence no flush theorem with 255 as the divisor can hold. *)
Lemma flush_does_not_scale_by_255 :
  ~ (forall (clock : nat -> Z) (d : device) (w : world) (fuel : nat)
            (d' : device) (w' : world) (i : nat) (c t word : Z),
        0 <= brightness d <= 255 ->
        pixelsShowRPi clock fuel d w = Some (Ok (d', w')) ->
        ar d !! i = Some c ->
        In (t, setPixelColor (Z.of_nat i) word) (log w') ->
        channels word
        = (red c * brightness d / 255,
           green c * brightness d / 255,
           blue c * brightness d / 255)).
Proof.
  intros Hclaim.
  pose (w' := mkWorld 5 [(1000, setPixelColor 0 0x0000FE);
                         (1000, setPixelColor 1 0x00FE00);
                         (1000, show)]).
  assert (Hrun : pixelsShowRPi (fun _ => 1000) 1 stick2 (mkWorld 0 [])
                 = Some (Ok (set_lastFrame_ms stick2 1000, w')))
    by (vm_compute; reflexivity).
  assert (Hbr : 0 <= brightness stick2 <= 255) by (vm_compute; split; discriminate).
  assert (Hin : In (1000, setPixelColor (Z.of_nat 0) 0x0000FE) (log w'))
    by (left; reflexivity).
  specialize (Hclaim _ _ _ _ _ _ 0%nat 0x0000FF 1000 0x0000FE Hbr Hrun eq_refl Hin).
  vm_compute in Hclaim. discriminate Hclaim.
Qed.

(** ** Spacing of frames *)

Lemma pixelsShowRPi_inv (clock : nat -> Z) (fuel : nat) (d d' : device) (w w' : world) :
  pixelsShowRPi clock fuel d w = Some (Ok (d', w')) ->
  exists m,
    first_due clock d w m
    /\ d' = set_lastFrame_ms d (clock (actions w + m + 1)%nat)
    /\ actions w' = (actions w + m + 2 + length (ar d) + 1)%nat
    /\ show_times w' = show_times w ++ [clock (actions w + m + 2 + length (ar d))%nat].
Proof.
  intros Hrun.
  assert (Hwait : exists d1 w1, syncWait clock fuel d w = Some (Ok (d1, w1))).
  { unfold pixelsShowRPi in Hrun.
    destruct (syncWait clock fuel d w) as [[[d1 w1] | e] |]; try discriminate.
    exists d1, w1. reflexivity. }
  destruct Hwait as (d1 & w1 & Hwait).
  destruct (syncWait_inv clock fuel d d1 w w1 Hwait) as (m & Hm & Hr & Hdue & _ & _).
  rewrite (pixelsShowRPi_result clock d w m fuel Hr Hdue Hm) in Hrun.
  injection Hrun as <- <-.
  exists m. split; [exact Hdue |]. split; [reflexivity |]. split; [reflexivity |].
  unfold show_times. cbn [log]. rewrite !flat_map_app. cbn [flat_map snd fst app].
  f_equal.
  assert (Hnone : forall (cs : list Z) (g : nat -> Z -> Z * call),
             (forall k c, exists i v, snd (g k c) = setPixelColor i v) ->
             flat_map (fun e => match snd e with show => [fst e] | _ => [] end)
                      (imap g cs) = []).
  { induction cs as [| c cs IH]; intros g Hg; [reflexivity |].
    rewrite imap_cons. cbn [flat_map].
    destruct (Hg 0%nat c) as (i & v & ->). cbn [app].
    apply IH. intros k c'. apply Hg. }
  rewrite Hnone; [reflexivity |].
  intros k c. eexists _, _. reflexivity.
Qed.

Lemma slow_then_fast_monotone : monotone slow_then_fast.
Proof.
  intros i j Hij. unfold slow_then_fast.
  destruct (Nat.ltb_spec i 2), (Nat.ltb_spec i 4), (Nat.ltb_spec i 5),
    (Nat.ltb_spec j 2), (Nat.ltb_spec j 4), (Nat.ltb_spec j 5); lia.
Qed.

(** C3 as the code has it.  The wait goes on as long as the clock is below
    lastFrame_ms + 1000 // rateLimit, ends at the first read that reaches it
    and stores one more read as the new lastFrame_ms; a flush returns as soon
    as its wait does.  With a clock that does not run backwards, when the
    next flush runs at rateLimit = 10 on the device as the first flush
    stamped it (whatever was drawn into the buffer in between), the two
    stamps are at least 100 ms apart, the first frame is handed over no
    earlier than the first stamp and the second no earlier than 100 ms after
    the first stamp. *)
Theorem rate_limiter_spacing (clock : nat -> Z) (d : device) (w : world) (n : nat) :
  rateLimit d <> 0 ->
  first_due clock d w n ->
  (forall fuel, (fuel <= n)%nat -> syncWait clock fuel d w = None)
  /\ (forall fuel, (n < fuel)%nat ->
        syncWait clock fuel d w
        = Some (Ok (set_lastFrame_ms d (clock (actions w + n + 1)%nat),
                    mkWorld (actions w + n + 2) (log w)))
        /\ exists w',
            pixelsShowRPi clock fuel d w
            = Some (Ok (set_lastFrame_ms d (clock (actions w + n + 1)%nat), w')))
  /\ (monotone clock ->
      forall fuel1 fuel2 d1 w1 d1' d2 w2,
        pixelsShowRPi clock fuel1 d w = Some (Ok (d1, w1)) ->
        lastFrame_ms d1' = lastFrame_ms d1 -> rateLimit d1' = 10 ->
        pixelsShowRPi clock fuel2 d1' w1 = Some (Ok (d2, w2)) ->
        lastFrame_ms d1 + 100 <= lastFrame_ms d2
        /\ exists t1 t2,
            show_times w2 = show_times w ++ [t1; t2]
            /\ lastFrame_ms d1 <= t1
            /\ lastFrame_ms d1 + 100 <= t2).
Proof.
  intros Hr Hdue. split; [| split].
  - intros fuel Hfuel. apply syncWait_blocks; [exact Hr |].
    intros k Hk. apply (proj1 Hdue). lia.
  - intros fuel Hfuel. split.
    + apply syncWait_returns; assumption.
    + eexists. apply pixelsShowRPi_result; assumption.
  - intros Hmono fuel1 fuel2 d1 w1 d1' d2 w2 Hrun1 Hstamp1 Hfps Hrun2.
    destruct (pixelsShowRPi_inv _ _ _ _ _ _ Hrun1) as (m1 & _ & Hd1 & Ha1 & Ht1).
    destruct (pixelsShowRPi_inv _ _ _ _ _ _ Hrun2) as (m2 & [_ Hdue2] & Hd2 & _ & Ht2).
    assert (Hint : deadline d1' = lastFrame_ms d1 + 100).
    { unfold deadline. rewrite Hstamp1, Hfps. reflexivity. }
    rewrite Hint in Hdue2.
    assert (Hstamp : lastFrame_ms d1 + 100 <= lastFrame_ms d2).
    { rewrite Hd2. cbn [lastFrame_ms set_lastFrame_ms].
      pose proof (Hmono (actions w1 + m2)%nat (actions w1 + m2 + 1)%nat ltac:(lia)).
      lia. }
    split; [exact Hstamp |].
    eexists _, _. split; [rewrite Ht2, Ht1, <- app_assoc; reflexivity |].
    split.
    + rewrite Hd1. cbn [lastFrame_ms set_lastFrame_ms]. apply Hmono. lia.
    + pose proof (Hmono (actions w1 + m2)%nat
                    (actions w1 + m2 + 2 + length (ar d1'))%nat ltac:(lia)).
      lia.
Qed.

Lemma every_100ms_monotone : monotone every_100ms.
Proof. intros i j Hij. unfold every_100ms. lia. Qed.

Lemma rate_limiter_spacing_witness :
  syncWait every_100ms 1 stick2 (mkWorld 0 []) = None
  /\ syncWait every_100ms 2 stick2 (mkWorld 0 [])
     = Some (Ok (set_lastFrame_ms stick2 200, mkWorld 3 []))
  /\ lastFrame_ms (set_lastFrame_ms stick2 200) + 100
     <= lastFrame_ms (set_lastFrame_ms stick2 700)
  /\ exists t1 t2,
      [500; 1000] = [t1; t2]
      /\ lastFrame_ms (set_lastFrame_ms stick2 200) <= t1
      /\ lastFrame_ms (set_lastFrame_ms stick2 200) + 100 <= t2.
Proof.
  destruct (rate_limiter_spacing every_100ms stick2 (mkWorld 0 []) 1)
    as (Hblocks & Hreturns & Hspacing).
  - discriminate.
  - split.
    + intros k Hk. assert (k = 0%nat) as -> by lia. reflexivity.
    + vm_compute. discriminate.
  - split; [apply Hblocks; lia |].
    split; [exact (proj1 (Hreturns 2%nat ltac:(lia))) |].
    exact (Hspacing every_100ms_monotone 2%nat 1%nat
             (set_lastFrame_ms stick2 200)
             (mkWorld 6 [(300, setPixelColor 0 0x0000FE);
                         (400, setPixelColor 1 0x00FE00);
                         (500, show)])
             (set_lastFrame_ms stick2 200)
             (set_lastFrame_ms stick2 700)
             (mkWorld 11 [(300, setPixelColor 0 0x0000FE);
                          (400, setPixelColor 1 0x00FE00);
                          (500, show);
                          (800, setPixelColor 0 0x0000FE);
                          (900, setPixelColor 1 0x00FE00);
                          (1000, show)])
             eq_refl eq_refl eq_refl eq_refl).
Defined.

(** C3 as stated fails.  The clock [slow_then_fast] never runs backwards
    and the strip [stick2] is limited to 10 frames per second; its first
    flush stamps the frame at 1000 and reaches [show] at 1099, its second
    flush is let through at 1100 and reaches [show] at 1100: the two frames
    are handed over 1 ms apart. *)
Lemma flush_spacing_counterexample :
  monotone slow_then_fast
  /\ rateLimit stick2 = 10
  /\ pixelsShowRPi slow_then_fast 1 stick2 (mkWorld 0 [])
     = Some (Ok (set_lastFrame_ms stick2 1000,
                 mkWorld 5 [(1050, setPixelColor 0 0x0000FE);
                            (1050, setPixelColor 1 0x00FE00);
                            (1099, show)]))
  /\ pixelsShowRPi slow_then_fast 1 (set_lastFrame_ms stick2 1000)
       (mkWorld 5 [(1050, setPixelColor 0 0x0000FE);
                   (1050, setPixelColor 1 0x00FE00);
                   (1099, show)])
     = Some (Ok (set_lastFrame_ms stick2 1100,
                 mkWorld 10 [(1050, setPixelColor 0 0x0000FE);
                             (1050, setPixelColor 1 0x00FE00);
                             (1099, show);
                             (1100, setPixelColor 0 0x0000FE);
                             (1100, setPixelColor 1 0x00FE00);
                             (1100, show)]))
  /\ show_times (mkWorld 10 [(1050, setPixelColor 0 0x0000FE);
                             (1050, setPixelColor 1 0x00FE00);
                             (1099, show);
                             (1100, setPixelColor 0 0x0000FE);
                             (1100, setPixelColor 1 0x00FE00);
                             (1100, show)])
     = [1099; 1100]
  /\ ~ (1099 + 100 <= 1100).
Proof.
  split; [exact slow_then_fast_monotone |].
  repeat split. lia.
Qed.

(** Hence consecutive hand-overs are not always 100 ms apart. *)
Lemma flushes_not_always_100ms_apart :
  ~ (forall (clock : nat -> Z) (d : device) (w : world) (fuel1 fuel2 : nat)
            (d1 d2 : device) (w1 w2 : world) (t1 t2 : Z),
        monotone clock -> rateLimit d = 10 ->
        pixelsShowRPi clock fuel1 d w = Some (Ok (d1, w1)) ->
        pixelsShowRPi clock fuel2 d1 w1 = Some (Ok (d2, w2)) ->
        show_times w2 = show_times w ++ [t1; t2] ->
        t1 + 100 <= t2).
Proof.
  intros Hclaim.
  pose (w1 := mkWorld 5 [(1050, setPixelColor 0 0x0000FE);
                         (1050, setPixelColor 1 0x00FE00);
                         (1099, show)]).
  pose (w2 := mkWorld 10 (log w1 ++ [(1100, setPixelColor 0 0x0000FE);
                                     (1100, setPixelColor 1 0x00FE00);
                                     (1100, show)])).
  assert (Hrun1 : pixelsShowRPi slow_then_fast 1 stick2 (mkWorld 0 [])
                  = Some (Ok (set_lastFrame_ms stick2 1000, w1)))
    by (vm_compute; reflexivity).
  assert (Hrun2 : pixelsShowRPi slow_then_fast 1 (set_lastFrame_ms stick2 1000) w1
                  = Some (Ok (set_lastFrame_ms stick2 1100, w2)))
    by (vm_compute; reflexivity).
  assert (Htimes : show_times w2 = show_times (mkWorld 0 []) ++ [1099; 1100])
    by (vm_compute; reflexivity).
  pose proof (Hclaim slow_then_fast stick2 _ _ _ _ _ _ _ 1099 1100
                slow_then_fast_monotone eq_refl Hrun1 Hrun2 Htimes).
  lia.
Qed.

(** * Further properties of the library *)

(** ** Colour wheel and codec *)

Lemma wheel_period_invariant :
  forallb (fun p =>
             (red (wheel p) + green (wheel p) + blue (wheel p) =? 255)
             && (0 <=? wheel p) && (wheel p <? 2 ^ 24)
             && ((red (wheel p) =? 0) || (green (wheel p) =? 0) || (blue (wheel p) =? 0)))
          (seqZ 0 255) = true.
Proof. vm_compute. reflexivity. Qed.

(** X1: every wheel colour is a 24-bit value whose three channels add up
    to 255, one of them being 0: the wheel yields pure hues of constant
    total intensity. *)
Theorem wheel_pure_hue (pos : Z) :
  0 <= wheel pos < 2 ^ 24
  /\ red (wheel pos) + green (wheel pos) + blue (wheel pos) = 255
  /\ (red (wheel pos) = 0 \/ green (wheel pos) = 0 \/ blue (wheel pos) = 0).
Proof.
  rewrite (wheel_mod pos).
  assert (Hp : 0 <= pos mod 255 < 255) by (apply Z.mod_pos_bound; lia).
  pose proof wheel_period_invariant as Hall.
  rewrite forallb_forall in Hall.
  specialize (Hall (pos mod 255)).
  rewrite !andb_true_iff, !orb_true_iff in Hall.
  destruct Hall as (((Hsum & Hlo) & Hhi) & Hzero).
  { apply list_elem_of_In, elem_of_seqZ. lia. }
  rewrite !Z.eqb_eq in Hzero. split; [lia |]. split; [lia | tauto].
Qed.

Lemma wheel_period_distinct :
  forallb (fun p => forallb (fun q => (p =? q) || negb (wheel p =? wheel q))
                            (seqZ 0 255))
          (seqZ 0 255) = true.
Proof. vm_compute. reflexivity. Qed.

Lemma wheel_eq_mod (a b : Z) : wheel a = wheel b -> a mod 255 = b mod 255.
Proof.
  rewrite (wheel_mod a), (wheel_mod b). intros Heq.
  assert (Ha : 0 <= a mod 255 < 255) by (apply Z.mod_pos_bound; lia).
  assert (Hb : 0 <= b mod 255 < 255) by (apply Z.mod_pos_bound; lia).
  pose proof wheel_period_distinct as Hall.
  rewrite forallb_forall in Hall.
  specialize (Hall (a mod 255)). rewrite forallb_forall in Hall.
  specialize (Hall ltac:(apply list_elem_of_In, elem_of_seqZ; lia) (b mod 255)
                   ltac:(apply list_elem_of_In, elem_of_seqZ; lia)).
  apply orb_true_iff in Hall. destruct Hall as [Hsame | Hdiff].
  - apply Z.eqb_eq. exact Hsame.
  - rewrite Heq, Z.eqb_refl in Hdiff. discriminate.
Qed.

(** X2: two positions give the same colour exactly when they agree modulo
    255: a period of the wheel has 255 different colours. *)
Theorem wheel_same_colour (a b : Z) :
  wheel a = wheel b <-> a mod 255 = b mod 255.
Proof.
  split; [apply wheel_eq_mod |].
  intros Heq. rewrite (wheel_mod a), (wheel_mod b), Heq. reflexivity.
Qed.

Lemma pack_channels (c : Z) :
  rgb2GBColour (red c) (green c) (blue c) = c mod 2 ^ 24.
Proof.
  destruct (channel_range c) as (Hr & Hg & Hb).
  rewrite rgb2GBColour_sum by lia.
  rewrite red_div_mod, green_div_mod, blue_div_mod.
  change (2 ^ 24) with 16777216. Z.div_mod_to_equations. lia.
Qed.

Lemma wheel_range (pos : Z) : 0 <= wheel pos < 2 ^ 24.
Proof.
  rewrite (wheel_mod pos).
  assert (Hp : 0 <= pos mod 255 < 255) by (apply Z.mod_pos_bound; lia).
  pose proof wheel_period_invariant as Hall.
  rewrite forallb_forall in Hall.
  specialize (Hall (pos mod 255)).
  rewrite !andb_true_iff in Hall.
  destruct Hall as (((_ & Hlo) & Hhi) & _).
  { apply list_elem_of_In, elem_of_seqZ. lia. }
  lia.
Qed.

(** X3: for channels from 0 to 255, rgb2GBColour gives the 24-bit number
    65536 r + 256 g + b, and different triples give different colours.  It
    does not check its arguments: a green of g + 256 lands on the lowest
    bit of red, where it is or-ed, not added. *)
Theorem rgb2GBColour_packing (r g b r' g' b' : Z) :
  0 <= r <= 255 -> 0 <= g <= 255 -> 0 <= b <= 255 ->
  0 <= r' <= 255 -> 0 <= g' <= 255 -> 0 <= b' <= 255 ->
  rgb2GBColour r g b = 65536 * r + 256 * g + b
  /\ 0 <= rgb2GBColour r g b < 2 ^ 24
  /\ (rgb2GBColour r g b = rgb2GBColour r' g' b' -> r = r' /\ g = g' /\ b = b')
  /\ rgb2GBColour r (g + 256) b = rgb2GBColour (Z.lor r 1) g b.
Proof.
  intros Hr Hg Hb Hr' Hg' Hb'.
  rewrite !rgb2GBColour_sum by lia.
  split; [lia |]. split; [lia |]. split; [lia |].
  unfold rgb2GBColour.
  assert (Hg256 : g + 256 = Z.lor (Z.shiftl 1 8) g).
  { rewrite (lor_disjoint_add 1 g 8) by lia. lia. }
  rewrite Hg256, !Z.shiftl_lor, Z.shiftl_shiftl by lia.
  change (8 + 8) with 16.
  rewrite (Z.lor_assoc (Z.shiftl r 16)). reflexivity.
Qed.

Lemma rgb2GBColour_packing_witness :
  rgb2GBColour 18 52 86 = 0x123456
  /\ rgb2GBColour 1 256 0 = rgb2GBColour 1 0 0.
Proof.
  pose proof (rgb2GBColour_packing 18 52 86 1 0 0
                ltac:(lia) ltac:(lia) ltac:(lia) ltac:(lia) ltac:(lia) ltac:(lia))
    as (H1 & _).
  pose proof (rgb2GBColour_packing 1 0 0 1 0 0
                ltac:(lia) ltac:(lia) ltac:(lia) ltac:(lia) ltac:(lia) ltac:(lia))
    as (_ & _ & _ & H2).
  split; [exact H1 | exact H2].
Defined.

(** ** Indexing the buffer *)

Lemma array_index_negative (len : nat) (i : Z) :
  - Z.of_nat len <= i < 0 -> array_index len i = Ok (Z.to_nat (i + Z.of_nat len)).
Proof.
  intros H. unfold array_index.
  destruct (Z.leb_spec 0 i); [lia |]. cbn [andb].
  destruct (Z.leb_spec (- Z.of_nat len) i), (Z.ltb_spec i 0); simpl; try lia.
  reflexivity.
Qed.

Lemma array_index_outside (len : nat) (i : Z) :
  i < - Z.of_nat len \/ Z.of_nat len <= i -> array_index len i = Raise IndexError.
Proof.
  intros H. unfold array_index.
  destruct (Z.leb_spec 0 i), (Z.ltb_spec i (Z.of_nat len)),
    (Z.leb_spec (- Z.of_nat len) i), (Z.ltb_spec i 0); simpl; try lia; reflexivity.
Qed.

Lemma array_index_alias (len : nat) (i : Z) :
  - Z.of_nat len <= i < 0 -> array_index len i = array_index len (i + Z.of_nat len).
Proof.
  intros H. rewrite array_index_negative by exact H.
  rewrite array_index_in_range by lia. reflexivity.
Qed.

(** X4: storing a colour at an in-range index and reading it back gives
    the colour; every other index from 0 up reads as before and the buffer
    keeps its length. *)
Theorem pixelSet_then_getPixel (d : device) (i colour : Z) :
  0 <= i < Z.of_nat (length (ar d)) -> 0 <= colour < 2 ^ 32 ->
  exists d',
    glowbit.pixelSet d i colour = Ok d'
    /\ glowbit.getPixel d' i = Ok colour
    /\ length (ar d') = length (ar d)
    /\ forall j, 0 <= j -> j <> i -> glowbit.getPixel d' j = glowbit.getPixel d j.
Proof.
  intros Hi Hc. exists (set_ar d (<[Z.to_nat i := colour]> (ar d))).
  unfold glowbit.pixelSet, glowbit.getPixel.
  rewrite array_set_in_range by assumption. cbn [bind ar set_ar].
  split; [reflexivity |]. split; [| split; [apply length_insert |]].
  - apply array_get_in_range; [rewrite length_insert; exact Hi |].
    apply list_lookup_insert_eq. lia.
  - intros j Hj0 Hj. unfold array_get. rewrite length_insert.
    destruct (array_index (length (ar d)) j) as [n |] eqn:Hn; [| reflexivity].
    cbn [bind]. rewrite list_lookup_insert_ne; [reflexivity |].
    intros <-. unfold array_index in Hn.
    destruct ((0 <=? j) && (j <? Z.of_nat (length (ar d)))) eqn:H1.
    + injection Hn as Hn. apply andb_true_iff in H1.
      destruct H1 as [H1 H1']. apply Z.leb_le in H1. apply Z.ltb_lt in H1'. lia.
    + destruct ((- Z.of_nat (length (ar d)) <=? j) && (j <? 0)) eqn:H2;
        [| discriminate].
      injection Hn as Hn. apply andb_true_iff in H2.
      destruct H2 as [H2 H2']. apply Z.ltb_lt in H2'. lia.
Qed.

Lemma pixelSet_then_getPixel_witness :
  exists d',
    glowbit.pixelSet stick2 1 0x102030 = Ok d'
    /\ glowbit.getPixel d' 1 = Ok 0x102030
    /\ length (ar d') = length (ar stick2)
    /\ forall j, 0 <= j -> j <> 1 -> glowbit.getPixel d' j = glowbit.getPixel stick2 j.
Proof.
  apply (pixelSet_then_getPixel stick2 1 0x102030); simpl; lia.
Defined.

(** X5: an index is accepted exactly from -len to len - 1: below or above,
    reading and writing raise IndexError; a negative index i in range
    addresses the same cell as i + len. *)
Theorem pixel_index_bounds (d : device) (i colour : Z) :
  0 <= colour < 2 ^ 32 ->
  ((i < - Z.of_nat (length (ar d)) \/ Z.of_nat (length (ar d)) <= i) ->
     glowbit.pixelSet d i colour = Raise IndexError
     /\ glowbit.getPixel d i = Raise IndexError)
  /\ (- Z.of_nat (length (ar d)) <= i < 0 ->
      glowbit.pixelSet d i colour
      = glowbit.pixelSet d (i + Z.of_nat (length (ar d))) colour
      /\ glowbit.getPixel d i = glowbit.getPixel d (i + Z.of_nat (length (ar d))))
  /\ (- Z.of_nat (length (ar d)) <= i < Z.of_nat (length (ar d)) ->
      exists d' v, glowbit.pixelSet d i colour = Ok d' /\ glowbit.getPixel d i = Ok v).
Proof.
  intros Hc. unfold glowbit.pixelSet, glowbit.getPixel, array_set, array_get.
  split; [| split].
  - intros Hout. rewrite array_index_outside by exact Hout. split; reflexivity.
  - intros Hneg. rewrite array_index_alias by exact Hneg. split; reflexivity.
  - intros Hin.
    assert (Hn : exists n, array_index (length (ar d)) i = Ok n /\ (n < length (ar d))%nat).
    { destruct (Z.lt_ge_cases i 0).
      - eexists. split; [apply array_index_negative; lia | lia].
      - eexists. split; [apply array_index_in_range; lia | lia]. }
    destruct Hn as (n & -> & Hlt). cbn [bind].
    destruct (lookup_lt_is_Some_2 (ar d) n Hlt) as [v Hv]. rewrite Hv.
    destruct (Z.leb_spec 0 colour), (Z.ltb_spec colour (2 ^ 32)); try lia.
    cbn [andb]. eexists _, _. split; reflexivity.
Qed.

Lemma pixel_index_bounds_witness :
  glowbit.pixelSet stick2 2 0x102030 = Raise IndexError
  /\ glowbit.getPixel stick2 (-3) = Raise IndexError
  /\ glowbit.getPixel stick2 (-1) = glowbit.getPixel stick2 (-1 + 2)
  /\ exists d' v, glowbit.pixelSet stick2 (-2) 0x102030 = Ok d'
                  /\ glowbit.getPixel stick2 (-2) = Ok v.
Proof.
  destruct (pixel_index_bounds stick2 2 0x102030 ltac:(lia)) as (Hout & _ & _).
  destruct (pixel_index_bounds stick2 (-3) 0x102030 ltac:(lia)) as (Hout' & _ & _).
  destruct (pixel_index_bounds stick2 (-1) 0x102030 ltac:(lia)) as (_ & Hneg & _).
  destruct (pixel_index_bounds stick2 (-2) 0x102030 ltac:(lia)) as (_ & _ & Hin).
  split; [apply Hout; simpl; lia |].
  split; [apply Hout'; simpl; lia |].
  split; [apply Hneg; simpl; lia |].
  apply Hin. simpl. lia.
Defined.

(** ** Runs of writes *)

Lemma for_each_app {S : Type} (xs ys : list Z) (body : Z -> S -> result S) (s : S) :
  for_each (xs ++ ys) body s = (do s' <- for_each xs body s; for_each ys body s').
Proof.
  revert s. induction xs as [| x xs IH]; intros s; simpl; [reflexivity |].
  destruct (body x s); simpl; [apply IH | reflexivity].
Qed.

(** Writing one colour at in-range indices stores it in each of them. *)
Lemma for_each_writes (idxs : list Z) (colour : Z) (d : device) :
  0 <= colour < 2 ^ 32 ->
  Forall (fun i => 0 <= i < Z.of_nat (length (ar d))) idxs ->
  for_each idxs (fun i d' => glowbit.pixelSet d' i colour) d
  = Ok (set_ar d (fill_cells colour (map Z.to_nat idxs) (ar d))).
Proof.
  intros Hc. revert d. induction idxs as [| i idxs IH]; intros d Hall.
  - simpl. rewrite set_ar_same. reflexivity.
  - apply Forall_cons in Hall. destruct Hall as [Hi Hrest].
    cbn [for_each]. unfold glowbit.pixelSet at 1.
    rewrite array_set_in_range by assumption. cbn [bind].
    rewrite IH; [reflexivity |].
    rewrite ar_set_ar, length_insert. exact Hrest.
Qed.

(** With negative indices allowed the run still succeeds and keeps the
    length. *)
Lemma for_each_writes_ok (idxs : list Z) (colour : Z) (d : device) :
  0 <= colour < 2 ^ 32 ->
  Forall (fun i => - Z.of_nat (length (ar d)) <= i < Z.of_nat (length (ar d))) idxs ->
  exists d',
    for_each idxs (fun i d' => glowbit.pixelSet d' i colour) d = Ok d'
    /\ length (ar d') = length (ar d).
Proof.
  intros Hc. revert d. induction idxs as [| i idxs IH]; intros d Hall.
  - exists d. split; reflexivity.
  - apply Forall_cons in Hall. destruct Hall as [Hi Hrest].
    cbn [for_each]. unfold glowbit.pixelSet at 1. unfold array_set.
    assert (Hn : exists n, array_index (length (ar d)) i = Ok n).
    { destruct (Z.lt_ge_cases i 0).
      - eexists. apply array_index_negative. lia.
      - eexists. apply array_index_in_range. lia. }
    destruct Hn as (n & ->). cbn [bind].
    destruct (Z.leb_spec 0 colour), (Z.ltb_spec colour (2 ^ 32)); try lia.
    cbn [andb bind].
    destruct (IH (set_ar d (<[n := colour]> (ar d)))) as (d' & Hrun & Hlen).
    { rewrite ar_set_ar, length_insert. exact Hrest. }
    exists d'. split; [exact Hrun |].
    rewrite Hlen, ar_set_ar, length_insert. reflexivity.
Qed.

Lemma fill_all_cells (colour : Z) (a : list Z) :
  fill_cells colour (map Z.to_nat (seqZ 0 (Z.of_nat (length a)))) a
  = replicate (length a) colour.
Proof.
  apply list_eq. intros k.
  destruct (Nat.lt_ge_cases k (length a)) as [Hlt | Hge].
  - rewrite lookup_replicate_2 by exact Hlt.
    apply fill_cells_written; [| exact Hlt].
    apply in_map_iff. exists (Z.of_nat k). split; [apply Nat2Z.id |].
    apply list_elem_of_In, elem_of_seqZ. lia.
  - rewrite !lookup_ge_None_2; [reflexivity | |].
    + rewrite length_replicate. exact Hge.
    + rewrite fill_cells_length. exact Hge.
Qed.

(** X6: pixelsFill with a colour that fits a cell turns the buffer into as
    many copies of the colour, whatever it held; on an empty buffer it does
    nothing, and a colour that does not fit a cell raises OverflowError as
    soon as there is a cell to write. *)
Theorem pixelsFill_all (d : device) (colour : Z) :
  (0 <= colour < 2 ^ 32 ->
     glowbit.pixelsFill d colour = Ok (set_ar d (replicate (length (ar d)) colour)))
  /\ (ar d = [] -> glowbit.pixelsFill d colour = Ok d)
  /\ (ar d <> [] -> colour < 0 \/ 2 ^ 32 <= colour ->
      glowbit.pixelsFill d colour = Raise OverflowError).
Proof.
  unfold glowbit.pixelsFill, range. rewrite Z.sub_0_r.
  split; [| split].
  - intros Hc. rewrite for_each_writes.
    + rewrite fill_all_cells. reflexivity.
    + exact Hc.
    + apply Forall_seqZ. intros i Hi. lia.
  - intros ->. reflexivity.
  - intros Hne Hc. destruct (ar d) as [| c0 cs] eqn:Har; [contradiction |].
    cbn [length]. rewrite seqZ_cons by lia. cbn [for_each].
    unfold glowbit.pixelSet, array_set. rewrite Har.
    rewrite array_index_in_range by (cbn [length]; lia). cbn [bind].
    destruct (Z.leb_spec 0 colour), (Z.ltb_spec colour (2 ^ 32));
      try lia; reflexivity.
Qed.

Lemma pixelsFill_all_witness :
  glowbit.pixelsFill stick2 0x00FF00 = Ok (set_ar stick2 [0x00FF00; 0x00FF00])
  /\ glowbit.pixelsFill (set_ar stick2 []) (-1) = Ok (set_ar stick2 [])
  /\ glowbit.pixelsFill stick2 (-1) = Raise OverflowError.
Proof.
  destruct (pixelsFill_all stick2 0x00FF00) as (Hfill & _ & _).
  destruct (pixelsFill_all (set_ar stick2 []) (-1)) as (_ & Hempty & _).
  destruct (pixelsFill_all stick2 (-1)) as (_ & _ & Hover).
  split; [apply Hfill; lia |].
  split; [apply Hempty; reflexivity |].
  apply Hover; [discriminate | lia].
Defined.

(** ** Slices and triangles *)

Lemma range_cells_in (a b : Z) (k : nat) :
  0 <= a -> In k (map Z.to_nat (range a b)) <-> a <= Z.of_nat k < b.
Proof.
  intros Ha. unfold range. rewrite in_map_iff. split.
  - intros (i & <- & Hin). apply list_elem_of_In, elem_of_seqZ in Hin. lia.
  - intros Hk. exists (Z.of_nat k). split; [apply Nat2Z.id |].
    apply list_elem_of_In, elem_of_seqZ. lia.
Qed.

(** X7: on a stick whose numLEDs is the buffer length, fillSlice(i, j,
    colour) with 0 <= i and j < numLEDs stores the colour in the cells i to
    j, both included, and leaves the others alone (nothing at all when
    j < i). *)
Theorem fillSlice_inclusive (d : device) (i j colour : Z) :
  numLEDs d = Z.of_nat (length (ar d)) ->
  0 <= i -> j < numLEDs d -> j <> -1 -> 0 <= colour < 2 ^ 32 ->
  exists d',
    stick.fillSlice d i j colour = Ok d'
    /\ length (ar d') = length (ar d)
    /\ forall k : nat,
        (i <= Z.of_nat k <= j -> ar d' !! k = Some colour)
        /\ (Z.of_nat k < i \/ j < Z.of_nat k -> ar d' !! k = ar d !! k).
Proof.
  intros Hn Hi Hj Hj1 Hc. unfold stick.fillSlice.
  destruct (Z.eqb_spec j (-1)) as [| _]; [contradiction |].
  eexists. split.
  - apply for_each_writes; [exact Hc |].
    apply Forall_seqZ. intros k Hk. lia.
  - rewrite ar_set_ar. split; [apply fill_cells_length |].
    intros k. split.
    + intros Hk. apply fill_cells_written; [apply range_cells_in; lia | lia].
    + intros Hk. apply fill_cells_untouched. rewrite range_cells_in by lia. lia.
Qed.

Lemma fillSlice_inclusive_witness :
  exists d',
    stick.fillSlice stick2 1 1 0x102030 = Ok d'
    /\ length (ar d') = length (ar stick2)
    /\ forall k : nat,
        (1 <= Z.of_nat k <= 1 -> ar d' !! k = Some 0x102030)
        /\ (Z.of_nat k < 1 \/ 1 < Z.of_nat k -> ar d' !! k = ar stick2 !! k).
Proof.
  apply (fillSlice_inclusive stick2 1 1 0x102030);
    [reflexivity | lia | simpl; lia | lia | lia].
Defined.

(** X8: with j = -1, its default, fillSlice takes numLEDs as the last index
    to write, one past the buffer: for every start i <= numLEDs the call
    raises IndexError; only a start beyond numLEDs returns, having written
    nothing. *)
Theorem fillSlice_default_end (d : device) (i colour : Z) :
  numLEDs d = Z.of_nat (length (ar d)) -> 0 <= colour < 2 ^ 32 ->
  (i <= numLEDs d -> stick.fillSlice d i (-1) colour = Raise IndexError)
  /\ (numLEDs d < i -> stick.fillSlice d i (-1) colour = Ok d).
Proof.
  intros Hn Hc. unfold stick.fillSlice, range.
  change (-1 =? -1) with true. cbn iota.
  split.
  - intros Hi.
    destruct (Z.lt_ge_cases i (- Z.of_nat (length (ar d)))) as [Hlow | Hin].
    + rewrite seqZ_cons by lia. cbn [for_each].
      unfold glowbit.pixelSet, array_set.
      rewrite array_index_outside by lia. reflexivity.
    + replace (numLEDs d + 1 - i) with ((numLEDs d - i) + 1) by lia.
      rewrite seqZ_app by lia. rewrite for_each_app.
      destruct (for_each_writes_ok (seqZ i (numLEDs d - i)) colour d Hc)
        as (d' & -> & Hlen).
      { apply Forall_seqZ. intros k Hk. lia. }
      cbn [bind]. replace (i + (numLEDs d - i)) with (numLEDs d) by lia.
      change (seqZ (numLEDs d) 1) with [numLEDs d]. cbn [for_each].
      unfold glowbit.pixelSet, array_set.
      rewrite array_index_outside by lia. reflexivity.
  - intros Hi. rewrite seqZ_nil by lia. reflexivity.
Qed.

Lemma fillSlice_default_end_witness :
  stick.fillSlice stick2 0 (-1) 0xFFFFFF = Raise IndexError
  /\ stick.fillSlice stick2 3 (-1) 0xFFFFFF = Ok stick2.
Proof.
  destruct (fillSlice_default_end stick2 0 0xFFFFFF eq_refl ltac:(lia)) as [Hraise _].
  destruct (fillSlice_default_end stick2 3 0xFFFFFF eq_refl ltac:(lia)) as [_ Hnone].
  split; [apply Hraise; simpl; lia | apply Hnone; simpl; lia].
Defined.

Lemma array_set_alias (a : list Z) (i v : Z) :
  0 <= i < Z.of_nat (length a) ->
  array_set a (- Z.of_nat (length a) + i) v = array_set a i v.
Proof.
  intros Hi. unfold array_set.
  rewrite array_index_alias by lia.
  replace (- Z.of_nat (length a) + i + Z.of_nat (length a)) with i by lia.
  reflexivity.
Qed.

Lemma array_set_length (a a' : list Z) (i v : Z) :
  array_set a i v = Ok a' -> length a' = length a.
Proof.
  unfold array_set. destruct (array_index (length a) i); [| discriminate].
  cbn [bind]. destruct ((0 <=? v) && (v <? 2 ^ 32)); [| discriminate].
  intros Heq. injection Heq as <-. apply length_insert.
Qed.

(** Shifting every index of a run down by the buffer length addresses the
    same cells. *)
Lemma for_each_alias (idxs : list Z) (colour : Z) (n : nat) (d : device) :
  length (ar d) = n ->
  Forall (fun i => 0 <= i < Z.of_nat n) idxs ->
  for_each (Z.add (- Z.of_nat n) <$> idxs)
           (fun i d' => do a <- array_set (ar d') i colour; Ok (set_ar d' a)) d
  = for_each idxs
      (fun i d' => do a <- array_set (ar d') i colour; Ok (set_ar d' a)) d.
Proof.
  revert d. induction idxs as [| i idxs IH]; intros d Hlen Hall; [reflexivity |].
  apply Forall_cons in Hall. destruct Hall as [Hi Hrest].
  cbn [fmap list_fmap for_each]. rewrite <- Hlen at 1.
  rewrite array_set_alias by lia.
  destruct (array_set (ar d) i colour) as [a |] eqn:Hset; [| reflexivity].
  cbn [bind]. apply IH; [| exact Hrest].
  rewrite ar_set_ar, (array_set_length _ _ _ _ Hset). exact Hlen.
Qed.

(** X9: fillTri stores the colour in the LEDsPerTri cells of triangle tri
    (counted from 0) and leaves every other cell alone, provided the
    triangle lies in the buffer. *)
Theorem fillTri_cells (LEDsPerTri : Z) (d : device) (tri colour : Z) :
  0 <= LEDsPerTri -> 0 <= tri ->
  LEDsPerTri * (tri + 1) <= Z.of_nat (length (ar d)) ->
  0 <= colour < 2 ^ 32 ->
  exists d',
    triangle.fillTri LEDsPerTri d tri colour = Ok d'
    /\ length (ar d') = length (ar d)
    /\ forall k : nat,
        (LEDsPerTri * tri <= Z.of_nat k < LEDsPerTri * tri + LEDsPerTri ->
           ar d' !! k = Some colour)
        /\ (Z.of_nat k < LEDsPerTri * tri
            \/ LEDsPerTri * tri + LEDsPerTri <= Z.of_nat k ->
            ar d' !! k = ar d !! k).
Proof.
  intros HL Htri Hfit Hc. unfold triangle.fillTri.
  eexists. split.
  - apply (for_each_writes _ colour d Hc).
    apply Forall_seqZ. intros k Hk. nia.
  - rewrite ar_set_ar. split; [apply fill_cells_length |].
    intros k. split.
    + intros Hk. apply fill_cells_written; [apply range_cells_in; nia | nia].
    + intros Hk. apply fill_cells_untouched. rewrite range_cells_in by nia. lia.
Qed.

Lemma fillTri_cells_witness :
  exists d',
    triangle.fillTri 1 stick2 1 0x102030 = Ok d'
    /\ length (ar d') = length (ar stick2)
    /\ forall k : nat,
        (1 * 1 <= Z.of_nat k < 1 * 1 + 1 -> ar d' !! k = Some 0x102030)
        /\ (Z.of_nat k < 1 * 1 \/ 1 * 1 + 1 <= Z.of_nat k ->
            ar d' !! k = ar stick2 !! k).
Proof.
  apply (fillTri_cells 1 stick2 1 0x102030); simpl; lia.
Defined.

(** X10: a triangle number is not checked: on a buffer of numTris
    triangles, a negative number tri - numTris fills triangle tri (counted
    from the end, as negative indices are), and the number numTris itself,
    the first past the end, raises IndexError. *)
Theorem fillTri_unchecked (LEDsPerTri numTris : Z) (d : device) (tri colour : Z) :
  0 < LEDsPerTri ->
  Z.of_nat (length (ar d)) = numTris * LEDsPerTri ->
  0 <= colour < 2 ^ 32 ->
  (0 <= tri < numTris ->
     triangle.fillTri LEDsPerTri d (tri - numTris) colour
     = triangle.fillTri LEDsPerTri d tri colour)
  /\ triangle.fillTri LEDsPerTri d numTris colour = Raise IndexError.
Proof.
  intros HL Hlen Hc. unfold triangle.fillTri, range. split.
  - intros Htri.
    replace (LEDsPerTri * (tri - numTris) + LEDsPerTri - LEDsPerTri * (tri - numTris))
      with LEDsPerTri by lia.
    replace (LEDsPerTri * tri + LEDsPerTri - LEDsPerTri * tri) with LEDsPerTri by lia.
    replace (LEDsPerTri * (tri - numTris))
      with (- Z.of_nat (length (ar d)) + LEDsPerTri * tri) by lia.
    rewrite <- fmap_add_seqZ.
    apply for_each_alias; [reflexivity |].
    apply Forall_seqZ. intros k Hk. nia.
  - replace (LEDsPerTri * numTris + LEDsPerTri - LEDsPerTri * numTris)
      with LEDsPerTri by lia.
    rewrite seqZ_cons by lia. cbn [for_each]. unfold array_set.
    rewrite array_index_outside by lia. reflexivity.
Qed.

Lemma fillTri_unchecked_witness :
  triangle.fillTri 1 stick2 (1 - 2) 0x102030 = triangle.fillTri 1 stick2 1 0x102030
  /\ triangle.fillTri 1 stick2 2 0x102030 = Raise IndexError.
Proof.
  destruct (fillTri_unchecked 1 2 stick2 1 0x102030) as [Hneg Hpast];
    [lia | reflexivity | lia |].
  split; [apply Hneg; lia | exact Hpast].
Defined.

(** ** The built-in remappings are one-to-one *)

Lemma quotient_remainder_unique (t q s q' s' : Z) :
  0 <= s < t -> 0 <= s' < t -> q * t + s = q' * t + s' -> q = q' /\ s = s'.
Proof.
  intros Hs Hs' Heq.
  assert (Hq : q = q') by nia.
  subst q'. split; [reflexivity | lia].
Qed.

(** X11: on a canvas of tileRows x tileCols tiles remap8x8 is a bijection
    onto the buffer indices: it takes different coordinates to different
    addresses, every address it gives lies in [0, 64 * tileRows * tileCols),
    and every such address is the image of a coordinate of the canvas. *)
Theorem remap8x8_bijection (tileRows tileCols : Z) :
  0 < tileRows -> 0 < tileCols ->
  (forall x y x' y',
      0 <= x < 8 * tileCols -> 0 <= x' < 8 * tileCols ->
      remap8x8 tileCols x y = remap8x8 tileCols x' y' -> x = x' /\ y = y')
  /\ (forall x y,
        0 <= x < 8 * tileCols -> 0 <= y < 8 * tileRows ->
        0 <= remap8x8 tileCols x y < 64 * tileRows * tileCols)
  /\ (forall a,
        0 <= a < 64 * tileRows * tileCols ->
        exists x y,
          0 <= x < 8 * tileCols /\ 0 <= y < 8 * tileRows
          /\ remap8x8 tileCols x y = a).
Proof.
  intros Htr Htc. split; [| split].
  - intros x y x' y' Hx Hx'. rewrite !remap8x8_shape. intros Heq.
    pose proof (Z.mod_pos_bound x 8 ltac:(lia)) as Hxm.
    pose proof (Z.mod_pos_bound y 8 ltac:(lia)) as Hym.
    pose proof (Z.mod_pos_bound x' 8 ltac:(lia)) as Hxm'.
    pose proof (Z.mod_pos_bound y' 8 ltac:(lia)) as Hym'.
    assert (Hxq : 0 <= x / 8 < tileCols) by (Z.div_mod_to_equations; lia).
    assert (Hxq' : 0 <= x' / 8 < tileCols) by (Z.div_mod_to_equations; lia).
    pose proof (Z.div_mod x 8 ltac:(lia)) as Hxd.
    pose proof (Z.div_mod y 8 ltac:(lia)) as Hyd.
    pose proof (Z.div_mod x' 8 ltac:(lia)) as Hxd'.
    pose proof (Z.div_mod y' 8 ltac:(lia)) as Hyd'.
    set (s := if Z.even (y / 8) then x / 8 else tileCols - x / 8 - 1) in *.
    set (s' := if Z.even (y' / 8) then x' / 8 else tileCols - x' / 8 - 1) in *.
    assert (Hs : 0 <= s < tileCols) by (unfold s; destruct (Z.even (y / 8)); lia).
    assert (Hs' : 0 <= s' < tileCols) by (unfold s'; destruct (Z.even (y' / 8)); lia).
    assert (Hk : y / 8 * tileCols + s = y' / 8 * tileCols + s') by lia.
    assert (Hoff : 8 * (y mod 8) + x mod 8 = 8 * (y' mod 8) + x' mod 8) by lia.
    destruct (quotient_remainder_unique _ _ _ _ _ Hs Hs' Hk) as [Hq Hss].
    assert (Hxq_eq : x / 8 = x' / 8).
    { unfold s, s' in Hss. rewrite Hq in Hss. destruct (Z.even (y' / 8)); lia. }
    split; lia.
  - intros x y Hx Hy. rewrite remap8x8_shape.
    assert (Hxq : 0 <= x / 8 < tileCols) by (Z.div_mod_to_equations; lia).
    assert (Hyq : 0 <= y / 8 < tileRows) by (Z.div_mod_to_equations; lia).
    pose proof (Z.mod_pos_bound x 8 ltac:(lia)).
    pose proof (Z.mod_pos_bound y 8 ltac:(lia)).
    assert (Hs : 0 <= (if Z.even (y / 8) then x / 8 else tileCols - x / 8 - 1) < tileCols)
      by (destruct (Z.even (y / 8)); lia).
    revert Hs. generalize (if Z.even (y / 8) then x / 8 else tileCols - x / 8 - 1).
    intros s Hs. nia.
  - intros a Ha.
    set (k := a / 64). set (off := a mod 64).
    set (tr := k / tileCols). set (s := k mod tileCols).
    set (tc := if Z.even tr then s else tileCols - 1 - s).
    assert (Hoff : 0 <= off < 64) by (apply Z.mod_pos_bound; lia).
    assert (Hk : 0 <= k < tileRows * tileCols)
      by (unfold k; Z.div_mod_to_equations; nia).
    assert (Hs : 0 <= s < tileCols) by (apply Z.mod_pos_bound; lia).
    assert (Hkd : k = tileCols * tr + s) by (apply Z.div_mod; lia).
    assert (Htr' : 0 <= tr < tileRows) by nia.
    assert (Htc' : 0 <= tc < tileCols) by (unfold tc; destruct (Z.even tr); lia).
    assert (Hlx : 0 <= off mod 8 < 8) by (apply Z.mod_pos_bound; lia).
    assert (Hly : 0 <= off / 8 < 8) by (Z.div_mod_to_equations; lia).
    exists (8 * tc + off mod 8), (8 * tr + off / 8).
    split; [lia |]. split; [lia |].
    rewrite remap8x8_shape.
    destruct (tile_coordinates tc (off mod 8) Hlx) as [-> ->].
    destruct (tile_coordinates tr (off / 8) Hly) as [-> ->].
    assert (Htile : (if Z.even tr then tc else tileCols - tc - 1) = s)
      by (unfold tc; destruct (Z.even tr); lia).
    rewrite Htile.
    pose proof (Z.div_mod off 8 ltac:(lia)).
    pose proof (Z.div_mod a 64 ltac:(lia)). fold k off in H0. nia.
Qed.

Lemma remap8x8_bijection_witness :
  (remap8x8 2 3 1 = remap8x8 2 3 1 -> 3 = 3 /\ 1 = 1)
  /\ 0 <= remap8x8 2 15 7 < 64 * 1 * 2
  /\ exists x y, 0 <= x < 8 * 2 /\ 0 <= y < 8 * 1 /\ remap8x8 2 x y = 100.
Proof.
  destruct (remap8x8_bijection 1 2 ltac:(lia) ltac:(lia)) as (Hinj & Hran & Hsur).
  split; [apply Hinj; lia |].
  split; [apply Hran; lia | apply Hsur; lia].
Defined.

(** X12: on a chain of 4x4 tiles remap4x4 is a bijection onto the buffer
    indices as well: one-to-one for rows 0 to 3, with values in
    [0, 16 * tiles), all of them reached. *)
Theorem remap4x4_bijection (tiles : Z) :
  0 < tiles ->
  (forall x y x' y',
      0 <= y < 4 -> 0 <= y' < 4 ->
      remap4x4 x y = remap4x4 x' y' -> x = x' /\ y = y')
  /\ (forall x y,
        0 <= x < 4 * tiles -> 0 <= y < 4 -> 0 <= remap4x4 x y < 16 * tiles)
  /\ (forall a,
        0 <= a < 16 * tiles ->
        exists x y, 0 <= x < 4 * tiles /\ 0 <= y < 4 /\ remap4x4 x y = a).
Proof.
  intros Ht. unfold remap4x4. split; [| split].
  - intros x y x' y' Hy Hy' Heq. Z.div_mod_to_equations. lia.
  - intros x y Hx Hy. Z.div_mod_to_equations. lia.
  - intros a Ha.
    exists (4 * (a / 16) + a mod 4), ((a mod 16) / 4).
    Z.div_mod_to_equations. lia.
Qed.

Lemma remap4x4_bijection_witness :
  (remap4x4 5 2 = remap4x4 5 2 -> 5 = 5 /\ 2 = 2)
  /\ 0 <= remap4x4 7 3 < 16 * 2
  /\ exists x y, 0 <= x < 4 * 2 /\ 0 <= y < 4 /\ remap4x4 x y = 21.
Proof.
  destruct (remap4x4_bijection 2 ltac:(lia)) as (Hinj & Hran & Hsur).
  split; [apply Hinj; lia |].
  split; [apply Hran; lia | apply Hsur; lia].
Defined.

(** ** Clipped, wrapping and adding setters *)

Lemma on_canvas_test (d : device) (x y : Z) :
  0 <= x < numLEDsX d -> 0 <= y < numLEDsY d ->
  (0 <=? x) && (0 <=? y) && (x <? numLEDsX d) && (y <? numLEDsY d) = true.
Proof.
  intros Hx Hy.
  destruct (Z.leb_spec 0 x), (Z.leb_spec 0 y),
    (Z.ltb_spec x (numLEDsX d)), (Z.ltb_spec y (numLEDsY d));
    try lia; reflexivity.
Qed.

Lemma off_canvas_test (d : device) (x y : Z) :
  ~ (0 <= x < numLEDsX d /\ 0 <= y < numLEDsY d) ->
  (0 <=? x) && (0 <=? y) && (x <? numLEDsX d) && (y <? numLEDsY d) = false.
Proof.
  intros Hout.
  destruct (Z.leb_spec 0 x), (Z.leb_spec 0 y),
    (Z.ltb_spec x (numLEDsX d)), (Z.ltb_spec y (numLEDsY d));
    try reflexivity.
  exfalso. apply Hout. lia.
Qed.

Lemma py_mod_on_canvas (x n : Z) : 0 <= x < n -> py_mod x n = Ok x.
Proof.
  intros Hx. unfold py_mod.
  destruct (Z.eqb_spec n 0); [lia |]. rewrite Z.mod_small by exact Hx. reflexivity.
Qed.

(** X13: at a coordinate on the canvas the clipped and the wrapping
    variant of a setter are the same operation, for storing and for
    adding. *)
Theorem clip_agrees_on_canvas (d : device) (x y colour : Z) :
  0 <= x < numLEDsX d -> 0 <= y < numLEDsY d ->
  pixelSetXYClip d x y colour = pixelSetXY d x y colour
  /\ pixelAddXYClip d x y colour = pixelAddXY d x y colour.
Proof.
  intros Hx Hy.
  unfold pixelSetXYClip, pixelSetXY, pixelAddXYClip, pixelAddXY.
  rewrite on_canvas_test by assumption.
  rewrite !py_mod_on_canvas by assumption. cbn [bind].
  split; [reflexivity |].
  destruct (array_get (ar d) (call_remap d x y)) as [v |]; [| reflexivity].
  cbn [bind]. rewrite (Z.add_comm colour v). reflexivity.
Qed.

Lemma clip_agrees_on_canvas_witness :
  pixelSetXYClip matrix4x4_one 3 2 0x102030 = pixelSetXY matrix4x4_one 3 2 0x102030
  /\ pixelAddXYClip matrix4x4_one 3 2 0x102030 = pixelAddXY matrix4x4_one 3 2 0x102030.
Proof.
  apply (clip_agrees_on_canvas matrix4x4_one 3 2 0x102030); simpl; lia.
Defined.

(** X14: pixelAddXY is pixelAdd at the cell of the wrapped coordinate: on a
    canvas whose remapping stays in the buffer it replaces the value v of
    that cell by the plain sum v + colour; pixelAddXYClip does nothing at a
    coordinate off the canvas. *)
Theorem pixelAddXY_wrapped_sum (d : device) (x y colour v : Z) :
  canvas_ok d ->
  ar d !! wrapped_cell d x y = Some v ->
  0 <= v + colour < 2 ^ 32 ->
  pixelAddXY d x y colour
  = glowbit.pixelAdd d (call_remap d (x mod numLEDsX d) (y mod numLEDsY d)) colour
  /\ pixelAddXY d x y colour
     = Ok (set_ar d (<[wrapped_cell d x y := v + colour]> (ar d)))
  /\ forall x' y', ~ (0 <= x' < numLEDsX d /\ 0 <= y' < numLEDsY d) ->
       pixelAddXYClip d x' y' colour = Ok d.
Proof.
  intros Hok Hv Hsum.
  pose proof (wrapped_cell_in_buffer d x y Hok) as Hin.
  destruct Hok as (HX & HY & _).
  unfold pixelAddXY, glowbit.pixelAdd, py_mod.
  destruct (Z.eqb_spec (numLEDsX d) 0); [lia |].
  destruct (Z.eqb_spec (numLEDsY d) 0); [lia |]. cbn [bind].
  split; [reflexivity |]. split.
  - rewrite (array_get_in_range _ _ v Hin Hv). cbn [bind].
    rewrite (array_set_in_range _ _ _ Hin Hsum). reflexivity.
  - intros x' y' Hout. unfold pixelAddXYClip.
    rewrite off_canvas_test by exact Hout. reflexivity.
Qed.

Lemma pixelAddXY_wrapped_sum_witness :
  pixelAddXY matrix4x4_one (-1) 5 0x010000
  = glowbit.pixelAdd matrix4x4_one
      (call_remap matrix4x4_one ((-1) mod numLEDsX matrix4x4_one)
                  (5 mod numLEDsY matrix4x4_one)) 0x010000
  /\ pixelAddXY matrix4x4_one (-1) 5 0x010000
     = Ok (set_ar matrix4x4_one
             (<[wrapped_cell matrix4x4_one (-1) 5 := 107 + 0x010000]> (ar matrix4x4_one)))
  /\ forall x' y',
      ~ (0 <= x' < numLEDsX matrix4x4_one /\ 0 <= y' < numLEDsY matrix4x4_one) ->
      pixelAddXYClip matrix4x4_one x' y' 0x010000 = Ok matrix4x4_one.
Proof.
  apply (pixelAddXY_wrapped_sum matrix4x4_one (-1) 5 0x010000 107).
  - exact (is_matrix4x4_canvas_ok 1 _ matrix4x4_one_geometry).
  - reflexivity.
  - lia.
Defined.

(** X15: a canvas of width or height 0 makes the wrapping setters divide
    by zero: pixelSetXY and pixelAddXY raise ZeroDivisionError whatever the
    coordinate, while the clipped setters simply do nothing. *)
Theorem empty_canvas_setters (d : device) (x y colour : Z) :
  numLEDsX d = 0 \/ numLEDsY d = 0 ->
  pixelSetXY d x y colour = Raise ZeroDivisionError
  /\ pixelAddXY d x y colour = Raise ZeroDivisionError
  /\ pixelSetXYClip d x y colour = Ok d
  /\ pixelAddXYClip d x y colour = Ok d.
Proof.
  intros Hzero. unfold pixelSetXY, pixelAddXY, pixelSetXYClip, pixelAddXYClip, py_mod.
  rewrite off_canvas_test by lia.
  destruct (Z.eqb_spec (numLEDsX d) 0), (Z.eqb_spec (numLEDsY d) 0);
    try lia; repeat split.
Qed.

Lemma empty_canvas_setters_witness :
  pixelSetXY matrix4x4_none 0 0 0x102030 = Raise ZeroDivisionError
  /\ pixelAddXY matrix4x4_none 0 0 0x102030 = Raise ZeroDivisionError
  /\ pixelSetXYClip matrix4x4_none 0 0 0x102030 = Ok matrix4x4_none
  /\ pixelAddXYClip matrix4x4_none 0 0 0x102030 = Ok matrix4x4_none.
Proof.
  apply (empty_canvas_setters matrix4x4_none 0 0 0x102030). left. reflexivity.
Defined.

(** ** Filled rectangles on any canvas *)

Lemma rect_cells_in (d : device) (x0 y0 x1 y1 : Z) (k : nat) :
  In k (rect_cells d x0 y0 x1 y1)
  <-> exists x y, x0 <= x <= x1 /\ y0 <= y <= y1 /\ wrapped_cell d x y = k.
Proof.
  unfold rect_cells, range. rewrite in_flat_map. split.
  - intros (x & Hx & Hin). apply in_map_iff in Hin. destruct Hin as (y & Hk & Hy).
    apply list_elem_of_In, elem_of_seqZ in Hx.
    apply list_elem_of_In, elem_of_seqZ in Hy.
    exists x, y. split; [lia |]. split; [lia | exact Hk].
  - intros (x & y & Hx & Hy & Hk). exists x.
    split; [apply list_elem_of_In, elem_of_seqZ; lia |].
    apply in_map_iff. exists y.
    split; [exact Hk | apply list_elem_of_In, elem_of_seqZ; lia].
Qed.

(** X16: on any canvas whose remapping stays in the buffer,
    drawRectangleFill(x0, y0, x1, y1, colour) succeeds for all integer
    corners; afterwards a cell holds the colour if it is the wrapped cell of
    some (x, y) with x0 <= x <= x1 and y0 <= y <= y1, and its old value
    otherwise. *)
Theorem drawRectangleFill_cells (d : device) (x0 y0 x1 y1 colour : Z) :
  canvas_ok d -> 0 <= colour < 2 ^ 32 ->
  exists d',
    drawRectangleFill d x0 y0 x1 y1 colour = Ok d'
    /\ length (ar d') = length (ar d)
    /\ forall k : nat,
        ((exists x y, x0 <= x <= x1 /\ y0 <= y <= y1 /\ wrapped_cell d x y = k) ->
           ar d' !! k = Some colour)
        /\ ((forall x y, x0 <= x <= x1 -> y0 <= y <= y1 -> wrapped_cell d x y <> k) ->
            ar d' !! k = ar d !! k).
Proof.
  intros Hok Hc. eexists. split; [apply drawRectangleFill_writes; assumption |].
  rewrite ar_set_ar. split; [apply fill_cells_length |].
  intros k. split.
  - intros (x & y & Hx & Hy & Hk).
    apply fill_cells_written; [apply rect_cells_in; eauto |].
    subst k. pose proof (wrapped_cell_in_buffer d x y Hok).
    unfold wrapped_cell, cell. lia.
  - intros Hnone. apply fill_cells_untouched. rewrite rect_cells_in.
    intros (x & y & Hx & Hy & Hk). exact (Hnone x y Hx Hy Hk).
Qed.

Lemma drawRectangleFill_cells_witness :
  exists d',
    drawRectangleFill matrix8x8_1x2 14 6 17 9 0x102030 = Ok d'
    /\ length (ar d') = length (ar matrix8x8_1x2)
    /\ forall k : nat,
        ((exists x y, 14 <= x <= 17 /\ 6 <= y <= 9
                      /\ wrapped_cell matrix8x8_1x2 x y = k) ->
           ar d' !! k = Some 0x102030)
        /\ ((forall x y, 14 <= x <= 17 -> 6 <= y <= 9 ->
                         wrapped_cell matrix8x8_1x2 x y <> k) ->
            ar d' !! k = ar matrix8x8_1x2 !! k).
Proof.
  apply (drawRectangleFill_cells matrix8x8_1x2 14 6 17 9 0x102030).
  - exact (is_matrix8x8_canvas_ok 1 2 _ matrix8x8_1x2_geometry).
  - lia.
Defined.

(** X17: the corners are not put in order: when x1 < x0 or y1 < y0 the
    rectangle is empty and drawRectangleFill returns the device as it was,
    on any device and for any colour. *)
Theorem drawRectangleFill_empty (d : device) (x0 y0 x1 y1 colour : Z) :
  x1 < x0 \/ y1 < y0 ->
  drawRectangleFill d x0 y0 x1 y1 colour = Ok d.
Proof.
  intros Hempty. unfold drawRectangleFill, range.
  destruct (Z.lt_ge_cases x1 x0) as [Hx | Hx].
  - rewrite seqZ_nil by lia. reflexivity.
  - rewrite (seqZ_nil y0) by lia.
    induction (seqZ x0 (x1 + 1 - x0)) as [| x xs IH]; [reflexivity |].
    cbn [for_each bind]. exact IH.
Qed.

Lemma drawRectangleFill_empty_witness :
  drawRectangleFill matrix4x4_one 2 0 1 3 (-5) = Ok matrix4x4_one.
Proof. apply drawRectangleFill_empty. left. lia. Defined.

(** ** Drawing with the clipped setter *)

Lemma painted_nil (d : device) (colour : Z) : painted d colour [] = d.
Proof. unfold painted. simpl. apply set_ar_same. Qed.

Lemma painted_app (d : device) (colour : Z) (cs cs' : list nat) :
  painted (painted d colour cs) colour cs' = painted d colour (cs ++ cs').
Proof. unfold painted. rewrite ar_set_ar, fill_cells_app. reflexivity. Qed.

Lemma painted_canvas_ok (d : device) (colour : Z) (cs : list nat) :
  canvas_ok d -> canvas_ok (painted d colour cs).
Proof. intros Hok. apply canvas_ok_set_ar; [exact Hok | apply fill_cells_length]. Qed.

Lemma pixelSetXYClip_painted (d : device) (x y colour : Z) :
  canvas_ok d -> 0 <= colour < 2 ^ 32 ->
  pixelSetXYClip d x y colour = Ok (painted d colour (clip_cells d [(x, y)])).
Proof.
  intros Hok Hc. unfold pixelSetXYClip, clip_cells, on_canvas.
  cbn [flat_map fst snd].
  destruct ((0 <=? x) && (0 <=? y) && (x <? numLEDsX d) && (y <? numLEDsY d)) eqn:Hon.
  - destruct Hok as (_ & _ & Hin).
    rewrite !andb_true_iff in Hon. destruct Hon as (((Hx0 & Hy0) & Hx1) & Hy1).
    apply Z.leb_le in Hx0, Hy0. apply Z.ltb_lt in Hx1, Hy1.
    rewrite array_set_in_range by (try apply Hin; lia). reflexivity.
  - cbn [app]. rewrite painted_nil. reflexivity.
Qed.

(** A clipped write on an already painted device paints one more point. *)
Lemma pixelSetXYClip_more (d : device) (cs : list nat) (x y colour : Z) :
  canvas_ok d -> 0 <= colour < 2 ^ 32 ->
  pixelSetXYClip (painted d colour cs) x y colour
  = Ok (painted d colour (cs ++ clip_cells d [(x, y)])).
Proof.
  intros Hok Hc.
  rewrite pixelSetXYClip_painted by (try apply painted_canvas_ok; assumption).
  rewrite painted_app. reflexivity.
Qed.

Lemma clip_cells_app (d : device) (ps qs : list (Z * Z)) :
  clip_cells d (ps ++ qs) = clip_cells d ps ++ clip_cells d qs.
Proof. unfold clip_cells. apply flat_map_app. Qed.

Lemma clip_cells_in (d : device) (pts : list (Z * Z)) (k : nat) :
  In k (clip_cells d pts)
  <-> exists x y, In (x, y) pts
                  /\ 0 <= x < numLEDsX d /\ 0 <= y < numLEDsY d /\ cell d x y = k.
Proof.
  unfold clip_cells, on_canvas. rewrite in_flat_map. split.
  - intros ([x y] & Hin & Hk). cbn [fst snd] in Hk.
    destruct ((0 <=? x) && (0 <=? y) && (x <? numLEDsX d) && (y <? numLEDsY d)) eqn:Hon;
      [| destruct Hk].
    destruct Hk as [Hk | []].
    rewrite !andb_true_iff in Hon. destruct Hon as (((Hx0 & Hy0) & Hx1) & Hy1).
    apply Z.leb_le in Hx0, Hy0. apply Z.ltb_lt in Hx1, Hy1.
    exists x, y. repeat split; try assumption; lia.
  - intros (x & y & Hin & Hx & Hy & Hk). exists (x, y). split; [exact Hin |].
    cbn [fst snd]. rewrite on_canvas_test by assumption. left. exact Hk.
Qed.

(** What painting does to a cell: the colour if the cell is among the
    painted ones, its old value otherwise. *)
Lemma painted_lookup (d : device) (colour : Z) (cs : list nat) (k : nat) :
  (forall c, In c cs -> (c < length (ar d))%nat) ->
  (In k cs -> ar (painted d colour cs) !! k = Some colour)
  /\ (~ In k cs -> ar (painted d colour cs) !! k = ar d !! k).
Proof.
  intros Hin. unfold painted. rewrite ar_set_ar. split.
  - intros Hk. apply fill_cells_written; [exact Hk | apply Hin; exact Hk].
  - apply fill_cells_untouched.
Qed.

Lemma clip_cells_in_buffer (d : device) (pts : list (Z * Z)) :
  canvas_ok d -> forall c, In c (clip_cells d pts) -> (c < length (ar d))%nat.
Proof.
  intros (_ & _ & Hin) c Hc. apply clip_cells_in in Hc.
  destruct Hc as (x & y & _ & Hx & Hy & <-).
  specialize (Hin x y Hx Hy). unfold cell. lia.
Qed.

(** The loop of drawLine, run to its end, paints its points. *)
Lemma drawLine_loop_painted (colour : Z) (d : device) (steep : bool) (dx dy ystep : Z) :
  canvas_ok d -> 0 <= colour < 2 ^ 32 ->
  forall (n fuel : nat) (cs : list nat) (x0 y0 x1 err : Z),
    n = Z.to_nat (x1 - x0 + 1) -> (n < fuel)%nat ->
    drawLine_loop fuel (painted d colour cs) steep x0 y0 x1 dx dy err ystep colour
    = Some (Ok (painted d colour
                  (cs ++ clip_cells d (line_points n steep x0 y0 dx dy err ystep)))).
Proof.
  intros Hok Hc. induction n as [| n IH]; intros fuel cs x0 y0 x1 err Hn Hfuel;
    (destruct fuel as [| fuel]; [lia |]); cbn [drawLine_loop line_points].
  - destruct (Z.leb_spec x0 x1); [lia |].
    cbn [clip_cells flat_map]. rewrite app_nil_r. reflexivity.
  - destruct (Z.leb_spec x0 x1); [| lia].
    assert (Hwrite :
              (if steep then pixelSetXYClip (painted d colour cs) y0 x0 colour
               else pixelSetXYClip (painted d colour cs) x0 y0 colour)
              = Ok (painted d colour
                      (cs ++ clip_cells d [if steep then (y0, x0) else (x0, y0)]))).
    { destruct steep; apply pixelSetXYClip_more; assumption. }
    rewrite Hwrite.
    destruct (err - dy <? 0).
    + rewrite (IH fuel _ (x0 + 1) (y0 + ystep) x1 (err - dy + dx)) by lia.
      rewrite <- app_assoc, <- clip_cells_app. reflexivity.
    + rewrite (IH fuel _ (x0 + 1) y0 x1 (err - dy)) by lia.
      rewrite <- app_assoc, <- clip_cells_app. reflexivity.
Qed.

(** The number of rounds drawLine makes for given end points. *)
Lemma drawLine_span (x0 y0 x1 y1 : Z) :
  length (drawLine_points x0 y0 x1 y1)
  = Z.to_nat (Z.max (Z.abs (x1 - x0)) (Z.abs (y1 - y0)) + 1).
Proof.
  assert (Hlen : forall n steep a b dx dy err ystep,
             length (line_points n steep a b dx dy err ystep) = n).
  { induction n as [| n IH]; intros; cbn [line_points length]; [reflexivity |].
    destruct (err - dy <? 0); rewrite IH; reflexivity. }
  unfold drawLine_points.
  destruct (Z.gtb_spec (Z.abs (y1 - y0)) (Z.abs (x1 - x0))).
  - destruct (Z.gtb_spec y0 y1); rewrite Hlen; f_equal; lia.
  - destruct (Z.gtb_spec x0 x1); rewrite Hlen; f_equal; lia.
Qed.

Lemma drawLine_loop_fresh (colour : Z) (d : device) (steep : bool)
      (dx dy ystep : Z) (fuel : nat) (x0 y0 x1 err : Z) :
  canvas_ok d -> 0 <= colour < 2 ^ 32 ->
  (Z.to_nat (x1 - x0 + 1) < fuel)%nat ->
  drawLine_loop fuel d steep x0 y0 x1 dx dy err ystep colour
  = Some (Ok (painted d colour
                (clip_cells d (line_points (Z.to_nat (x1 - x0 + 1)) steep
                                           x0 y0 dx dy err ystep)))).
Proof.
  intros Hok Hc Hfuel.
  pose proof (drawLine_loop_painted colour d steep dx dy ystep Hok Hc
                _ fuel [] x0 y0 x1 err eq_refl Hfuel) as Hrun.
  rewrite painted_nil in Hrun. exact Hrun.
Qed.

Lemma drawLine_painted (fuel : nat) (d : device) (x0 y0 x1 y1 colour : Z) :
  canvas_ok d -> 0 <= colour < 2 ^ 32 ->
  Z.max (Z.abs (x1 - x0)) (Z.abs (y1 - y0)) + 1 < Z.of_nat fuel ->
  drawLine fuel d x0 y0 x1 y1 colour
  = Some (Ok (painted d colour (clip_cells d (drawLine_points x0 y0 x1 y1)))).
Proof.
  intros Hok Hc Hfuel. unfold drawLine, drawLine_points.
  destruct (Z.gtb_spec (Z.abs (y1 - y0)) (Z.abs (x1 - x0)));
    [destruct (Z.gtb_spec y0 y1) | destruct (Z.gtb_spec x0 x1)];
    apply drawLine_loop_fresh; try assumption; lia.
Qed.

(** The points of a run of the loop: the i-th has made j steps across,
    where j is fixed by the error term staying in [0, dx). *)
Lemma line_points_spec (steep : bool) (dx dy ystep : Z) :
  0 < dx -> 0 <= dy <= dx ->
  forall (n : nat) (x y err : Z) (p : Z * Z),
    0 <= err < dx ->
    In p (line_points n steep x y dx dy err ystep)
    <-> exists i j,
        0 <= i < Z.of_nat n /\ 0 <= j
        /\ 0 <= err - i * dy + j * dx < dx
        /\ p = (if steep then (y + ystep * j, x + i) else (x + i, y + ystep * j)).
Proof.
  intros Hdx Hdy. induction n as [| n IH]; intros x y err p Herr.
  - cbn [line_points]. split; [intros [] | intros (i & j & Hi & _); lia].
  - cbn [line_points In]. split.
    + intros [Hp | Hp].
      * exists 0, 0. split; [lia |]. split; [lia |]. split; [lia |].
        rewrite !Z.add_0_r, Z.mul_0_r, Z.add_0_r. symmetry. exact Hp.
      * destruct (Z.ltb_spec (err - dy) 0) as [Hneg | Hpos].
        -- apply IH in Hp; [| lia].
           destruct Hp as (i & j & Hi & Hj & He & ->).
           exists (i + 1), (j + 1). split; [lia |]. split; [lia |]. split; [nia |].
           destruct steep; f_equal; lia.
        -- apply IH in Hp; [| lia].
           destruct Hp as (i & j & Hi & Hj & He & ->).
           exists (i + 1), j. split; [lia |]. split; [lia |]. split; [nia |].
           destruct steep; f_equal; lia.
    + intros (i & j & Hi & Hj & He & ->).
      destruct (Z.eq_dec i 0) as [-> | Hne].
      * left. assert (j = 0) by nia. subst j.
        rewrite !Z.add_0_r, Z.mul_0_r, Z.add_0_r. reflexivity.
      * right. destruct (Z.ltb_spec (err - dy) 0) as [Hneg | Hpos].
        -- apply IH; [lia |].
           assert (Hj1 : 1 <= j) by nia.
           exists (i - 1), (j - 1). split; [lia |]. split; [lia |]. split; [nia |].
           destruct steep; f_equal; lia.
        -- apply IH; [lia |].
           exists (i - 1), j. split; [lia |]. split; [lia |]. split; [nia |].
           destruct steep; f_equal; lia.
Qed.

(** A line run along its major axis from [X0] to [X1]: it starts and ends
    on the two end points, stays in their bounding box and, when the minor
    coordinate is constant, visits every point of the segment. *)
Lemma major_line (steep : bool) (X0 Y0 X1 Y1 : Z) :
  X0 <= X1 -> Z.abs (Y1 - Y0) <= X1 - X0 ->
  let T := fun X Y : Z => if steep then (Y, X) else (X, Y) in
  let pts := line_points (Z.to_nat (X1 - X0 + 1)) steep X0 Y0 (X1 - X0)
               (Z.abs (Y1 - Y0)) (Z.shiftr (X1 - X0) 1)
               (if Y0 <? Y1 then 1 else -1) in
  In (T X0 Y0) pts /\ In (T X1 Y1) pts
  /\ (forall p, In p pts ->
        exists X Y, p = T X Y /\ X0 <= X <= X1
                    /\ Z.min Y0 Y1 <= Y <= Z.max Y0 Y1)
  /\ (Y0 = Y1 -> forall X, X0 <= X <= X1 -> In (T X Y0) pts).
Proof.
  intros HX HY T pts.
  destruct (Z.eq_dec X0 X1) as [Heq | Hne].
  - assert (HYeq : Y1 = Y0) by lia. subst X1 Y1.
    assert (Hpts : pts = [T X0 Y0]).
    { unfold pts, T. rewrite Z.sub_diag.
      change (Z.to_nat (0 + 1)) with 1%nat. cbn [line_points].
      destruct (Z.shiftr 0 1 - Z.abs (Y0 - Y0) <? 0); destruct steep; reflexivity. }
    rewrite Hpts. cbn [In].
    split; [left; reflexivity |]. split; [left; reflexivity |]. split.
    + intros p [<- | []]. exists X0, Y0. split; [reflexivity | lia].
    + intros _ X HXr. left. f_equal. lia.
  - assert (Hdx : 0 < X1 - X0) by lia.
    assert (Herr : 0 <= Z.shiftr (X1 - X0) 1 < X1 - X0).
    { rewrite Z.shiftr_div_pow2 by lia. change (2 ^ 1) with 2.
      Z.div_mod_to_equations. lia. }
    assert (Hspec := fun p =>
              line_points_spec steep (X1 - X0) (Z.abs (Y1 - Y0))
                (if Y0 <? Y1 then 1 else -1) Hdx ltac:(lia)
                (Z.to_nat (X1 - X0 + 1)) X0 Y0 (Z.shiftr (X1 - X0) 1) p Herr).
    fold pts in Hspec.
    split; [| split; [| split]].
    + apply Hspec. exists 0, 0. split; [lia |]. split; [lia |]. split; [lia |].
      unfold T. rewrite !Z.add_0_r, Z.mul_0_r, Z.add_0_r. reflexivity.
    + apply Hspec. exists (X1 - X0), (Z.abs (Y1 - Y0)).
      split; [lia |]. split; [lia |]. split; [nia |].
      unfold T. destruct (Z.ltb_spec Y0 Y1); destruct steep; f_equal; lia.
    + intros p Hp. apply Hspec in Hp. destruct Hp as (i & j & Hi & Hj & He & ->).
      assert (Hjmax : j <= Z.abs (Y1 - Y0)) by nia.
      exists (X0 + i), (Y0 + (if Y0 <? Y1 then 1 else -1) * j).
      split; [unfold T; destruct steep; reflexivity |]. split; [lia |].
      destruct (Z.ltb_spec Y0 Y1); lia.
    + intros HYeq X HXr. apply Hspec. exists (X - X0), 0.
      split; [lia |]. split; [lia |]. split; [nia |].
      unfold T. destruct steep; f_equal; lia.
Qed.

(** The same facts for the points of drawLine, whichever way round the end
    points are given and whichever axis is the major one. *)
Lemma drawLine_points_facts (x0 y0 x1 y1 : Z) :
  In (x0, y0) (drawLine_points x0 y0 x1 y1)
  /\ In (x1, y1) (drawLine_points x0 y0 x1 y1)
  /\ (forall x y, In (x, y) (drawLine_points x0 y0 x1 y1) ->
        Z.min x0 x1 <= x <= Z.max x0 x1 /\ Z.min y0 y1 <= y <= Z.max y0 y1)
  /\ (y0 = y1 -> forall x, Z.min x0 x1 <= x <= Z.max x0 x1 ->
        In (x, y0) (drawLine_points x0 y0 x1 y1))
  /\ (x0 = x1 -> forall y, Z.min y0 y1 <= y <= Z.max y0 y1 ->
        In (x0, y) (drawLine_points x0 y0 x1 y1)).
Proof.
  unfold drawLine_points.
  destruct (Z.gtb_spec (Z.abs (y1 - y0)) (Z.abs (x1 - x0))) as [Hsteep | Hflat].
  - destruct (Z.gtb_spec y0 y1) as [Hswap | Hkeep].
    + destruct (major_line true y1 x1 y0 x0 ltac:(lia) ltac:(lia))
        as (Hend & Hstart & Hbox & Hseg).
      cbn beta iota in Hend, Hstart, Hbox, Hseg.
      split; [exact Hstart |]. split; [exact Hend |]. split; [| split].
      * intros x y Hp. destruct (Hbox _ Hp) as (X & Y & Heq & HXr & HYr).
        injection Heq as -> ->. lia.
      * intros Hy. lia.
      * intros Hx y Hy. subst x1. apply (Hseg eq_refl). lia.
    + destruct (major_line true y0 x0 y1 x1 ltac:(lia) ltac:(lia))
        as (Hstart & Hend & Hbox & Hseg).
      cbn beta iota in Hend, Hstart, Hbox, Hseg.
      split; [exact Hstart |]. split; [exact Hend |]. split; [| split].
      * intros x y Hp. destruct (Hbox _ Hp) as (X & Y & Heq & HXr & HYr).
        injection Heq as -> ->. lia.
      * intros Hy. lia.
      * intros Hx y Hy. apply (Hseg Hx). lia.
  - destruct (Z.gtb_spec x0 x1) as [Hswap | Hkeep].
    + destruct (major_line false x1 y1 x0 y0 ltac:(lia) ltac:(lia))
        as (Hend & Hstart & Hbox & Hseg).
      cbn beta iota in Hend, Hstart, Hbox, Hseg.
      split; [exact Hstart |]. split; [exact Hend |]. split; [| split].
      * intros x y Hp. destruct (Hbox _ Hp) as (X & Y & Heq & HXr & HYr).
        injection Heq as -> ->. lia.
      * intros Hy x Hx. subst y1. apply (Hseg eq_refl). lia.
      * intros Hx. lia.
    + destruct (major_line false x0 y0 x1 y1 ltac:(lia) ltac:(lia))
        as (Hstart & Hend & Hbox & Hseg).
      cbn beta iota in Hend, Hstart, Hbox, Hseg.
      split; [exact Hstart |]. split; [exact Hend |]. split; [| split].
      * intros x y Hp. destruct (Hbox _ Hp) as (X & Y & Heq & HXr & HYr).
        injection Heq as -> ->. lia.
      * intros Hy x Hx. apply (Hseg Hy). lia.
      * intros Hx y Hy. assert (y1 = y0) by lia. subst x1 y1.
        assert (y = y0) by lia. subst y. exact Hstart.
Qed.

(** ** Lines *)

(** X18: on a canvas whose remapping stays in the buffer, drawLine ends
    within max(|x1 - x0|, |y1 - y0|) + 1 rounds of its loop for any integer
    end points and never raises; the buffer keeps its length, a cell ends with
    the colour or with its old value, and only cells of canvas points in
    the bounding box of the two end points can change. *)
Theorem drawLine_safe (fuel : nat) (d : device) (x0 y0 x1 y1 colour : Z) :
  canvas_ok d -> 0 <= colour < 2 ^ 32 ->
  Z.max (Z.abs (x1 - x0)) (Z.abs (y1 - y0)) + 1 < Z.of_nat fuel ->
  exists d',
    drawLine fuel d x0 y0 x1 y1 colour = Some (Ok d')
    /\ length (ar d') = length (ar d)
    /\ forall k : nat,
        (ar d' !! k = Some colour \/ ar d' !! k = ar d !! k)
        /\ ((forall x y,
                Z.min x0 x1 <= x <= Z.max x0 x1 -> Z.min y0 y1 <= y <= Z.max y0 y1 ->
                0 <= x < numLEDsX d -> 0 <= y < numLEDsY d -> cell d x y <> k) ->
            ar d' !! k = ar d !! k).
Proof.
  intros Hok Hc Hfuel.
  exists (painted d colour (clip_cells d (drawLine_points x0 y0 x1 y1))).
  split; [apply drawLine_painted; assumption |].
  split; [unfold painted; rewrite ar_set_ar; apply fill_cells_length |].
  intros k.
  destruct (painted_lookup d colour _ k
              (clip_cells_in_buffer d (drawLine_points x0 y0 x1 y1) Hok))
    as [Hin Hout].
  destruct (drawLine_points_facts x0 y0 x1 y1) as (_ & _ & Hbox & _).
  split.
  - destruct (in_dec Nat.eq_dec k (clip_cells d (drawLine_points x0 y0 x1 y1)));
      [left; apply Hin | right; apply Hout]; assumption.
  - intros Hnone. apply Hout. intros Hk. apply clip_cells_in in Hk.
    destruct Hk as (x & y & Hp & Hx & Hy & Hcell).
    destruct (Hbox x y Hp) as [Hbx Hby].
    exact (Hnone x y Hbx Hby Hx Hy Hcell).
Qed.

Lemma drawLine_safe_witness :
  exists d',
    drawLine 6 matrix4x4_one (-1) 0 2 3 0x102030 = Some (Ok d')
    /\ length (ar d') = length (ar matrix4x4_one)
    /\ forall k : nat,
        (ar d' !! k = Some 0x102030 \/ ar d' !! k = ar matrix4x4_one !! k)
        /\ ((forall x y,
                Z.min (-1) 2 <= x <= Z.max (-1) 2 -> Z.min 0 3 <= y <= Z.max 0 3 ->
                0 <= x < numLEDsX matrix4x4_one -> 0 <= y < numLEDsY matrix4x4_one ->
                cell matrix4x4_one x y <> k) ->
            ar d' !! k = ar matrix4x4_one !! k).
Proof.
  apply (drawLine_safe 6 matrix4x4_one (-1) 0 2 3 0x102030).
  - exact (is_matrix4x4_canvas_ok 1 _ matrix4x4_one_geometry).
  - lia.
  - lia.
Defined.

(** X19: drawLine colours both of its end points: after the call the cell
    of each end point that lies on the canvas holds the colour. *)
Theorem drawLine_end_points (fuel : nat) (d : device) (x0 y0 x1 y1 colour : Z) :
  canvas_ok d -> 0 <= colour < 2 ^ 32 ->
  Z.max (Z.abs (x1 - x0)) (Z.abs (y1 - y0)) + 1 < Z.of_nat fuel ->
  exists d',
    drawLine fuel d x0 y0 x1 y1 colour = Some (Ok d')
    /\ (0 <= x0 < numLEDsX d -> 0 <= y0 < numLEDsY d ->
        ar d' !! cell d x0 y0 = Some colour)
    /\ (0 <= x1 < numLEDsX d -> 0 <= y1 < numLEDsY d ->
        ar d' !! cell d x1 y1 = Some colour).
Proof.
  intros Hok Hc Hfuel.
  exists (painted d colour (clip_cells d (drawLine_points x0 y0 x1 y1))).
  split; [apply drawLine_painted; assumption |].
  destruct (drawLine_points_facts x0 y0 x1 y1) as (Hstart & Hend & _).
  split; intros Hx Hy;
    apply (painted_lookup d colour _ _
             (clip_cells_in_buffer d (drawLine_points x0 y0 x1 y1) Hok));
    apply clip_cells_in; eauto 10.
Qed.

Lemma drawLine_end_points_witness :
  exists d',
    drawLine 6 matrix4x4_one 0 1 3 2 0x102030 = Some (Ok d')
    /\ (0 <= 0 < numLEDsX matrix4x4_one -> 0 <= 1 < numLEDsY matrix4x4_one ->
        ar d' !! cell matrix4x4_one 0 1 = Some 0x102030)
    /\ (0 <= 3 < numLEDsX matrix4x4_one -> 0 <= 2 < numLEDsY matrix4x4_one ->
        ar d' !! cell matrix4x4_one 3 2 = Some 0x102030).
Proof.
  apply (drawLine_end_points 6 matrix4x4_one 0 1 3 2 0x102030).
  - exact (is_matrix4x4_canvas_ok 1 _ matrix4x4_one_geometry).
  - lia.
  - lia.
Defined.

(** X20: a line along an axis covers its segment exactly.  With y0 = y1
    (or x0 = x1) a cell holds the colour afterwards if it is the cell of a
    canvas point of the segment between the end points, given in either
    order, and keeps its old value otherwise. *)
Theorem drawLine_axis (fuel : nat) (d : device) (x0 y0 x1 y1 colour : Z) :
  canvas_ok d -> 0 <= colour < 2 ^ 32 ->
  Z.max (Z.abs (x1 - x0)) (Z.abs (y1 - y0)) + 1 < Z.of_nat fuel ->
  x0 = x1 \/ y0 = y1 ->
  exists d',
    drawLine fuel d x0 y0 x1 y1 colour = Some (Ok d')
    /\ forall k : nat,
        ((exists x y,
             Z.min x0 x1 <= x <= Z.max x0 x1 /\ Z.min y0 y1 <= y <= Z.max y0 y1
             /\ 0 <= x < numLEDsX d /\ 0 <= y < numLEDsY d /\ cell d x y = k) ->
           ar d' !! k = Some colour)
        /\ ((forall x y,
                Z.min x0 x1 <= x <= Z.max x0 x1 -> Z.min y0 y1 <= y <= Z.max y0 y1 ->
                0 <= x < numLEDsX d -> 0 <= y < numLEDsY d -> cell d x y <> k) ->
            ar d' !! k = ar d !! k).
Proof.
  intros Hok Hc Hfuel Haxis.
  exists (painted d colour (clip_cells d (drawLine_points x0 y0 x1 y1))).
  split; [apply drawLine_painted; assumption |].
  intros k.
  destruct (painted_lookup d colour _ k
              (clip_cells_in_buffer d (drawLine_points x0 y0 x1 y1) Hok))
    as [Hin Hout].
  destruct (drawLine_points_facts x0 y0 x1 y1) as (_ & _ & Hbox & Hhor & Hver).
  split.
  - intros (x & y & Hbx & Hby & Hx & Hy & Hcell).
    apply Hin, clip_cells_in. exists x, y. split; [| auto].
    destruct Haxis as [Heq | Heq].
    + assert (x = x0) by lia. subst x. apply (Hver Heq). exact Hby.
    + assert (y = y0) by lia. subst y. apply (Hhor Heq). exact Hbx.
  - intros Hnone. apply Hout. intros Hk. apply clip_cells_in in Hk.
    destruct Hk as (x & y & Hp & Hx & Hy & Hcell).
    destruct (Hbox x y Hp) as [Hbx Hby].
    exact (Hnone x y Hbx Hby Hx Hy Hcell).
Qed.

Lemma drawLine_axis_witness :
  exists d',
    drawLine 7 matrix4x4_one 5 2 1 2 0x102030 = Some (Ok d')
    /\ forall k : nat,
        ((exists x y,
             Z.min 5 1 <= x <= Z.max 5 1 /\ Z.min 2 2 <= y <= Z.max 2 2
             /\ 0 <= x < numLEDsX matrix4x4_one /\ 0 <= y < numLEDsY matrix4x4_one
             /\ cell matrix4x4_one x y = k) ->
           ar d' !! k = Some 0x102030)
        /\ ((forall x y,
                Z.min 5 1 <= x <= Z.max 5 1 -> Z.min 2 2 <= y <= Z.max 2 2 ->
                0 <= x < numLEDsX matrix4x4_one -> 0 <= y < numLEDsY matrix4x4_one ->
                cell matrix4x4_one x y <> k) ->
            ar d' !! k = ar matrix4x4_one !! k).
Proof.
  apply (drawLine_axis 7 matrix4x4_one 5 2 1 2 0x102030).
  - exact (is_matrix4x4_canvas_ok 1 _ matrix4x4_one_geometry).
  - lia.
  - lia.
  - right. reflexivity.
Defined.

(** ** Outlines *)

Lemma drawLine_more (fuel : nat) (d : device) (cs : list nat)
      (x0 y0 x1 y1 colour : Z) :
  canvas_ok d -> 0 <= colour < 2 ^ 32 ->
  Z.max (Z.abs (x1 - x0)) (Z.abs (y1 - y0)) + 1 < Z.of_nat fuel ->
  drawLine fuel (painted d colour cs) x0 y0 x1 y1 colour
  = Some (Ok (painted d colour (cs ++ clip_cells d (drawLine_points x0 y0 x1 y1)))).
Proof.
  intros Hok Hc Hfuel.
  rewrite drawLine_painted by (try apply painted_canvas_ok; assumption).
  rewrite painted_app. reflexivity.
Qed.

(** X21: drawRectangle draws the outline.  Afterwards a cell holds the
    colour if it is the cell of a canvas point in the bounding box of the
    two corners that lies on one of its four sides, and its old value
    otherwise; the corners may be given in any order. *)
Theorem drawRectangle_outline (fuel : nat) (d : device) (x0 y0 x1 y1 colour : Z) :
  canvas_ok d -> 0 <= colour < 2 ^ 32 ->
  Z.max (Z.abs (x1 - x0)) (Z.abs (y1 - y0)) + 1 < Z.of_nat fuel ->
  exists d',
    drawRectangle fuel d x0 y0 x1 y1 colour = Some (Ok d')
    /\ length (ar d') = length (ar d)
    /\ forall k : nat,
        ((exists x y,
             Z.min x0 x1 <= x <= Z.max x0 x1 /\ Z.min y0 y1 <= y <= Z.max y0 y1
             /\ (x = x0 \/ x = x1 \/ y = y0 \/ y = y1)
             /\ 0 <= x < numLEDsX d /\ 0 <= y < numLEDsY d /\ cell d x y = k) ->
           ar d' !! k = Some colour)
        /\ ((forall x y,
                Z.min x0 x1 <= x <= Z.max x0 x1 -> Z.min y0 y1 <= y <= Z.max y0 y1 ->
                x = x0 \/ x = x1 \/ y = y0 \/ y = y1 ->
                0 <= x < numLEDsX d -> 0 <= y < numLEDsY d -> cell d x y <> k) ->
            ar d' !! k = ar d !! k).
Proof.
  intros Hok Hc Hfuel.
  set (top := drawLine_points x0 y0 x1 y0).
  set (right := drawLine_points x1 y0 x1 y1).
  set (bottom := drawLine_points x1 y1 x0 y1).
  set (left := drawLine_points x0 y1 x0 y0).
  set (pts := top ++ right ++ bottom ++ left).
  assert (Hrun : drawRectangle fuel d x0 y0 x1 y1 colour
                 = Some (Ok (painted d colour (clip_cells d pts)))).
  { unfold drawRectangle.
    rewrite drawLine_painted by (try assumption; lia). cbn [and_then].
    rewrite drawLine_more by (try assumption; lia). cbn [and_then].
    rewrite drawLine_more by (try assumption; lia). cbn [and_then].
    rewrite drawLine_more by (try assumption; lia).
    unfold pts. rewrite !clip_cells_app, <- !app_assoc. reflexivity. }
  exists (painted d colour (clip_cells d pts)).
  split; [exact Hrun |].
  split; [unfold painted; rewrite ar_set_ar; apply fill_cells_length |].
  intros k.
  destruct (painted_lookup d colour _ k (clip_cells_in_buffer d pts Hok)) as [Hin Hout].
  destruct (drawLine_points_facts x0 y0 x1 y0) as (_ & _ & Hbox1 & Hseg1 & _).
  destruct (drawLine_points_facts x1 y0 x1 y1) as (_ & _ & Hbox2 & _ & Hseg2).
  destruct (drawLine_points_facts x1 y1 x0 y1) as (_ & _ & Hbox3 & Hseg3 & _).
  destruct (drawLine_points_facts x0 y1 x0 y0) as (_ & _ & Hbox4 & _ & Hseg4).
  fold top in Hbox1, Hseg1. fold right in Hbox2, Hseg2.
  fold bottom in Hbox3, Hseg3. fold left in Hbox4, Hseg4.
  split.
  - intros (x & y & Hbx & Hby & Hside & Hx & Hy & Hcell).
    apply Hin, clip_cells_in. exists x, y. split; [| auto].
    unfold pts. rewrite !in_app_iff.
    destruct Hside as [-> | [-> | [-> | ->]]].
    + do 3 right. apply (Hseg4 eq_refl). lia.
    + right. left. apply (Hseg2 eq_refl). lia.
    + left. apply (Hseg1 eq_refl). lia.
    + do 2 right. left. apply (Hseg3 eq_refl). lia.
  - intros Hnone. apply Hout. intros Hk. apply clip_cells_in in Hk.
    destruct Hk as (x & y & Hp & Hx & Hy & Hcell).
    unfold pts in Hp. rewrite !in_app_iff in Hp.
    destruct Hp as [Hp | [Hp | [Hp | Hp]]].
    + destruct (Hbox1 x y Hp). apply (Hnone x y); try assumption; lia.
    + destruct (Hbox2 x y Hp). apply (Hnone x y); try assumption; lia.
    + destruct (Hbox3 x y Hp). apply (Hnone x y); try assumption; lia.
    + destruct (Hbox4 x y Hp). apply (Hnone x y); try assumption; lia.
Qed.

Lemma drawRectangle_outline_witness :
  exists d',
    drawRectangle 5 matrix4x4_one 0 0 2 2 0x102030 = Some (Ok d')
    /\ length (ar d') = length (ar matrix4x4_one)
    /\ forall k : nat,
        ((exists x y,
             Z.min 0 2 <= x <= Z.max 0 2 /\ Z.min 0 2 <= y <= Z.max 0 2
             /\ (x = 0 \/ x = 2 \/ y = 0 \/ y = 2)
             /\ 0 <= x < numLEDsX matrix4x4_one /\ 0 <= y < numLEDsY matrix4x4_one
             /\ cell matrix4x4_one x y = k) ->
           ar d' !! k = Some 0x102030)
        /\ ((forall x y,
                Z.min 0 2 <= x <= Z.max 0 2 -> Z.min 0 2 <= y <= Z.max 0 2 ->
                x = 0 \/ x = 2 \/ y = 0 \/ y = 2 ->
                0 <= x < numLEDsX matrix4x4_one -> 0 <= y < numLEDsY matrix4x4_one ->
                cell matrix4x4_one x y <> k) ->
            ar d' !! k = ar matrix4x4_one !! k).
Proof.
  apply (drawRectangle_outline 5 matrix4x4_one 0 0 2 2 0x102030).
  - exact (is_matrix4x4_canvas_ok 1 _ matrix4x4_one_geometry).
  - lia.
  - lia.
Defined.

(** X22: drawTriangle colours its three corners: after the call the cell
    of each corner that lies on the canvas holds the colour, and the buffer
    keeps its length. *)
Theorem drawTriangle_corners
  (fuel : nat) (d : device) (x0 y0 x1 y1 x2 y2 colour : Z) :
  canvas_ok d -> 0 <= colour < 2 ^ 32 ->
  Z.max (Z.abs (x1 - x0)) (Z.abs (y1 - y0)) + 1 < Z.of_nat fuel ->
  Z.max (Z.abs (x2 - x1)) (Z.abs (y2 - y1)) + 1 < Z.of_nat fuel ->
  Z.max (Z.abs (x0 - x2)) (Z.abs (y0 - y2)) + 1 < Z.of_nat fuel ->
  exists d',
    drawTriangle fuel d x0 y0 x1 y1 x2 y2 colour = Some (Ok d')
    /\ length (ar d') = length (ar d)
    /\ forall x y,
        (x, y) = (x0, y0) \/ (x, y) = (x1, y1) \/ (x, y) = (x2, y2) ->
        0 <= x < numLEDsX d -> 0 <= y < numLEDsY d ->
        ar d' !! cell d x y = Some colour.
Proof.
  intros Hok Hc Hf1 Hf2 Hf3.
  set (pts := drawLine_points x0 y0 x1 y1 ++ drawLine_points x1 y1 x2 y2
              ++ drawLine_points x2 y2 x0 y0).
  exists (painted d colour (clip_cells d pts)).
  split; [| split].
  - unfold drawTriangle.
    rewrite drawLine_painted by assumption. cbn [and_then].
    rewrite drawLine_more by assumption. cbn [and_then].
    rewrite drawLine_more by assumption.
    unfold pts. rewrite !clip_cells_app, <- !app_assoc. reflexivity.
  - unfold painted. rewrite ar_set_ar. apply fill_cells_length.
  - intros x y Hcorner Hx Hy.
    apply (painted_lookup d colour _ _ (clip_cells_in_buffer d pts Hok)).
    apply clip_cells_in. exists x, y. split; [| auto].
    unfold pts. rewrite !in_app_iff.
    destruct (drawLine_points_facts x0 y0 x1 y1) as (H0 & H1 & _).
    destruct (drawLine_points_facts x1 y1 x2 y2) as (_ & H2 & _).
    destruct Hcorner as [Heq | [Heq | Heq]]; rewrite Heq; auto.
Qed.

Lemma drawTriangle_corners_witness :
  exists d',
    drawTriangle 6 matrix4x4_one 0 0 3 1 1 3 0x102030 = Some (Ok d')
    /\ length (ar d') = length (ar matrix4x4_one)
    /\ forall x y,
        (x, y) = (0, 0) \/ (x, y) = (3, 1) \/ (x, y) = (1, 3) ->
        0 <= x < numLEDsX matrix4x4_one -> 0 <= y < numLEDsY matrix4x4_one ->
        ar d' !! cell matrix4x4_one x y = Some 0x102030.
Proof.
  apply (drawTriangle_corners 6 matrix4x4_one 0 0 3 1 1 3 0x102030).
  - exact (is_matrix4x4_canvas_ok 1 _ matrix4x4_one_geometry).
  - lia.
  - lia.
  - lia.
  - lia.
Defined.

(** ** Circles *)

Lemma clip_cells_cons (d : device) (p q : Z * Z) (ps : list (Z * Z)) :
  clip_cells d (p :: q :: ps) = clip_cells d [p] ++ clip_cells d (q :: ps).
Proof. exact (clip_cells_app d [p] (q :: ps)). Qed.

(** The loop of drawCircle, run to its end, paints its points; [y - x]
    bounds the number of rounds left. *)
Lemma drawCircle_loop_painted (colour : Z) (d : device) (x0 y0 : Z) :
  canvas_ok d -> 0 <= colour < 2 ^ 32 ->
  forall (fuel : nat) (cs : list nat) (x y f ddf_x ddf_y : Z),
    (Z.to_nat (y - x) < fuel)%nat ->
    drawCircle_loop fuel (painted d colour cs) x0 y0 x y f ddf_x ddf_y colour
    = Some (Ok (painted d colour
                  (cs ++ clip_cells d (circle_points fuel x0 y0 x y f ddf_x ddf_y)))).
Proof.
  intros Hok Hc. induction fuel as [| fuel IH]; intros cs x y f ddf_x ddf_y Hfuel;
    [lia |].
  cbn [drawCircle_loop circle_points].
  destruct (Z.ltb_spec x y) as [Hlt | Hge].
  - destruct (f >=? 0);
      repeat (rewrite pixelSetXYClip_more by assumption; cbn [bind]);
      rewrite IH by lia;
      rewrite clip_cells_app, !clip_cells_cons, <- !app_assoc; reflexivity.
  - cbn [clip_cells flat_map]. rewrite app_nil_r. reflexivity.
Qed.

Lemma drawCircle_painted (fuel : nat) (d : device) (x0 y0 r colour : Z) :
  canvas_ok d -> 0 <= colour < 2 ^ 32 -> (Z.to_nat r < fuel)%nat ->
  drawCircle fuel d x0 y0 r colour
  = Some (Ok (painted d colour (clip_cells d (drawCircle_points fuel x0 y0 r)))).
Proof.
  intros Hok Hc Hfuel. unfold drawCircle, drawCircle_points.
  rewrite pixelSetXYClip_painted by assumption. cbn [bind].
  repeat (rewrite pixelSetXYClip_more by assumption; cbn [bind]).
  rewrite drawCircle_loop_painted by (try assumption; lia).
  rewrite clip_cells_app, !clip_cells_cons, <- !app_assoc. reflexivity.
Qed.

(** No point of the loop is further than [R] from the centre along either
    axis, when the loop starts with [0 <= x] and [y <= R]. *)
Lemma circle_points_box (x0 y0 R : Z) :
  forall (n : nat) (x y f ddf_x ddf_y : Z) (p : Z * Z),
    0 <= x -> y <= R ->
    In p (circle_points n x0 y0 x y f ddf_x ddf_y) ->
    Z.abs (fst p - x0) <= R /\ Z.abs (snd p - y0) <= R.
Proof.
  induction n as [| n IH]; intros x y f ddf_x ddf_y p Hx Hy; cbn [circle_points];
    [intros [] |].
  destruct (Z.ltb_spec x y) as [Hlt | Hge]; [| intros []].
  destruct (f >=? 0); intros Hp; apply in_app_iff in Hp;
    (destruct Hp as [Hp | Hp];
     [ cbn [In] in Hp;
       repeat (destruct Hp as [<- | Hp]; [cbn [fst snd]; lia |]); destruct Hp
     | apply IH in Hp; [exact Hp | lia | lia] ]).
Qed.

Lemma pixelSetXYClip_again (d d1 : device) (x y colour : Z) :
  pixelSetXYClip d x y colour = Ok d1 -> pixelSetXYClip d1 x y colour = Ok d1.
Proof.
  unfold pixelSetXYClip.
  destruct ((0 <=? x) && (0 <=? y) && (x <? numLEDsX d) && (y <? numLEDsY d)) eqn:Hon.
  - destruct (array_set (ar d) (call_remap d x y) colour) as [a |] eqn:Hset;
      [| discriminate].
    cbn [bind]. intros Heq. injection Heq as <-.
    cbn [numLEDsX numLEDsY set_ar]. rewrite Hon.
    change (call_remap (set_ar d a) x y) with (call_remap d x y).
    rewrite ar_set_ar.
    assert (Hsame : array_set a (call_remap d x y) colour = Ok a).
    { pose proof (array_set_length _ _ _ _ Hset) as Hlen.
      unfold array_set in *. rewrite Hlen.
      destruct (array_index (length (ar d)) (call_remap d x y)) as [n |];
        [| discriminate].
      cbn [bind] in *.
      destruct ((0 <=? colour) && (colour <? 2 ^ 32)); [| discriminate].
      injection Hset as <-. rewrite list_insert_insert_eq. reflexivity. }
    rewrite Hsame. reflexivity.
  - intros Heq. injection Heq as <-. rewrite Hon. reflexivity.
Qed.

(** X23: a circle of radius 0 is one clipped write of its centre, on any
    device and for any colour, once the loop is given a single round to
    find that it has nothing to do. *)
Theorem drawCircle_radius_0 (fuel : nat) (d : device) (x0 y0 colour : Z) :
  drawCircle (S fuel) d x0 y0 0 colour = Some (pixelSetXYClip d x0 y0 colour).
Proof.
  unfold drawCircle. rewrite !Z.add_0_r, !Z.sub_0_r.
  destruct (pixelSetXYClip d x0 y0 colour) as [d1 | e] eqn:Hfirst; [| reflexivity].
  cbn [bind]. pose proof (pixelSetXYClip_again _ _ _ _ _ Hfirst) as Hagain.
  repeat (rewrite Hagain; cbn [bind]).
  reflexivity.
Qed.

(** X24: on a canvas whose remapping stays in the buffer, drawCircle ends
    within r + 1 rounds of its loop for any centre and radius and never
    raises; the buffer keeps its length, the four points at distance r from
    the centre along the axes hold the colour when they are on the canvas,
    and only cells of canvas points of the square of half-side |r| around
    the centre can change. *)
Theorem drawCircle_safe (fuel : nat) (d : device) (x0 y0 r colour : Z) :
  canvas_ok d -> 0 <= colour < 2 ^ 32 -> (Z.to_nat r < fuel)%nat ->
  exists d',
    drawCircle fuel d x0 y0 r colour = Some (Ok d')
    /\ length (ar d') = length (ar d)
    /\ (forall x y,
          (x, y) = (x0, y0 + r) \/ (x, y) = (x0, y0 - r)
          \/ (x, y) = (x0 + r, y0) \/ (x, y) = (x0 - r, y0) ->
          0 <= x < numLEDsX d -> 0 <= y < numLEDsY d ->
          ar d' !! cell d x y = Some colour)
    /\ forall k : nat,
        (ar d' !! k = Some colour \/ ar d' !! k = ar d !! k)
        /\ ((forall x y,
                Z.abs (x - x0) <= Z.abs r -> Z.abs (y - y0) <= Z.abs r ->
                0 <= x < numLEDsX d -> 0 <= y < numLEDsY d -> cell d x y <> k) ->
            ar d' !! k = ar d !! k).
Proof.
  intros Hok Hc Hfuel.
  set (pts := drawCircle_points fuel x0 y0 r).
  exists (painted d colour (clip_cells d pts)).
  split; [apply drawCircle_painted; assumption |].
  split; [unfold painted; rewrite ar_set_ar; apply fill_cells_length |].
  split.
  - intros x y Haxis Hx Hy.
    apply (painted_lookup d colour _ _ (clip_cells_in_buffer d pts Hok)).
    apply clip_cells_in. exists x, y. split; [| auto].
    unfold pts, drawCircle_points. apply in_app_iff. left. cbn [In].
    destruct Haxis as [-> | [-> | [-> | ->]]]; auto.
  - intros k.
    destruct (painted_lookup d colour _ k (clip_cells_in_buffer d pts Hok))
      as [Hin Hout].
    split.
    + destruct (in_dec Nat.eq_dec k (clip_cells d pts));
        [left; apply Hin | right; apply Hout]; assumption.
    + intros Hnone. apply Hout. intros Hk. apply clip_cells_in in Hk.
      destruct Hk as (x & y & Hp & Hx & Hy & Hcell).
      apply (Hnone x y); try assumption.
      * unfold pts, drawCircle_points in Hp. apply in_app_iff in Hp.
        destruct Hp as [Hp | Hp].
        -- cbn [In] in Hp.
           repeat (destruct Hp as [Hp | Hp]; [injection Hp as <- <-; lia |]).
           destruct Hp.
        -- apply (circle_points_box x0 y0 (Z.abs r)) in Hp; [| lia | lia].
           cbn [fst snd] in Hp. lia.
      * unfold pts, drawCircle_points in Hp. apply in_app_iff in Hp.
        destruct Hp as [Hp | Hp].
        -- cbn [In] in Hp.
           repeat (destruct Hp as [Hp | Hp]; [injection Hp as <- <-; lia |]).
           destruct Hp.
        -- apply (circle_points_box x0 y0 (Z.abs r)) in Hp; [| lia | lia].
           cbn [fst snd] in Hp. lia.
Qed.

Lemma drawCircle_safe_witness :
  exists d',
    drawCircle 3 matrix8x8_1x2 7 4 2 0x102030 = Some (Ok d')
    /\ length (ar d') = length (ar matrix8x8_1x2)
    /\ (forall x y,
          (x, y) = (7, 4 + 2) \/ (x, y) = (7, 4 - 2)
          \/ (x, y) = (7 + 2, 4) \/ (x, y) = (7 - 2, 4) ->
          0 <= x < numLEDsX matrix8x8_1x2 -> 0 <= y < numLEDsY matrix8x8_1x2 ->
          ar d' !! cell matrix8x8_1x2 x y = Some 0x102030)
    /\ forall k : nat,
        (ar d' !! k = Some 0x102030 \/ ar d' !! k = ar matrix8x8_1x2 !! k)
        /\ ((forall x y,
                Z.abs (x - 7) <= Z.abs 2 -> Z.abs (y - 4) <= Z.abs 2 ->
                0 <= x < numLEDsX matrix8x8_1x2 -> 0 <= y < numLEDsY matrix8x8_1x2 ->
                cell matrix8x8_1x2 x y <> k) ->
            ar d' !! k = ar matrix8x8_1x2 !! k).
Proof.
  apply (drawCircle_safe 3 matrix8x8_1x2 7 4 2 0x102030).
  - exact (is_matrix8x8_canvas_ok 1 2 _ matrix8x8_1x2_geometry).
  - lia.
  - simpl. lia.
Defined.

(** ** Blanking and the rate limiter's edge cases *)

Lemma imap_blank {B : Type} (f : nat -> Z -> B) (g : nat -> B) (l : list Z) :
  (forall k, f k 0 = g k) ->
  imap f (replicate (length l) 0) = imap (fun k _ => g k) l.
Proof.
  intros Hfg. apply list_eq. intros k. rewrite !list_lookup_imap.
  destruct (Nat.lt_ge_cases k (length l)) as [Hlt | Hge].
  - rewrite lookup_replicate_2 by exact Hlt.
    destruct (lookup_lt_is_Some_2 l k Hlt) as [v ->]. cbn. rewrite Hfg. reflexivity.
  - rewrite !lookup_ge_None_2; [reflexivity | exact Hge |].
    rewrite length_replicate. exact Hge.
Qed.

Lemma blank_buffer (d : device) :
  for_each (range 0 (Z.of_nat (length (ar d))))
           (fun i d' => do a <- array_set (ar d') i 0; Ok (set_ar d' a)) d
  = Ok (set_ar d (replicate (length (ar d)) 0)).
Proof.
  unfold range. rewrite Z.sub_0_r.
  rewrite (for_each_writes _ 0 d ltac:(lia)).
  - rewrite fill_all_cells. reflexivity.
  - apply Forall_seqZ. intros i Hi. lia.
Qed.

(** X25: blankDisplay zeroes the whole buffer and, once the rate limiter
    lets it through, sends a frame in which every word is 0, whatever the
    previous content and for any brightness from 0 to 255: setPixelColor(i, 0) for every i
    followed by show on the strip backend, put(0, 8) for every LED on the
    state-machine backend. *)
Theorem blankDisplay_all_off
  (clock : nat -> Z) (d : device) (w : world) (n fuel : nat) :
  rateLimit d <> 0 ->
  deadline d <= clock (actions w + n)%nat ->
  (n < fuel)%nat ->
  0 <= brightness d <= 255 ->
  length (dimmer_ar d) = length (ar d) ->
  exists d' w',
    blankDisplay clock fuel d w = Some (Ok (d', w'))
    /\ ar d' = replicate (length (ar d)) 0
    /\ calls w'
       = calls w
         ++ match SYSNAME d with
            | Linux => imap (fun i _ => setPixelColor (Z.of_nat i) 0) (ar d) ++ [show]
            | rp2 => imap (fun _ _ => put 0 8) (ar d)
            end.
Proof.
  intros Hr Hdue Hfuel Hbr Hdim.
  unfold blankDisplay. rewrite blank_buffer.
  set (d0 := set_ar d (replicate (length (ar d)) 0)).
  destruct (first_due_exists clock d0 w n Hdue) as (m & Hm & Hfirst).
  unfold pixelsShow. change (SYSNAME d0) with (SYSNAME d).
  destruct (SYSNAME d).
  - destruct (pixelsShowPico_result clock d0 w m fuel) as (dim & Hrun);
      [exact Hr | exact Hfirst | lia | exact Hbr
       | unfold d0; rewrite ar_set_ar, length_replicate; exact Hdim |].
    rewrite Hrun. do 2 eexists. split; [reflexivity |].
    split; [reflexivity |].
    unfold calls. cbn [log]. rewrite fmap_app, fmap_imap. f_equal.
    unfold d0. rewrite ar_set_ar. apply imap_blank. intros k. reflexivity.
  - rewrite (pixelsShowRPi_result clock d0 w m fuel Hr Hfirst ltac:(lia)).
    do 2 eexists. split; [reflexivity |].
    split; [reflexivity |].
    unfold calls. cbn [log]. rewrite !fmap_app, fmap_imap. do 2 f_equal.
    unfold d0. rewrite ar_set_ar. apply imap_blank. intros k. reflexivity.
Qed.

Lemma blankDisplay_all_off_witness :
  exists d' w',
    blankDisplay (fun _ => 1000) 1 stick2 (mkWorld 0 []) = Some (Ok (d', w'))
    /\ ar d' = replicate (length (ar stick2)) 0
    /\ calls w'
       = calls (mkWorld 0 [])
         ++ match SYSNAME stick2 with
            | Linux => imap (fun i _ => setPixelColor (Z.of_nat i) 0) (ar stick2)
                       ++ [show]
            | rp2 => imap (fun _ _ => put 0 8) (ar stick2)
            end.
Proof.
  apply (blankDisplay_all_off (fun _ => 1000) stick2 (mkWorld 0 []) 0 1).
  - discriminate.
  - vm_compute. discriminate.
  - lia.
  - vm_compute. split; discriminate.
  - reflexivity.
Defined.

(** X26: updateRateLimitFPS does not check its argument.  After
    updateRateLimitFPS(0) every flush, on either backend and through
    blankDisplay as well, raises ZeroDivisionError in the first round of
    the wait loop, and so returns no frame. *)
Theorem zero_rate_limit_raises (clock : nat -> Z) (d : device) (w : world) (fuel : nat) :
  let d0 := glowbit.updateRateLimitFPS d 0 in
  pixelsShowRPi clock (S fuel) d0 w = Some (Raise ZeroDivisionError)
  /\ pixelsShowPico clock (S fuel) d0 w = Some (Raise ZeroDivisionError)
  /\ pixelsShow clock (S fuel) d0 w = Some (Raise ZeroDivisionError)
  /\ blankDisplay clock (S fuel) d0 w = Some (Raise ZeroDivisionError).
Proof.
  intros d0.
  assert (Hwait : forall d1, rateLimit d1 = 0 ->
                    syncWait clock (S fuel) d1 w = Some (Raise ZeroDivisionError)).
  { intros d1 Hz. cbn [syncWait ticks_ms]. unfold py_floordiv. rewrite Hz. reflexivity. }
  assert (Hrpi : forall d1, rateLimit d1 = 0 ->
                   pixelsShowRPi clock (S fuel) d1 w = Some (Raise ZeroDivisionError)).
  { intros d1 Hz. unfold pixelsShowRPi. rewrite (Hwait d1 Hz). reflexivity. }
  assert (Hpico : forall d1, rateLimit d1 = 0 ->
                    pixelsShowPico clock (S fuel) d1 w = Some (Raise ZeroDivisionError)).
  { intros d1 Hz. unfold pixelsShowPico. rewrite (Hwait d1 Hz). reflexivity. }
  assert (Hshow : forall d1, rateLimit d1 = 0 ->
                    pixelsShow clock (S fuel) d1 w = Some (Raise ZeroDivisionError)).
  { intros d1 Hz. unfold pixelsShow. destruct (SYSNAME d1); auto. }
  split; [apply Hrpi; reflexivity |].
  split; [apply Hpico; reflexivity |].
  split; [apply Hshow; reflexivity |].
  unfold blankDisplay. rewrite blank_buffer. apply Hshow. reflexivity.
Qed.

(** X27: a rate above 1000 frames per second, or a negative one, switches
    the limiter off: the interval 1000 // rateLimit is then 0 or negative,
    so a flush whose first clock read is not before the last stamp never
    waits; it takes the next read as the new stamp. *)
Theorem rate_limit_off (clock : nat -> Z) (d : device) (w : world) (fuel : nat) :
  1000 < rateLimit d \/ rateLimit d < 0 ->
  lastFrame_ms d <= clock (actions w) ->
  syncWait clock (S fuel) d w
  = Some (Ok (set_lastFrame_ms d (clock (actions w + 1)%nat),
              mkWorld (actions w + 2) (log w)))
  /\ exists w',
      pixelsShowRPi clock (S fuel) d w
      = Some (Ok (set_lastFrame_ms d (clock (actions w + 1)%nat), w')).
Proof.
  intros Hrate Hclock.
  assert (Hr : rateLimit d <> 0) by lia.
  assert (Hint : 1000 / rateLimit d <= 0).
  { destruct Hrate as [Hbig | Hneg].
    - rewrite Z.div_small by lia. lia.
    - Z.div_mod_to_equations. nia. }
  assert (Hdue : first_due clock d w 0).
  { split; [intros k Hk; lia |]. unfold deadline. rewrite Nat.add_0_r. lia. }
  split.
  - rewrite (syncWait_returns clock 0 (S fuel) d w Hr Hdue ltac:(lia)).
    rewrite !Nat.add_0_r. reflexivity.
  - eexists.
    rewrite (pixelsShowRPi_result clock d w 0 (S fuel) Hr Hdue ltac:(lia)).
    rewrite !Nat.add_0_r. reflexivity.
Qed.

Lemma rate_limit_off_witness :
  syncWait (fun _ => 1000) 1 (glowbit.updateRateLimitFPS stick2 2000) (mkWorld 0 [])
  = Some (Ok (set_lastFrame_ms (glowbit.updateRateLimitFPS stick2 2000) 1000,
              mkWorld 2 [])).
Proof.
  apply (rate_limit_off (fun _ => 1000) (glowbit.updateRateLimitFPS stick2 2000)
           (mkWorld 0 []) 0).
  - left. vm_compute. reflexivity.
  - vm_compute. discriminate.
Defined.

(** ** What brightness does to a word *)

Lemma scaled_le (br channel : Z) :
  0 <= br <= 256 -> 0 <= channel < 256 -> 0 <= scaled br channel <= channel.
Proof.
  intros Hbr Hch. unfold scaled. split; [apply Z.div_pos; nia |].
  apply Z.div_le_upper_bound; nia.
Qed.

Lemma frame_channels (br c : Z) :
  0 <= br <= 256 ->
  channels (frameRPi br c)
  = (scaled br (red c), scaled br (green c), scaled br (blue c))
  /\ channels (framePico br c)
     = (scaled br (green c), scaled br (red c), scaled br (blue c)).
Proof.
  intros Hbr. destruct (channel_range c) as (Hr & Hg & Hb).
  pose proof (scaled_le br _ Hbr Hr). pose proof (scaled_le br _ Hbr Hg).
  pose proof (scaled_le br _ Hbr Hb).
  rewrite frameRPi_scaled, framePico_scaled.
  split; apply unpack_pack; lia.
Qed.

(** X28: for a brightness from 0 to 256 the two backends send the same
    three scaled channels, red-green-blue in one word and green-red-blue in
    the other, and no channel is ever raised.  Brightness 0 sends 0,
    brightness 256 sends the colour itself, and brightness 255 lowers every
    lit channel by exactly one level. *)
Theorem brightness_levels (br c : Z) :
  0 <= br <= 256 ->
  (red (framePico br c) = green (frameRPi br c)
   /\ green (framePico br c) = red (frameRPi br c)
   /\ blue (framePico br c) = blue (frameRPi br c))
  /\ (0 <= red (frameRPi br c) <= red c
      /\ 0 <= green (frameRPi br c) <= green c
      /\ 0 <= blue (frameRPi br c) <= blue c)
  /\ (br = 0 -> frameRPi br c = 0)
  /\ (br = 256 -> frameRPi br c = c mod 2 ^ 24)
  /\ (br = 255 ->
      red (frameRPi br c) = Z.max 0 (red c - 1)
      /\ green (frameRPi br c) = Z.max 0 (green c - 1)
      /\ blue (frameRPi br c) = Z.max 0 (blue c - 1)).
Proof.
  intros Hbr. destruct (frame_channels br c Hbr) as [Hrpi Hpico].
  destruct (channel_range c) as (Hr & Hg & Hb).
  pose proof (scaled_le br _ Hbr Hr) as Sr. pose proof (scaled_le br _ Hbr Hg) as Sg.
  pose proof (scaled_le br _ Hbr Hb) as Sb.
  assert (Er : red (frameRPi br c) = scaled br (red c))
    by (unfold red at 1; rewrite Hrpi; reflexivity).
  assert (Eg : green (frameRPi br c) = scaled br (green c))
    by (unfold green at 1; rewrite Hrpi; reflexivity).
  assert (Eb : blue (frameRPi br c) = scaled br (blue c))
    by (unfold blue at 1; rewrite Hrpi; reflexivity).
  split; [| split; [| split; [| split]]].
  - rewrite Er, Eg, Eb.
    assert (Pr : red (framePico br c) = scaled br (green c))
      by (unfold red at 1; rewrite Hpico; reflexivity).
    assert (Pg : green (framePico br c) = scaled br (red c))
      by (unfold green at 1; rewrite Hpico; reflexivity).
    assert (Pb : blue (framePico br c) = scaled br (blue c))
      by (unfold blue at 1; rewrite Hpico; reflexivity).
    rewrite Pr, Pg, Pb. repeat split.
  - rewrite Er, Eg, Eb. lia.
  - intros ->. rewrite frameRPi_scaled. unfold scaled.
    rewrite !Z.mul_0_r. reflexivity.
  - intros ->. rewrite frameRPi_scaled. unfold scaled.
    rewrite !Z.div_mul by lia. apply pack_channels.
  - intros ->. rewrite Er, Eg, Eb. unfold scaled.
    repeat split; Z.div_mod_to_equations; lia.
Qed.

Lemma brightness_levels_witness :
  red (frameRPi 255 0x80FF00) = Z.max 0 (red 0x80FF00 - 1)
  /\ frameRPi 0 0x80FF00 = 0
  /\ frameRPi 256 0x80FF00 = 0x80FF00 mod 2 ^ 24.
Proof.
  destruct (brightness_levels 255 0x80FF00 ltac:(lia)) as (_ & _ & _ & _ & Hfull).
  destruct (brightness_levels 0 0x80FF00 ltac:(lia)) as (_ & _ & Hoff & _).
  destruct (brightness_levels 256 0x80FF00 ltac:(lia)) as (_ & _ & _ & Hsame & _).
  split; [exact (proj1 (Hfull eq_refl)) |].
  split; [exact (Hoff eq_refl) | exact (Hsame eq_refl)].
Defined.

(** ** Rolling series *)

Lemma addData_step (g : graph2D.t) (value : Z) :
  Z.of_nat (length (graph2D.data g)) <= graph2D.width g ->
  graph2D.data (graph2D.addData g value)
  = take (Z.to_nat (graph2D.width g)) (value :: graph2D.data g)
  /\ graph2D.width (graph2D.addData g value) = graph2D.width g.
Proof.
  intros Hlen. unfold graph2D.addData.
  destruct (Z.gtb_spec (Z.of_nat (length (value :: graph2D.data g))) (graph2D.width g))
    as [Hfull | Hroom]; cbn [graph2D.data graph2D.width graph2D.set_data];
    (split; [| reflexivity]).
  - rewrite removelast_firstn_len. f_equal. cbn [length] in *. lia.
  - symmetry. apply firstn_all2. cbn [length] in *. lia.
Qed.

Lemma take_app_take {A : Type} (n : nat) (l1 l2 : list A) :
  take n (l1 ++ take n l2) = take n (l1 ++ l2).
Proof.
  rewrite !firstn_app, firstn_firstn. do 2 f_equal. lia.
Qed.

(** X29: the series of a graph2D is a window on the values added: starting
    from a series no longer than width, after adding any number of values
    it holds the last width of them, newest first, followed by as much of
    the old series as still fits. *)
Theorem addData_window (g : graph2D.t) (values : list Z) :
  Z.of_nat (length (graph2D.data g)) <= graph2D.width g ->
  graph2D.data (fold_left graph2D.addData values g)
  = take (Z.to_nat (graph2D.width g)) (rev values ++ graph2D.data g)
  /\ Z.of_nat (length (graph2D.data (fold_left graph2D.addData values g)))
     <= graph2D.width g.
Proof.
  revert g. induction values as [| v vs IH]; intros g Hlen.
  - cbn [fold_left rev app]. split; [| exact Hlen].
    symmetry. apply firstn_all2. lia.
  - cbn [fold_left rev]. destruct (addData_step g v Hlen) as [Hdata Hwidth].
    destruct (IH (graph2D.addData g v)) as [IHdata IHlen].
    { rewrite Hdata, Hwidth, length_take. lia. }
    rewrite Hwidth in IHdata, IHlen. split; [| exact IHlen].
    rewrite IHdata, Hdata, take_app_take, <- app_assoc. reflexivity.
Qed.

Lemma addData_window_witness :
  exists g,
    graph2D.init 0 255 0 7 3 8 0xFFFFFF 0 (graph1D.byName "Solid") false false false
    = Ok g
    /\ graph2D.data (fold_left graph2D.addData [10; 20; 30; 40] g) = [40; 30; 20].
Proof.
  eexists. split; [reflexivity |].
  refine (proj1 (addData_window _ [10; 20; 30; 40] _)).
  simpl. lia.
Defined.

(** ** The rainbow strip *)

Lemma array_set_middle (pre suf : list Z) (s v : Z) :
  0 <= v < 2 ^ 32 ->
  array_set (pre ++ s :: suf) (Z.of_nat (length pre)) v = Ok (pre ++ v :: suf).
Proof.
  intros Hv. rewrite array_set_in_range; [| rewrite length_app; cbn [length]; lia | exact Hv].
  rewrite Nat2Z.id. f_equal.
  rewrite insert_app_r_alt by lia. rewrite Nat.sub_diag. reflexivity.
Qed.

(** The loop of drawRainbow over the rest of the buffer: the cells already
    passed stay, the others take the wheel colours 17 positions apart. *)
Lemma drawRainbow_loop_cells (d : device) :
  forall (suf pre : list Z) (colPhase : Z),
    rainbow.drawRainbow_loop
      (seqZ (Z.of_nat (length pre)) (Z.of_nat (length suf))) colPhase
      (set_ar d (pre ++ suf))
    = Ok (set_ar d (pre ++ ((fun i => wheel (colPhase + 17 * i))
                              <$> seqZ 0 (Z.of_nat (length suf))))).
Proof.
  induction suf as [| s suf IH]; intros pre colPhase.
  - reflexivity.
  - cbn [length]. rewrite !(seqZ_cons _ (Z.of_nat (S (length suf)))) by lia.
    cbn [rainbow.drawRainbow_loop]. unfold glowbit.pixelSet. rewrite ar_set_ar.
    pose proof (wheel_range (colPhase mod 255)) as Hw.
    rewrite array_set_middle by lia. cbn [bind].
    replace (Z.pred (Z.of_nat (S (length suf)))) with (Z.of_nat (length suf)) by lia.
    replace (Z.succ (Z.of_nat (length pre)))
      with (Z.of_nat (length (pre ++ [wheel (colPhase mod 255)])))
      by (rewrite length_app; cbn [length]; lia).
    change (set_ar (set_ar d (pre ++ s :: suf)) (pre ++ wheel (colPhase mod 255) :: suf))
      with (set_ar d (pre ++ wheel (colPhase mod 255) :: suf)).
    replace (pre ++ wheel (colPhase mod 255) :: suf)
      with ((pre ++ [wheel (colPhase mod 255)]) ++ suf)
      by (rewrite <- app_assoc; reflexivity).
    rewrite IH. rewrite <- app_assoc. cbn [app fmap list_fmap].
    rewrite <- (wheel_mod colPhase), Z.mul_0_r, Z.add_0_r.
    do 3 f_equal.
    change (Z.succ 0) with (1 + 0). rewrite <- fmap_add_seqZ, <- list_fmap_compose.
    f_equal.
    apply list_fmap_ext. intros _ i _. cbn [compose]. f_equal. lia.
Qed.

(** X30: drawRainbow(offset) gives LED i the wheel colour of position
    offset + 17 * i and then flushes; any two LEDs fewer than 15 places
    apart get different colours, so a strip of up to 15 LEDs shows as many
    different hues. *)
Theorem drawRainbow_colours
  (clock : nat -> Z) (fuel : nat) (d : device) (offset : Z) (w : world) :
  numLEDs d = Z.of_nat (length (ar d)) ->
  rainbow.drawRainbow clock fuel d offset w
  = pixelsShow clock fuel
      (set_ar d ((fun i => wheel (offset + 17 * i)) <$> seqZ 0 (numLEDs d))) w
  /\ forall i j, 0 < j - i < 15 ->
       wheel (offset + 17 * i) <> wheel (offset + 17 * j).
Proof.
  intros Hn. split.
  - unfold rainbow.drawRainbow, range. rewrite Z.sub_0_r, Hn.
    pose proof (drawRainbow_loop_cells d (ar d) [] offset) as Hloop.
    cbn [app length] in Hloop. change (Z.of_nat 0) with 0 in Hloop.
    rewrite set_ar_same in Hloop. rewrite Hloop. reflexivity.
  - intros i j Hij Heq. apply wheel_eq_mod in Heq.
    Z.div_mod_to_equations. lia.
Qed.

Lemma drawRainbow_colours_witness :
  rainbow.drawRainbow (fun _ => 1000) 1 stick2 3 (mkWorld 0 [])
  = pixelsShow (fun _ => 1000) 1
      (set_ar stick2 ((fun i => wheel (3 + 17 * i)) <$> seqZ 0 (numLEDs stick2)))
      (mkWorld 0 [])
  /\ wheel (3 + 17 * 0) <> wheel (3 + 17 * 14).
Proof.
  destruct (drawRainbow_colours (fun _ => 1000) 1 stick2 3 (mkWorld 0 []) eq_refl)
    as [Hrun Hdiff].
  split; [exact Hrun | apply Hdiff; lia].
Defined.
